(** * Crossword placement-and-validation engine

    A shallow embedding of the crossword engine of
    [tools/wordle/auto_crossword.py] and of the plan builder of
    [build_puzzles.py] ([place_word], [find_all_runs], [check_no_ghosts],
    [try_add_word], [try_layout], [build_puzzle]), together with the
    properties stated about them.

    Conventions of the embedding:
    - a Python [int] is a [Z];
    - a Python [str] is the list of its code points ([list char], a code
      point being an [N]); a grid cell is a one-code-point string, hence a
      [char]; the empty-cell marker is the string ["X"], code point 88;
    - a Python list read or written by index follows Python's rules: a
      negative index counts from the end, an index outside
      [-len, len) raises [IndexError];
    - code that can raise or loop returns a [result]: [Ok v], [Raise e], or
      [OutOfFuel] when a [while] loop was cut by its iteration bound (every
      theorem that states [Ok _] therefore also states that the loop ended);
    - functions that mutate an object the caller can see are modelled over
      an explicit store of objects. *)

From Stdlib Require Import ZArith List Lia Ascii String Permutation.
From stdpp Require Import base tactics option numbers list sets gmap relations sorting.

Local Open Scope Z_scope.

#[local] Set Warnings "-clear-no-such-hyp".

(** ** Python values *)

Abbreviation char := N (only parsing).
Abbreviation str := (list N) (only parsing).

(** The code point of an ASCII character, and the [str] of an ASCII literal. *)
Definition chr (a : ascii) : N := N_of_ascii a.
Definition lit (s : string) : list N := chr <$> list_ascii_of_string s.

(** The empty-cell marker ["X"]. *)
Definition X : N := 88%N.

(** [Ë], U+00CB. *)
Definition E_diaeresis : N := 203%N.

Inductive exn := IndexError | KeyError | TypeError.

Inductive result (A : Type) : Type :=
  | Ok (a : A)
  | Raise (e : exn)
  | OutOfFuel.
Arguments Ok {A} a.
Arguments Raise {A} e.
Arguments OutOfFuel {A}.

#[global] Instance result_ret : MRet result := λ A a, Ok a.
#[global] Instance result_bind : MBind result := λ A B f m,
  match m with
  | Ok a => f a
  | Raise e => Raise e
  | OutOfFuel => OutOfFuel
  end.

(** A computation that reads and updates a state of type [S]. *)
Definition stateful (S A : Type) : Type := S → S * result A.

#[global] Instance stateful_ret {S} : MRet (stateful S) := λ A a s, (s, Ok a).
#[global] Instance stateful_bind {S} : MBind (stateful S) := λ A B f m s,
  match m s with
  | (s', Ok a) => f a s'
  | (s', Raise e) => (s', Raise e)
  | (s', OutOfFuel) => (s', OutOfFuel)
  end.

(** A computation that does not use the state. *)
Definition pure {S A} (x : result A) : stateful S A := λ s, (s, x).

(** [l[i]] *)
Definition py_index {A} (l : list A) (i : Z) : result A :=
  let n := Z.of_nat (length l) in
  let j := if bool_decide (i < 0) then i + n else i in
  if bool_decide (j < 0 ∨ n <= j) then Raise IndexError
  else match l !! Z.to_nat j with
       | Some a => Ok a
       | None => Raise IndexError
       end.

(** [l[i] = a] *)
Definition py_setitem {A} (l : list A) (i : Z) (a : A) : result (list A) :=
  let n := Z.of_nat (length l) in
  let j := if bool_decide (i < 0) then i + n else i in
  if bool_decide (j < 0 ∨ n <= j) then Raise IndexError
  else Ok (<[Z.to_nat j := a]> l).

(** [range(n)] *)
Definition range (n : Z) : list Z := seqZ 0 n.

(** ** Grid model *)

Inductive direction := horizontal | vertical.

#[global] Instance direction_eq_dec : EqDecision direction.
Proof. solve_decision. Defined.

#[global] Instance direction_countable : Countable direction.
Proof.
  refine (inj_countable' (λ d, match d with horizontal => false | vertical => true end)
                         (λ b : bool, if b then vertical else horizontal) _).
  by intros [].
Defined.

Abbreviation grid := (list (list N)) (only parsing).

(** [make_grid(size)]: [[["X"] * size for _ in range(size)]] *)
Definition make_grid (size : Z) : grid :=
  (λ _, replicate (Z.to_nat size) X) <$> range size.

(** [row + (i if direction == "vertical" else 0)] *)
Definition cell_row (row : Z) (d : direction) (i : Z) : Z :=
  row + (match d with vertical => i | horizontal => 0 end).

(** [col + (i if direction == "horizontal" else 0)] *)
Definition cell_col (col : Z) (d : direction) (i : Z) : Z :=
  col + (match d with horizontal => i | vertical => 0 end).

(** The body of the [for i, ch in enumerate(word)] loop of [try_place],
    run on the working copy [g] for the letters from index [i] on. *)
Fixpoint try_place_from (g : grid) (i : Z) (word : str)
    (row col : Z) (d : direction) (size : Z) : result (option grid) :=
  match word with
  | [] => Ok (Some g)
  | ch :: rest =>
      let r := cell_row row d i in
      let c := cell_col col d i in
      if bool_decide (r >= size) || bool_decide (c >= size) then Ok None
      else
        gr ← py_index g r;
        old ← py_index gr c;
        if bool_decide (old ≠ X) && bool_decide (old ≠ ch) then Ok None
        else
          gr' ← py_setitem gr c ch;
          g' ← py_setitem g r gr';
          try_place_from g' (i + 1) rest row col d size
  end.

(** [try_place(grid, word, row, col, direction, size)], on grid values: the
    copy made by [copy_grid] has the contents of [grid]. [None] is the
    rejection, [Some g] the new grid. *)
Definition try_place (g : grid) (word : str) (row col : Z)
    (d : direction) (size : Z) : result (option grid) :=
  try_place_from g 0 word row col d size.

(** [GRID_SIZE] and [place_word] of [build_puzzles.py]: the same body with
    the module constant for [size]. *)
Definition GRID_SIZE : Z := 7.

Definition place_word (g : grid) (word : str) (row col : Z)
    (d : direction) : result (option grid) :=
  try_place_from g 0 word row col d GRID_SIZE.

(** The cell at ([r], [c]) of a grid, for indices inside the lists. *)
Definition cell (g : grid) (r c : Z) : option N :=
  if bool_decide (0 <= r ∧ 0 <= c) then
    gr ← g !! Z.to_nat r; gr !! Z.to_nat c
  else None.

(** The cell ([r], [c]) lies inside a grid of side [size]. *)
Definition inside (size r c : Z) : Prop := 0 <= r < size ∧ 0 <= c < size.

(** A grid of [size] rows of [size] cells. *)
Definition wf_grid (g : grid) (size : Z) : Prop :=
  Z.of_nat (length g) = size ∧ Forall (λ gr, Z.of_nat (length gr) = size) g.

(** A committed placement, as [generate_puzzle] records it:
    [(word, row, col, direction)]. *)
Abbreviation placement := (list N * Z * Z * direction)%type (only parsing).

(** [successive size g ps g']: placing the words of [ps] one after the other
    with [try_place], each on the grid the previous one returned, succeeds
    every time and ends with [g']. *)
Inductive successive (size : Z) : grid → list placement → grid → Prop :=
  | successive_nil g : successive size g [] g
  | successive_cons g g1 g2 word row col d ps :
      try_place g word row col d size = Ok (Some g1) →
      successive size g1 ps g2 →
      successive size g ((word, row, col, d) :: ps) g2.

(** ** Grids as objects

    [try_place] receives a reference to the caller's grid: a list object
    whose items are references to the row lists. The store maps a location
    to the object it holds. *)

Abbreviation loc := positive (only parsing).

Inductive obj :=
  | ORow (cells : list N)
  | OGrid (rows : list positive).

Abbreviation heap := (gmap positive obj) (only parsing).

(** A computation on the store: it returns the store it leaves, also when
    it raises. *)
Abbreviation hm := (stateful (gmap positive obj)) (only parsing).

Definition lift {A} (x : result A) : hm A := pure x.

(** A new object, at a location the store does not use yet. *)
Definition alloc (o : obj) : hm loc := λ h,
  let l := fresh (dom h) in (<[l := o]> h, Ok l).

Definition read_row (l : loc) : hm (list N) := λ h,
  match h !! l with
  | Some (ORow cells) => (h, Ok cells)
  | _ => (h, Raise TypeError)
  end.

Definition read_grid (l : loc) : hm (list loc) := λ h,
  match h !! l with
  | Some (OGrid rows) => (h, Ok rows)
  | _ => (h, Raise TypeError)
  end.

Definition write_row (l : loc) (cells : list N) : hm () := λ h,
  (<[l := ORow cells]> h, Ok ()).

(** [[r[:] for r in g]]: the comprehension of [copy_grid], row by row. *)
Fixpoint copy_rows (rows : list loc) : hm (list loc) :=
  match rows with
  | [] => mret []
  | rl :: rest =>
      cells ← read_row rl;
      rl' ← alloc (ORow cells);
      rest' ← copy_rows rest;
      mret (rl' :: rest')
  end.

(** [copy_grid(g)] *)
Definition copy_grid (g : loc) : hm loc :=
  rows ← read_grid g;
  rows' ← copy_rows rows;
  alloc (OGrid rows').

(** The loop of [try_place] on the working copy at [g]. *)
Fixpoint try_place_loop (g : loc) (i : Z) (word : str)
    (row col : Z) (d : direction) (size : Z) : hm (option loc) :=
  match word with
  | [] => mret (Some g)
  | ch :: rest =>
      let r := cell_row row d i in
      let c := cell_col col d i in
      if bool_decide (r >= size) || bool_decide (c >= size) then mret None
      else
        rows ← read_grid g;
        rl ← lift (py_index rows r);
        cells ← read_row rl;
        old ← lift (py_index cells c);
        if bool_decide (old ≠ X) && bool_decide (old ≠ ch) then mret None
        else
          cells' ← lift (py_setitem cells c ch);
          _ ← write_row rl cells';
          try_place_loop g (i + 1) rest row col d size
  end.

(** [try_place(grid, word, row, col, direction, size)] on the store. *)
Definition try_place_obj (g : loc) (word : str) (row col : Z)
    (d : direction) (size : Z) : hm (option loc) :=
  g' ← copy_grid g;
  try_place_loop g' 0 word row col d size.

(** [place_word(grid, word, row, col, direction)] of [build_puzzles.py] on
    the store. *)
Definition place_word_obj (g : loc) (word : str) (row col : Z)
    (d : direction) : hm (option loc) :=
  g' ← copy_grid g;
  try_place_loop g' 0 word row col d GRID_SIZE.

(** The contents of the rows at [rows]. *)
Fixpoint rows_at (h : heap) (rows : list loc) : option grid :=
  match rows with
  | [] => Some []
  | rl :: rest =>
      match h !! rl with
      | Some (ORow cells) => (cells ::.) <$> rows_at h rest
      | _ => None
      end
  end.

(** The contents of the grid at [g]. *)
Definition grid_at (h : heap) (g : loc) : option grid :=
  match h !! g with
  | Some (OGrid rows) => rows_at h rows
  | _ => None
  end.

(** ** Run scanner *)

(** [for x in l: s = body(x, s)] *)
Fixpoint for_each {A S} (l : list A) (body : A → S → result S) (s : S)
    : result S :=
  match l with
  | [] => Ok s
  | x :: rest => s' ← body x s; for_each rest body s'
  end.

(** The scanning loops of [find_all_runs] and [clean_placed_words] are one
    loop written out for the rows and again for the columns; [get k] is the
    read of the [k]-th cell of the line scanned: [grid[r][k]] along row [r],
    [grid[k][c]] down column [c]. *)

(** [grid[r][c]] *)
Definition grid_get (g : grid) (r c : Z) : result N :=
  gr ← py_index g r; py_index gr c.

(** The inner loop, from position [c] with the text [s] collected so far:
    [while c < size and grid[r][c] != "X": s += grid[r][c]; c += 1].
    It returns the position it stops at and the text. *)
Fixpoint scan_run (fuel : nat) (get : Z → result N) (size c : Z) (s : str)
    : result (Z * str) :=
  match fuel with
  | O => OutOfFuel
  | S fuel' =>
      if bool_decide (c < size) then
        x ← get c;
        if bool_decide (x ≠ X) then scan_run fuel' get size (c + 1) (s ++ [x])
        else Ok (c, s)
      else Ok (c, s)
  end.

(** The iterations a loop over a line of [size] cells is allowed. *)
Definition loop_bound (size : Z) : nat := S (Z.to_nat size).

(** The outer loop, from position [c]: every run of two letters or more is
    appended to [runs] with the position it starts at.
    [while c < size:
        if grid[r][c] != "X":
            start = c; s = ""
            (inner loop)
            if len(s) >= 2: runs.append((s, start))
        else: c += 1] *)
Fixpoint scan_line (fuel : nat) (get : Z → result N) (size c : Z)
    (runs : list (str * Z)) : result (list (str * Z)) :=
  match fuel with
  | O => OutOfFuel
  | S fuel' =>
      if bool_decide (c < size) then
        x ← get c;
        if bool_decide (x ≠ X) then
          '(c', s) ← scan_run (loop_bound size) get size c [];
          let runs' :=
            if bool_decide (2 <= Z.of_nat (length s)) then runs ++ [(s, c)]
            else runs in
          scan_line fuel' get size c' runs'
        else scan_line fuel' get size (c + 1) runs
      else Ok runs
  end.

(** The loop over the rows: the runs of each row are added to [runs], each
    with its position, as the tuple [(text, row, col, direction)] that
    [clean_placed_words] stores in [actual_runs]. *)
Definition scan_rows (g : grid) (size : Z) (runs : list placement)
    : result (list placement) :=
  for_each (range size) (λ r runs,
    found ← scan_line (loop_bound size) (λ c, grid_get g r c) size 0 [];
    Ok (runs ++ ((λ '(s, start), (s, r, start, horizontal)) <$> found)))
    runs.

(** The loop over the columns. *)
Definition scan_cols (g : grid) (size : Z) (runs : list placement)
    : result (list placement) :=
  for_each (range size) (λ c runs,
    found ← scan_line (loop_bound size) (λ r, grid_get g r c) size 0 [];
    Ok (runs ++ ((λ '(s, start), (s, start, c, vertical)) <$> found)))
    runs.

(** Both passes, in the order of the source: the rows, then the columns. *)
Definition scan (g : grid) (size : Z) : result (list placement) :=
  runs ← scan_rows g size [];
  scan_cols g size runs.

(** The text of a run or of a placement. *)
Definition text (p : placement) : str := p.1.1.1.

(** [find_all_runs(grid, size)]: the texts of the runs, in scan order. *)
Definition find_all_runs (g : grid) (size : Z) : result (list str) :=
  scan g size ≫= λ runs : list placement, Ok (text <$> runs).

(** [is_valid_after_placement(grid, word_set, size)] *)
Definition is_valid_after_placement (g : grid) (word_set : gset (list N))
    (size : Z) : result bool :=
  runs ← find_all_runs g size;
  Ok (forallb (λ run, bool_decide (run ∈ word_set)) runs).

(** [find_all_runs(grid)] of [build_puzzles.py] *)
Definition find_all_runs_7 (g : grid) : result (list str) :=
  find_all_runs g GRID_SIZE.

(** [check_no_ghosts(grid, word_set)] of [build_puzzles.py]: [(True, None)]
    or [(False, run)] for the first [run] outside [word_set]. *)
Fixpoint first_ghost (runs : list str) (word_set : gset (list N))
    : bool * option str :=
  match runs with
  | [] => (true, None)
  | run :: rest =>
      if bool_decide (run ∉ word_set) then (false, Some run)
      else first_ghost rest word_set
  end.

Definition check_no_ghosts (g : grid) (word_set : gset (list N))
    : result (bool * option str) :=
  runs ← find_all_runs_7 g;
  Ok (first_ghost runs word_set).

(** ** Candidate placements *)

(** [count_letters(grid)]: [sum(1 for r in grid for c in r if c != "X")] *)
Definition count_letters (g : grid) : Z :=
  Z.of_nat (length (filter (λ x, x ≠ X) (concat g))).

(** The loop of [word_shares_cell] over the letter indices [idx]. *)
Fixpoint word_shares_cell_loop (g : grid) (idx : list Z)
    (row col : Z) (d : direction) (size : Z) : result bool :=
  match idx with
  | [] => Ok false
  | i :: rest =>
      let r := cell_row row d i in
      let c := cell_col col d i in
      if bool_decide (r < size) && bool_decide (c < size) then
        x ← grid_get g r c;
        if bool_decide (x ≠ X) then Ok true
        else word_shares_cell_loop g rest row col d size
      else word_shares_cell_loop g rest row col d size
  end.

(** [word_shares_cell(grid, word, row, col, direction, size)] *)
Definition word_shares_cell (g : grid) (word : str) (row col : Z)
    (d : direction) (size : Z) : result bool :=
  word_shares_cell_loop g (range (Z.of_nat (length word))) row col d size.

(** A candidate of [find_all_placements]: [(r, c, direction, new_grid)]. *)
Abbreviation candidate := (Z * Z * direction * list (list N))%type (only parsing).

(** The body of the innermost loop of [find_all_placements], for the
    position ([r], [c]) and the direction [d]. *)
Definition try_candidate (g : grid) (word : str) (new_ws : gset (list N))
    (size : Z) (d : direction) (r c : Z) (placements : list candidate)
    : result (list candidate) :=
  try_place g word r c d size ≫= λ new_grid : option grid,
  match new_grid with
  | None => Ok placements
  | Some new_grid =>
      (if bool_decide (count_letters g > 0) then
         word_shares_cell g word r c d size ≫= λ shares : bool,
         Ok (negb shares)
       else Ok false) ≫= λ floating : bool,
      if floating then Ok placements
      else
        is_valid_after_placement new_grid new_ws size ≫= λ valid : bool,
        if valid then Ok (placements ++ [(r, c, d, new_grid)])
        else Ok placements
  end.

(** [find_all_placements(grid, word, word_set, size)] *)
Definition find_all_placements (g : grid) (word : str)
    (word_set : gset (list N)) (size : Z) : result (list candidate) :=
  let new_ws := word_set ∪ {[ word ]} in
  for_each [horizontal; vertical] (λ d placements,
    let max_r :=
      size - (match d with vertical => Z.of_nat (length word) | horizontal => 1 end) in
    let max_c :=
      size - (match d with horizontal => Z.of_nat (length word) | vertical => 1 end) in
    for_each (range (max_r + 1)) (λ r placements,
      for_each (range (max_c + 1)) (λ c placements,
        try_candidate g word new_ws size d r c placements)
        placements)
      placements)
    [].

(** ** Cleaning the placed words *)

(** The first half of [clean_placed_words]: the set [actual_runs] of the
    runs of the grid with their positions. *)
Definition actual_runs (g : grid) (size : Z) : result (gset placement) :=
  scan g size ≫= λ runs : list placement, Ok (list_to_set runs).

(** The second half: the loop over [placed], with the list [clean] built so
    far and the set [used_runs]. *)
Fixpoint clean_loop (actual : gset placement) (placed clean : list placement)
    (used_runs : gset placement) : list placement :=
  match placed with
  | [] => clean
  | key :: rest =>
      if bool_decide (key ∈ actual) && bool_decide (key ∉ used_runs)
      then clean_loop actual rest (clean ++ [key]) (used_runs ∪ {[ key ]})
      else clean_loop actual rest clean used_runs
  end.

(** [clean_placed_words(grid, placed, size)] *)
Definition clean_placed_words (g : grid) (placed : list placement) (size : Z)
    : result (list placement) :=
  actual_runs g size ≫= λ actual : gset placement,
  Ok (clean_loop actual placed [] ∅).

(** [format_puzzle(grid, placed, size)]: the grid and the cleaned words (the
    dictionaries it builds hold the four fields of each tuple). *)
Definition format_puzzle (g : grid) (placed : list placement) (size : Z)
    : result (grid * list placement) :=
  clean_placed_words g placed size ≫= λ words : list placement,
  Ok (g, words).

(** The cells a placement occupies. *)
Definition cells_of (p : placement) : list (Z * Z) :=
  let '(s, row, col, d) := p in
  (λ i, (cell_row row d i, cell_col col d i)) <$> range (Z.of_nat (length s)).

(** ** Connectivity *)

(** [l[i]] for an index taken from [range(len(l))]. *)
Definition index {A} (l : list A) (i : nat) : result A :=
  match l !! i with
  | Some a => Ok a
  | None => Raise IndexError
  end.

(** [cells_per_word]: for each placed word, the set of its cells. *)
Definition cells_per_word (placed : list placement) : list (gset (Z * Z)) :=
  (λ p, list_to_set (cells_of p)) <$> placed.

(** [adj[i].add(j)] *)
Definition adj_add (adj : gmap nat (gset nat)) (i j : nat)
    : result (gmap nat (gset nat)) :=
  match adj !! i with
  | Some s => Ok (<[i := s ∪ {[ j ]}]> adj)
  | None => Raise KeyError
  end.

(** [adj = {i: set() for i in range(n)}] and the double loop that fills it:
    [for i in range(n): for j in range(i+1, n):
       if cells_per_word[i] & cells_per_word[j]: adj[i].add(j); adj[j].add(i)] *)
Definition build_adj (cells : list (gset (Z * Z))) : result (gmap nat (gset nat)) :=
  let n := length cells in
  for_each (seq 0 n) (λ i adj,
    for_each (seq (S i) (n - S i)) (λ j adj,
      index cells i ≫= λ ci : gset (Z * Z),
      index cells j ≫= λ cj : gset (Z * Z),
      if bool_decide (ci ∩ cj ≠ ∅) then
        adj_add adj i j ≫= λ adj' : gmap nat (gset nat), adj_add adj' j i
      else Ok adj)
      adj)
    (list_to_map ((λ i, (i, ∅)) <$> seq 0 n)).

(** The body of [for nb in adj[n]]:
    [if nb not in visited: visited.add(nb); queue.append(nb)] *)
Definition visit (st : gset nat * list nat) (nb : nat) : gset nat * list nat :=
  if bool_decide (nb ∈ st.1) then st else (st.1 ∪ {[ nb ]}, st.2 ++ [nb]).

(** [while queue: n = queue.pop(0); for nb in adj[n]: ...].  The order in
    which Python goes through the set [adj[n]] is not specified: [iter]
    gives it. *)
Fixpoint bfs (fuel : nat) (iter : gset nat → list nat)
    (adj : gmap nat (gset nat)) (visited : gset nat) (queue : list nat)
    : result (gset nat) :=
  match queue with
  | [] => Ok visited
  | n :: queue' =>
      match fuel with
      | O => OutOfFuel
      | S fuel' =>
          match adj !! n with
          | None => Raise KeyError
          | Some nbs =>
              let st := foldl visit (visited, queue') (iter nbs) in
              bfs fuel' iter adj st.1 st.2
          end
      end
  end.

(** [check_connectivity(placed_words)], for a given iteration order of the
    sets. *)
Definition check_connectivity_with (iter : gset nat → list nat)
    (placed : list placement) : result bool :=
  if bool_decide (length placed ≤ 1)%nat then Ok true
  else
    build_adj (cells_per_word placed) ≫= λ adj : gmap nat (gset nat),
    bfs (length placed) iter adj {[ 0%nat ]} [0%nat] ≫= λ visited : gset nat,
    Ok (bool_decide (size visited = length placed)).

(** [check_connectivity(placed_words)], the sets gone through in the order
    of [elements]; [check_connectivity_with_spec] shows that the order does
    not change the result. *)
Definition check_connectivity (placed : list placement) : result bool :=
  check_connectivity_with elements placed.

(** ** Building a puzzle from a plan ([build_puzzles.py])

    A plan is a list of entries [(word, row, col, direction)]; the
    dictionaries [{"word", "row", "col", "direction"}] that [build_puzzles.py]
    appends to [words] hold the same four fields and are the same tuples
    here, and its [check_connectivity(words)], which reads the four fields of
    each dictionary, is the function [check_connectivity] above. *)

(** [try_add_word(grid, words, word_set, word, row, col, direction)];
    [words] is not read. *)
Definition try_add_word (g : grid) (words : list placement)
    (word_set : gset (list N)) (word : str) (row col : Z) (d : direction)
    : result (option grid) :=
  place_word g word row col d ≫= λ new_grid : option grid,
  match new_grid with
  | None => Ok None
  | Some new_grid =>
      check_no_ghosts new_grid (word_set ∪ {[ word ]}) ≫= λ res : bool * option str,
      if res.1 then Ok (Some new_grid) else Ok None
  end.

(** The loop [for word, row, col, direction in plan] of [try_layout], with
    the values of [grid], [words] and [word_set] it starts from; [None] is
    the [return None] taken inside the loop. *)
Fixpoint try_layout_loop (plan : list placement) (g : grid)
    (words : list placement) (word_set : gset (list N))
    : result (option (grid * list placement)) :=
  match plan with
  | [] => Ok (Some (g, words))
  | (word, row, col, d) :: rest =>
      place_word g word row col d ≫= λ new_grid : option grid,
      match new_grid with
      | None => Ok None
      | Some new_grid =>
          check_no_ghosts new_grid (word_set ∪ {[ word ]}) ≫= λ res : bool * option str,
          if res.1 then
            try_layout_loop rest new_grid (words ++ [(word, row, col, d)])
              (word_set ∪ {[ word ]})
          else Ok None
      end
  end.

(** [try_layout(plan)]: [(grid, words)] or [None]. *)
Definition try_layout (plan : list placement)
    : result (option (grid * list placement)) :=
  try_layout_loop plan (make_grid GRID_SIZE) [] ∅ ≫= λ out : option (grid * list placement),
  match out with
  | None => Ok None
  | Some (g, words) =>
      check_connectivity words ≫= λ connected : bool,
      if connected then Ok (Some (g, words)) else Ok None
  end.

(** What [build_puzzle] reports before it raises [ValueError]: the step and
    the word that failed, with [CONFLICT] or the list [GHOSTS] it prints, or
    that the words are not all connected. *)
Inductive diagnostic :=
  | Conflict
  | Ghosts (ghosts : list (list N)).

Inductive value_error :=
  | FailedToPlace (word : list N) (step : nat) (shown : diagnostic)
  | NotConnected.

(** The loop [for i, (word, row, col, direction) in enumerate(plan)] of
    [build_puzzle], from step [i]; the [ValueError] it raises is the left
    summand. *)
Fixpoint build_puzzle_loop (plan : list placement) (i : nat) (g : grid)
    (words : list placement) (word_set : gset (list N))
    : result (value_error + grid * list placement) :=
  match plan with
  | [] => Ok (inr (g, words))
  | (word, row, col, d) :: rest =>
      try_add_word g words word_set word row col d ≫= λ new_grid : option grid,
      match new_grid with
      | None =>
          place_word g word row col d ≫= λ test_grid : option grid,
          match test_grid with
          | None => Ok (inl (FailedToPlace word i Conflict))
          | Some test_grid =>
              find_all_runs_7 test_grid ≫= λ runs : list str,
              let new_ws := word_set ∪ {[ word ]} in
              let ghosts := filter (λ r, r ∉ new_ws) runs in
              Ok (inl (FailedToPlace word i (Ghosts ghosts)))
          end
      | Some new_grid =>
          build_puzzle_loop rest (S i) new_grid (words ++ [(word, row, col, d)])
            (word_set ∪ {[ word ]})
      end
  end.

(** [build_puzzle(plan, label)]: [(grid, words)], or the [ValueError]
    raised; the label only goes into the message. *)
Definition build_puzzle (plan : list placement)
    : result (value_error + grid * list placement) :=
  build_puzzle_loop plan 0 (make_grid GRID_SIZE) [] ∅ ≫= λ out : value_error + grid * list placement,
  match out with
  | inl e => Ok (inl e)
  | inr (g, words) =>
      check_connectivity words ≫= λ connected : bool,
      if connected then Ok (inr (g, words)) else Ok (inl NotConnected)
  end.

(** ** The random generator and the search *)

(** [for x in l: st = body(st, x)] *)
Fixpoint fold_stateful {S A B} (body : B → A → stateful S B) (l : list A)
    (b : B) : stateful S B :=
  match l with
  | [] => mret b
  | x :: rest => b' ← body b x; fold_stateful body rest b'
  end.

(** [x[i], x[j] = x[j], x[i]] *)
Definition swap {A} (x : list A) (i j : Z) : result (list A) :=
  xj ← py_index x j;
  xi ← py_index x i;
  x' ← py_setitem x i xj;
  py_setitem x' j xi.

(** A finished puzzle: the grid and the placed words. *)
Abbreviation puzzle := (list (list N) * list (list N * Z * Z * direction))%type
  (only parsing).

(** The lists of words that the caller of [generate_puzzle] can see, by
    location. *)
Abbreviation store := (gmap positive (list (list N))) (only parsing).

Section random.
(** The state of the generator of the [random] module, and its primitive
    [randbelow(n)], which returns a number and the next state.  Nothing is
    assumed of the number returned. *)
Context {rng : Type} (randbelow : rng → Z → rng * Z).

(** [random.shuffle(x)], as in the standard library:
    [for i in reversed(range(1, len(x))):
        j = randbelow(i + 1); x[i], x[j] = x[j], x[i]].
    The list is shuffled in place: the list returned is the list as the
    loop leaves it, also when it raises. *)
Fixpoint shuffle_loop {A} (idx : list Z) (x : list A) (s : rng)
    : rng * list A * result () :=
  match idx with
  | [] => (s, x, Ok ())
  | i :: rest =>
      let '(s', j) := randbelow s (i + 1) in
      match swap x i j with
      | Ok x' => shuffle_loop rest x' s'
      | Raise e => (s', x, Raise e)
      | OutOfFuel => (s', x, OutOfFuel)
      end
  end.

Definition shuffle {A} (x : list A) (s : rng) : rng * list A * result () :=
  shuffle_loop (reverse (seqZ 1 (Z.of_nat (length x) - 1))) x s.

(** [random.shuffle] of a list that no one else holds. *)
Definition shuffled {A} (x : list A) : stateful rng (list A) := λ s,
  match shuffle x s with
  | (s', x', Ok _) => (s', Ok x')
  | (s', _, Raise e) => (s', Raise e)
  | (s', _, OutOfFuel) => (s', OutOfFuel)
  end.

(** [random.choice(seq)]: [seq[randbelow(len(seq))]], [IndexError] on an
    empty sequence. *)
Definition choice {A} (l : list A) : stateful rng A := λ s,
  match l with
  | [] => (s, Raise IndexError)
  | _ => let '(s', j) := randbelow s (Z.of_nat (length l)) in (s', py_index l j)
  end.

(** The state of one attempt: [grid], [word_set], [placed] and
    [still_remaining]. *)
Abbreviation attempt_state :=
  (list (list N) * gset (list N) * list (list N * Z * Z * direction)
   * list (list N))%type (only parsing).

(** The body of [for word in remaining]. *)
Definition place_next (size : Z) (st : attempt_state) (word : str)
    : stateful rng attempt_state :=
  let '(g, word_set, placed, still_remaining) := st in
  if bool_decide (word ∈ word_set) then mret st
  else if bool_decide (Z.of_nat (length word) > size) then
    mret (g, word_set, placed, still_remaining ++ [word])
  else
    placements ← pure (find_all_placements g word word_set size);
    match placements with
    | [] => mret (g, word_set, placed, still_remaining ++ [word])
    | _ =>
        chosen ← choice placements;
        let '(r, c, d, new_grid) := chosen in
        mret (new_grid, word_set ∪ {[ word ]}, placed ++ [(word, r, c, d)],
              still_remaining)
    end.

(** The body of [for pass_num in range(3)]; the fourth component is
    [remaining] before the pass and after it. *)
Definition one_pass (size : Z) (st : attempt_state) (pass_num : Z)
    : stateful rng attempt_state :=
  let '(g, word_set, placed, remaining) := st in
  remaining' ← shuffled remaining;
  fold_stateful (place_next size) remaining' (g, word_set, placed, []).

(** One attempt, after the shuffle of the pool: [None] stands for the
    [continue] taken when the first word does not fit. *)
Definition attempt (pool : list str) (size : Z) : stateful rng (option puzzle) :=
  first ← pure (py_index pool 0);
  let r := size `div` 2 in
  let c := Z.max 0 ((size - Z.of_nat (length first)) `div` 2) in
  g ← pure (try_place (make_grid size) first r c horizontal size);
  match g with
  | None => mret None
  | Some g =>
      let word_set : gset (list N) := {[ first ]} in
      let placed := [(first, r, c, horizontal)] in
      let remaining := filter (λ w, w ∉ word_set) (drop 1 pool) in
      st ← fold_stateful (one_pass size) (range 3) (g, word_set, placed, remaining);
      mret (Some (st.1.1.1, st.1.2))
  end.

(** [n_words >= min_words and n_letters >= min_letters and
    check_connectivity(placed)] *)
Definition acceptable (g : grid) (placed : list placement)
    (min_words min_letters : Z) : result bool :=
  if bool_decide (Z.of_nat (length placed) >= min_words)
     && bool_decide (count_letters g >= min_letters)
  then check_connectivity placed
  else Ok false.

(** [random.shuffle(word_pool)] on the caller's list. *)
Definition shuffle_at (word_pool : positive) : stateful (store * rng) () :=
  λ '(st, s),
  match st !! word_pool with
  | None => ((st, s), Raise TypeError)
  | Some x =>
      let '(s', x', r) := shuffle x s in ((<[word_pool := x']> st, s'), r)
  end.

(** A read of the caller's list. *)
Definition read_at (l : positive) : stateful (store * rng) (list str) :=
  λ '(st, s),
  match st !! l with
  | None => ((st, s), Raise TypeError)
  | Some x => ((st, s), Ok x)
  end.

(** A computation on the generator, run where the store is in scope. *)
Definition on_rng {A} (m : stateful rng A) : stateful (store * rng) A :=
  λ '(st, s), let '(s', r) := m s in ((st, s'), r).

(** The loop [for attempt in range(max_attempts)] of [generate_puzzle], with
    [n] iterations left. *)
Fixpoint attempts (n : nat) (word_pool : positive) (size min_words min_letters : Z)
    (best : option puzzle) (best_score : Z)
    : stateful (store * rng) (option puzzle) :=
  match n with
  | O => mret best
  | S n' =>
      _ ← shuffle_at word_pool;
      pool ← read_at word_pool;
      out ← on_rng (attempt pool size);
      match out with
      | None => attempts n' word_pool size min_words min_letters best best_score
      | Some (g, placed) =>
          let n_words := Z.of_nat (length placed) in
          let n_letters := count_letters g in
          ok ← pure (acceptable g placed min_words min_letters);
          let score := n_words * 10 + n_letters in
          if ok && bool_decide (score > best_score) then
            if bool_decide (n_words >= min_words + 4) then mret (Some (g, placed))
            else attempts n' word_pool size min_words min_letters
                   (Some (g, placed)) score
          else attempts n' word_pool size min_words min_letters best best_score
      end
  end.

(** [generate_puzzle(word_pool, size, min_words, min_letters, max_attempts)] *)
Definition generate_puzzle (word_pool : positive)
    (size min_words min_letters max_attempts : Z)
    : stateful (store * rng) (option puzzle) :=
  attempts (Z.to_nat max_attempts) word_pool size min_words min_letters None 0.

(** [POOL_MAP[cfg["pool"]][:]]: a new list with the same words. *)
Definition copy_list (l : positive) : stateful (store * rng) positive :=
  λ '(st, s),
  match st !! l with
  | None => ((st, s), Raise TypeError)
  | Some x => let l' := fresh (dom st) in ((<[l' := x]> st, s), Ok l')
  end.

(** One round of the driver loop over [DAY_CONFIGS]: the search on a copy
    of the module-level pool, the second search with lower requirements
    when the first one fails, and [format_puzzle] on the result. *)
Definition generate_day (pool_src : positive)
    (size min_words min_letters attempts : Z)
    : stateful (store * rng) (option puzzle) :=
  pool ← copy_list pool_src;
  result ← generate_puzzle pool size min_words min_letters attempts;
  match result with
  | Some (g, placed) =>
      out ← pure (format_puzzle g placed size); mret (Some out)
  | None =>
      result ← generate_puzzle pool size (Z.max 3 (min_words - 3))
                  (Z.max 12 (min_letters - 10)) (attempts * 2);
      match result with
      | Some (g, placed) =>
          out ← pure (format_puzzle g placed size); mret (Some out)
      | None => mret None
      end
  end.
End random.

(** ** Runs, declaratively *)

(** A position that holds no letter: outside the grid, or the marker. *)
Definition free (x : option N) : Prop := x = None ∨ x = Some X.

(** [line_run f start s]: along the line whose [k]-th cell is [f k] ([None]
    outside the grid), the letters [s] stand from position [start] on, and
    the positions just before and just after them are free: [s] is a
    maximal sequence of letters. *)
Definition line_run (f : Z → option N) (start : Z) (s : str) : Prop :=
  s ≠ [] ∧
  (∀ (k : nat) x, s !! k = Some x → f (start + Z.of_nat k) = Some x ∧ x ≠ X) ∧
  free (f (start - 1)) ∧
  free (f (start + Z.of_nat (length s))).

(** [is_run g (s, row, col, d)]: the grid has the maximal run of letters [s]
    from ([row], [col]) in direction [d]. *)
Definition is_run (g : grid) (p : placement) : Prop :=
  let '(s, row, col, d) := p in
  s ≠ [] ∧
  (∀ (k : nat) x, s !! k = Some x →
     cell g (cell_row row d (Z.of_nat k)) (cell_col col d (Z.of_nat k)) = Some x
     ∧ x ≠ X) ∧
  free (cell g (cell_row row d (-1)) (cell_col col d (-1))) ∧
  free (cell g (cell_row row d (Z.of_nat (length s)))
               (cell_col col d (Z.of_nat (length s)))).

(** On one line, the runs are met by increasing start. *)
Definition starts_before (a b : str * Z) : Prop := a.2 < b.2.

(** [fits size word row col d]: every letter of the word maps to a cell
    inside the grid. *)
Definition fits (size : Z) (word : str) (row col : Z) (d : direction) : Prop :=
  ∀ i, 0 <= i < Z.of_nat (length word) →
       inside size (cell_row row d i) (cell_col col d i).

(** [no_conflict g word row col d]: no letter of the word goes to a cell
    that holds a different letter. *)
Definition no_conflict (g : grid) (word : str) (row col : Z) (d : direction)
    : Prop :=
  ∀ (k : nat) x old, word !! k = Some x →
    cell g (cell_row row d (Z.of_nat k)) (cell_col col d (Z.of_nat k)) = Some old →
    old = X ∨ old = x.

(** The condition under which the loop of [try_place], started at letter
    index [i], goes through. *)
Definition goes_through (g : grid) (size i : Z) (word : str) row col d : Prop :=
  ∀ (k : nat) x, word !! k = Some x →
    inside size (cell_row row d (i + Z.of_nat k)) (cell_col col d (i + Z.of_nat k)) ∧
    ∀ old, cell g (cell_row row d (i + Z.of_nat k))
                  (cell_col col d (i + Z.of_nat k)) = Some old →
           old = X ∨ old = x.

(** The grid holds a letter somewhere. *)
Definition occupied (g : grid) : Prop :=
  ∃ r c y, cell g r c = Some y ∧ y ≠ X.

(** [crosses g word row col d]: a cell of the placement already holds a
    letter. *)
Definition crosses (g : grid) (word : str) (row col : Z) (d : direction)
    : Prop :=
  ∃ (k : nat) y, (k < length word)%nat ∧
    cell g (cell_row row d (Z.of_nat k)) (cell_col col d (Z.of_nat k)) = Some y
    ∧ y ≠ X.

(** [overlay g word row col d g']: [g'] is [g] with the letters of the word
    written on the cells of the placement. *)
Definition overlay (g : grid) (word : str) (row col : Z) (d : direction)
    (g' : grid) : Prop :=
  (∀ (k : nat) x, word !! k = Some x →
     cell g' (cell_row row d (Z.of_nat k)) (cell_col col d (Z.of_nat k)) = Some x) ∧
  (∀ r c, (r, c) ∉ cells_of (word, row, col, d) → cell g' r c = cell g r c).

(** No run of two letters or more of the grid has a text outside [ws]. *)
Definition no_ghosts (g : grid) (ws : gset (list N)) : Prop :=
  ∀ p, is_run g p → 2 <= Z.of_nat (length (text p)) → text p ∈ ws.

(** [legal g word ws size (r, c, d, g')]: the placement of the word at
    ([r], [c]) in direction [d] stays in bounds, meets no different letter,
    crosses the letters already there when there are any, and [g'], the
    grid with the word written, has no run outside [ws] and the word. *)
Definition legal (g : grid) (word : str) (ws : gset (list N)) (size : Z)
    (cand : candidate) : Prop :=
  let '(r, c, d, g') := cand in
  fits size word r c d ∧
  no_conflict g word r c d ∧
  (occupied g → crosses g word r c d) ∧
  wf_grid g' size ∧ overlay g word r c d g' ∧
  no_ghosts g' (ws ∪ {[ word ]}).

(** [edge adj a b]: [b] is in the set [adj[a]]. *)
Definition edge (adj : gmap nat (gset nat)) (a b : nat) : Prop :=
  ∃ s, adj !! a = Some s ∧ b ∈ s.

(** [meet cells a b]: the [a]-th and the [b]-th set of [cells] intersect. *)
Definition meet (cells : list (gset (Z * Z))) (a b : nat) : Prop :=
  ∃ ca cb, cells !! a = Some ca ∧ cells !! b = Some cb ∧ ca ∩ cb ≠ ∅.

(** [adj_holds cells seen adj]: [adj] has a set for every index of [cells],
    and [b] is in [adj[a]] exactly when the sets of [a] and [b] intersect
    and the loops have seen the pair. *)
Definition adj_holds (cells : list (gset (Z * Z))) (seen : nat → nat → Prop)
    (adj : gmap nat (gset nat)) : Prop :=
  ∀ a, (a < length cells)%nat →
    ∃ s, adj !! a = Some s ∧
         ∀ b, b ∈ s ↔ meet cells a b ∧ (seen a b ∨ seen b a).

(** [overlaps placed i j]: the [i]-th and the [j]-th placement share a
    cell. *)
Definition overlaps (placed : list placement) (i j : nat) : Prop :=
  ∃ p q x, placed !! i = Some p ∧ placed !! j = Some q ∧
           x ∈ cells_of p ∧ x ∈ cells_of q.

(** Every placement is reachable from the first one through placements that
    share cells. *)
Definition connected (placed : list placement) : Prop :=
  ∀ i, (i < length placed)%nat → rtc (overlaps placed) 0%nat i.

(** What an attempt keeps true of its grid, its word set and its list of
    placed words (the fourth component is the list of the words left):
    the grid has [size] rows of [size] cells, the word set holds the texts
    of the placed words, and, once a second word is placed, no run of two
    letters or more has a text outside the word set. *)
Definition search_inv (size : Z)
    (st : list (list N) * gset (list N) * list (list N * Z * Z * direction)
          * list (list N)) : Prop :=
  let '(g, ws, placed, _) := st in
  wf_grid g size ∧
  (∀ t, t ∈ ws ↔ t ∈ text <$> placed) ∧
  ((2 ≤ length placed)%nat → no_ghosts g ws).

(** The order in which the scan meets the runs: the horizontal ones before
    the vertical ones; the horizontal ones by row, then by column; the
    vertical ones by column, then by row. *)
Definition scan_before (p q : placement) : Prop :=
  let '(_, r1, c1, d1) := p in
  let '(_, r2, c2, d2) := q in
  match d1, d2 with
  | horizontal, vertical => True
  | vertical, horizontal => False
  | horizontal, horizontal => r1 < r2 ∨ (r1 = r2 ∧ c1 < c2)
  | vertical, vertical => c1 < c2 ∨ (c1 = c2 ∧ r1 < r2)
  end.

(** ** Sample data *)

(** A store with one 2x2 grid at location 3, whose second row starts with
    [A]. *)
Definition store_2x2 : gmap positive obj :=
  {[ 1%positive := ORow [X; X];
     2%positive := ORow [chr "A"; X];
     3%positive := OGrid [1%positive; 2%positive] ]}.

(** The 7x7 grid with [MAL] on row 3 from column 2. *)
Definition grid_mal : list (list N) :=
  replicate 3 (replicate 7 X)
  ++ [[X; X] ++ lit "MAL" ++ [X; X]]
  ++ replicate 3 (replicate 7 X).

(** A 4x4 grid with the run [ABC] on rows 0 and 2. *)
Definition grid_abc : list (list N) :=
  [ lit "ABCX"; lit "XXXX"; lit "ABCX"; lit "XXXX" ].

(** The word [NXËNË] of [WORDS_5]. *)
Definition NXENE : list N :=
  lit "NX" ++ [E_diaeresis] ++ lit "N" ++ [E_diaeresis].

(** A generator that replays the numbers of a list. *)
Definition replay (s : list Z) (n : Z) : list Z * Z :=
  match s with
  | [] => ([], 0)
  | j :: s' => (s', j)
  end.

(** A pool of four words, in a list at location 1, and the numbers drawn
    in a search that places the four of them on a 5x5 grid. *)
Definition pool_ab : list (list N) := [lit "AB"; lit "ABA"; lit "BA"; lit "BAC"].

Definition store_ab : gmap positive (list (list N)) := {[ 1%positive := pool_ab ]}.

Definition draws_ab : list Z := [3; 2; 1; 2; 1; 3; 1; 0].

(** The grid of that search:
[[
    X X X X X
    X X X X X
    X A B X X
    X B A C X
    X A X X X
]] *)
Definition grid_ab : list (list N) :=
  [ lit "XXXXX"; lit "XXXXX"; lit "XABXX"; lit "XBACX"; lit "XAXXX" ].

Definition placed_ab : list (list N * Z * Z * direction) :=
  [ (lit "AB", 2, 1, horizontal); (lit "ABA", 2, 1, vertical);
    (lit "BA", 3, 1, horizontal); (lit "BAC", 3, 1, horizontal) ].

(** ** The search, declaratively *)

(** What an attempt keeps true of the words it has placed, for the pool
    [pool] it draws from (the fourth component is the list of the words
    left): the grid is the one that [try_place] builds from the empty grid
    when the placed words are placed in their order; the first placed word
    lies horizontally on the middle row; no two placed words have the same
    text; every placed word is a word of the pool, at a row and a column
    that are not negative; the words left are words of the pool. *)
Definition placed_inv (size : Z) (pool : list (list N))
    (st : list (list N) * gset (list N) * list (list N * Z * Z * direction)
          * list (list N)) : Prop :=
  let '(g, _, placed, rest) := st in
  successive size (make_grid size) placed g ∧
  (∃ first others,
     placed = (first, size `div` 2,
               Z.max 0 ((size - Z.of_nat (length first)) `div` 2), horizontal)
              :: others) ∧
  NoDup (text <$> placed) ∧
  Forall (λ p, text p ∈ pool ∧ 0 <= p.1.1.2 ∧ 0 <= p.1.2) placed ∧
  Forall (λ w, w ∈ pool) rest.

(** [randbelow(n)] returns a number of [range(n)], as the generator of the
    [random] module does for [n > 0]. *)
Definition randbelow_in_range {rng : Type} (randbelow : rng → Z → rng * Z) : Prop :=
  ∀ s n, 0 < n → 0 <= (randbelow s n).2 < n.

(** [shuffled_each_attempt randbelow size k pool s pool' s']: [k] attempts
    in a row, each of which starts with [random.shuffle] of the list as the
    attempt before it left it and then runs on the shuffled list, take the
    list from [pool] to [pool'] and the generator from [s] to [s']. *)
Inductive shuffled_each_attempt {rng : Type} (randbelow : rng → Z → rng * Z)
    (size : Z) : nat → list (list N) → rng → list (list N) → rng → Prop :=
  | no_attempt pool s : shuffled_each_attempt randbelow size 0 pool s pool s
  | one_more_attempt k pool s s1 x1 s2 out pool' s' :
      shuffle randbelow pool s = (s1, x1, Ok ()) →
      attempt randbelow x1 size s1 = (s2, Ok out) →
      shuffled_each_attempt randbelow size k x1 s2 pool' s' →
      shuffled_each_attempt randbelow size (S k) pool s pool' s'.

(** A generator that always draws 0. *)
Definition draw_zero (s : unit) (n : Z) : unit * Z := (s, 0).

(** A plan of two entries: [MAL] on row 3, [AJO] down column 3 from its
    letter [A]. *)
Definition plan_mal : list (list N * Z * Z * direction) :=
  [ (lit "MAL", 3, 2, horizontal); (lit "AJO", 3, 3, vertical) ].

(** * Properties *)

(** ** Python list access *)

Lemma py_index_nonneg {A} (l : list A) (i : Z) :
  0 <= i < Z.of_nat (length l) →
  ∃ a, l !! Z.to_nat i = Some a ∧ py_index l i = Ok a.
Proof.
  intros Hi. unfold py_index.
  rewrite (bool_decide_eq_false_2 (i < 0)) by lia.
  rewrite bool_decide_eq_false_2 by lia.
  destruct (lookup_lt_is_Some_2 l (Z.to_nat i)) as [a Ha]; [lia|].
  exists a. by rewrite Ha.
Qed.

Lemma py_setitem_nonneg {A} (l : list A) (i : Z) (a : A) :
  0 <= i < Z.of_nat (length l) →
  py_setitem l i a = Ok (<[Z.to_nat i := a]> l).
Proof.
  intros Hi. unfold py_setitem.
  rewrite (bool_decide_eq_false_2 (i < 0)) by lia.
  by rewrite bool_decide_eq_false_2 by lia.
Qed.

Lemma py_setitem_length {A} (l l' : list A) (i : Z) (a : A) :
  py_setitem l i a = Ok l' → length l' = length l.
Proof.
  unfold py_setitem. case_bool_decide; [done|].
  intros [= <-]. apply length_insert.
Qed.

Lemma py_index_elem_of {A} (l : list A) (i : Z) (a : A) :
  py_index l i = Ok a → a ∈ l.
Proof.
  unfold py_index. case_bool_decide; [done|].
  destruct (l !! _) eqn:E; [|done]. intros [= <-].
  by eapply list_elem_of_lookup_2.
Qed.

(** ** Placement: bounds *)

Lemma cell_row_nonneg row d i : 0 <= row → 0 <= i → 0 <= cell_row row d i.
Proof. unfold cell_row. destruct d; lia. Qed.

Lemma cell_col_nonneg col d i : 0 <= col → 0 <= i → 0 <= cell_col col d i.
Proof. unfold cell_col. destruct d; lia. Qed.

Lemma wf_grid_row (g : grid) (size r : Z) :
  wf_grid g size → 0 <= r < size →
  ∃ gr, g !! Z.to_nat r = Some gr ∧ py_index g r = Ok gr
        ∧ Z.of_nat (length gr) = size.
Proof.
  intros [Hlen Hrows] Hr.
  destruct (py_index_nonneg g r) as (gr & Hl & Hi); [lia|].
  exists gr. split_and!; [done..|].
  eapply (proj1 (Forall_forall _ _) Hrows). by eapply list_elem_of_lookup_2.
Qed.

(** One iteration of the loop of [try_place] on a well-formed grid, at a
    cell inside the grid: no exception, and either a conflict or the write. *)
Lemma try_place_from_step (g : grid) i ch rest row col d size :
  wf_grid g size →
  0 <= cell_row row d i < size → 0 <= cell_col col d i < size →
  ∃ gr old,
    g !! Z.to_nat (cell_row row d i) = Some gr ∧
    gr !! Z.to_nat (cell_col col d i) = Some old ∧
    try_place_from g i (ch :: rest) row col d size =
      if bool_decide (old ≠ X) && bool_decide (old ≠ ch) then Ok None
      else try_place_from
             (<[Z.to_nat (cell_row row d i) :=
                  <[Z.to_nat (cell_col col d i) := ch]> gr]> g)
             (i + 1) rest row col d size.
Proof.
  intros Hwf Hr Hc.
  destruct (wf_grid_row g size _ Hwf Hr) as (gr & Hgr & Hig & Hlen).
  destruct (py_index_nonneg gr (cell_col col d i)) as (old & Hold & Hio); [lia|].
  exists gr, old. split_and!; [done..|].
  cbn [try_place_from].
  rewrite (bool_decide_eq_false_2 (cell_row row d i >= size)) by lia.
  rewrite (bool_decide_eq_false_2 (cell_col col d i >= size)) by lia.
  cbn [orb]. rewrite Hig. cbn. rewrite Hio. cbn.
  destruct (bool_decide (old ≠ X) && bool_decide (old ≠ ch)); [done|].
  rewrite py_setitem_nonneg by lia. cbn.
  destruct Hwf as [Hl _].
  rewrite py_setitem_nonneg by lia. done.
Qed.

Lemma wf_grid_insert (g : grid) (gr : list N) (r c : nat) (ch : N) size :
  wf_grid g size → g !! r = Some gr →
  wf_grid (<[r := <[c := ch]> gr]> g) size.
Proof.
  intros [Hlen Hrows] Hgr. split.
  - by rewrite length_insert.
  - apply Forall_insert; [done|]. rewrite length_insert.
    eapply (proj1 (Forall_forall _ _) Hrows). by eapply list_elem_of_lookup_2.
Qed.

Lemma try_place_from_overrun (word : str) : ∀ (g : grid) i row col d size,
  wf_grid g size → 0 <= row → 0 <= col → 0 <= i →
  (∃ k, 0 <= k < Z.of_nat (length word) ∧
        (cell_row row d (i + k) >= size ∨ cell_col col d (i + k) >= size)) →
  try_place_from g i word row col d size = Ok None.
Proof.
  induction word as [|ch rest IH]; intros g i row col d size Hwf Hrow Hcol Hi (k & Hk & Hout).
  { cbn in Hk. lia. }
  destruct (decide (cell_row row d i >= size ∨ cell_col col d i >= size)) as [Hnow|Hin].
  { cbn [try_place_from].
    destruct Hnow.
    - by rewrite (bool_decide_eq_true_2 (cell_row row d i >= size)).
    - rewrite (bool_decide_eq_true_2 (cell_col col d i >= size)) by done.
      by rewrite orb_true_r. }
  pose proof (cell_row_nonneg row d i Hrow Hi).
  pose proof (cell_col_nonneg col d i Hcol Hi).
  destruct (try_place_from_step g i ch rest row col d size Hwf)
    as (gr & old & Hgr & Hold & ->); [lia..|].
  destruct (bool_decide (old ≠ X) && bool_decide (old ≠ ch)); [done|].
  apply IH; [by eapply wf_grid_insert|lia..|].
  exists (k - 1). cbn [length] in Hk.
  assert (k ≠ 0).
  { intros ->. rewrite Z.add_0_r in Hout. tauto. }
  split; [lia|]. by replace (i + 1 + (k - 1)) with (i + k) by lia.
Qed.

Lemma wf_make_grid size : 0 <= size → wf_grid (make_grid size) size.
Proof.
  intros Hs. unfold make_grid, range. split.
  - rewrite length_fmap, length_seqZ. lia.
  - apply Forall_fmap, Forall_forall. intros x _. cbn.
    rewrite length_replicate. lia.
Qed.

(** The bounds test of [try_place] covers the overruns: on a grid of side
    [size >= 1], for a word of length [> 0] anchored at a row and a column
    that are not negative, if some letter index maps to a cell outside
    [0, size) then the placement is rejected (returns [None]). *)
Lemma try_place_rejects_overrun (g : grid) (word : str) row col d size :
  1 <= size → wf_grid g size → word ≠ [] →
  0 <= row → 0 <= col →
  (∃ k, 0 <= k < Z.of_nat (length word)
        ∧ ¬ inside size (cell_row row d k) (cell_col col d k)) →
  try_place g word row col d size = Ok None.
Proof.
  intros _ Hwf _ Hrow Hcol (k & Hk & Hout).
  apply try_place_from_overrun; [done|lia..|].
  exists k. split; [done|]. rewrite Z.add_0_l.
  pose proof (cell_row_nonneg row d k Hrow ltac:(lia)).
  pose proof (cell_col_nonneg col d k Hcol ltac:(lia)).
  unfold inside in Hout. lia.
Qed.

Lemma try_place_rejects_overrun_example :
  try_place (make_grid 7) (lit "MAL") 3 5 horizontal 7 = Ok None.
Proof.
  apply try_place_rejects_overrun; [lia|apply wf_make_grid; lia|done|lia|lia|].
  exists 2. split; [change (0 <= 2 < 3); lia|].
  change (¬ inside 7 3 7). unfold inside. lia.
Qed.

(** C6 at the failing input: on the empty 7x7 grid the word [AB] anchored
    at row [-1], column 0, horizontally, has both its letters outside the
    grid; the only test is [r >= size or c >= size], the placement is
    accepted and Python's indexing writes the word into the last row. With
    row [-8] the call raises [IndexError], which is no rejection either. *)
Theorem try_place_accepts_negative_row :
  (∀ k, 0 <= k < Z.of_nat (length (lit "AB")) →
        ¬ inside 7 (cell_row (-1) horizontal k) (cell_col 0 horizontal k)) ∧
  try_place (make_grid 7) (lit "AB") (-1) 0 horizontal 7
  = Ok (Some (replicate 6 (replicate 7 X) ++ [lit "AB" ++ replicate 5 X])) ∧
  try_place (make_grid 7) (lit "AB") (-8) 0 horizontal 7 = Raise IndexError.
Proof.
  split_and!.
  - intros k _. unfold inside, cell_row. lia.
  - vm_compute. reflexivity.
  - vm_compute. reflexivity.
Qed.

(** Hence the rejection does not hold of every anchor: the row index [-1]
    is not rejected. *)
Lemma try_place_negative_anchor_accepted :
  ¬ (∀ (g : grid) (word : str) row col d size,
       1 <= size → wf_grid g size → word ≠ [] →
       (∃ k, 0 <= k < Z.of_nat (length word)
             ∧ ¬ inside size (cell_row row d k) (cell_col col d k)) →
       try_place g word row col d size = Ok None).
Proof.
  intros H.
  specialize (H (make_grid 7) (lit "AB") (-1) 0 horizontal 7).
  assert (try_place (make_grid 7) (lit "AB") (-1) 0 horizontal 7
          = Ok (Some (replicate 6 (replicate 7 X)
                        ++ [lit "AB" ++ replicate 5 X]))) as Hrun
    by (vm_compute; reflexivity).
  rewrite Hrun in H. discriminate H.
  - lia.
  - apply wf_make_grid. lia.
  - done.
  - exists 0. split; [change (0 <= 0 < 2); lia|].
    change (¬ inside 7 (-1) 0). unfold inside. lia.
Qed.

(** ** Placement: letters already on the grid *)

Lemma py_index_inv {A} (l : list A) (i : Z) (a : A) :
  py_index l i = Ok a →
  ∃ j : nat, l !! j = Some a ∧ ∀ b, py_setitem l i b = Ok (<[j := b]> l).
Proof.
  unfold py_index, py_setitem. case_bool_decide; [done|].
  destruct (l !! _) eqn:E; [|done]. intros [= <-]. eauto.
Qed.

(** A successful run of the loop of [try_place] starts with a write of [ch]
    over the marker or over [ch] itself. *)
Lemma try_place_from_inv (g g' : grid) i ch rest row col d size :
  try_place_from g i (ch :: rest) row col d size = Ok (Some g') →
  ∃ (jr jc : nat) gr old,
    g !! jr = Some gr ∧ gr !! jc = Some old ∧ (old = X ∨ old = ch) ∧
    try_place_from (<[jr := <[jc := ch]> gr]> g) (i + 1) rest row col d size
      = Ok (Some g').
Proof.
  cbn [try_place_from].
  destruct (bool_decide _ || bool_decide _); [done|].
  destruct (py_index g _) as [gr| |] eqn:Hgr; [|done..]. cbn.
  destruct (py_index gr _) as [old| |] eqn:Hold; [|done..]. cbn.
  destruct (py_index_inv _ _ _ Hgr) as (jr & Hjr & Hsr).
  destruct (py_index_inv _ _ _ Hold) as (jc & Hjc & Hsc).
  destruct (bool_decide (old ≠ X)) eqn:HX; cbn [andb].
  - destruct (bool_decide (old ≠ ch)) eqn:Hch; [done|].
    apply bool_decide_eq_false in Hch.
    rewrite Hsc. cbn. rewrite Hsr. cbn. intros Hrest.
    exists jr, jc, gr, old. split_and!; [done..| |done].
    right. by destruct (decide (old = ch)).
  - apply bool_decide_eq_false in HX.
    rewrite Hsc. cbn. rewrite Hsr. cbn. intros Hrest.
    exists jr, jc, gr, old. split_and!; [done..| |done].
    left. by destruct (decide (old = X)).
Qed.

Lemma cell_insert_keeps (g : grid) (jr jc : nat) gr old ch r c v :
  g !! jr = Some gr → gr !! jc = Some old → old = X ∨ old = ch →
  cell g r c = Some v → v ≠ X →
  cell (<[jr := <[jc := ch]> gr]> g) r c = Some v.
Proof.
  intros Hjr Hjc Hold. unfold cell. case_bool_decide; [|done].
  destruct (g !! Z.to_nat r) as [gr0|] eqn:Hr0; [|done]. cbn.
  intros Hv Hne.
  destruct (decide (Z.to_nat r = jr)) as [<-|Hr].
  - rewrite list_lookup_insert_eq by (by eapply lookup_lt_Some). cbn.
    assert (gr0 = gr) as -> by congruence.
    destruct (decide (Z.to_nat c = jc)) as [<-|Hc].
    + rewrite list_lookup_insert_eq by (by eapply lookup_lt_Some).
      assert (old = v) as -> by congruence.
      destruct Hold; congruence.
    + by rewrite list_lookup_insert_ne.
  - rewrite list_lookup_insert_ne by done. by rewrite Hr0.
Qed.

(** No successful placement erases or changes a cell that holds a letter
    other than the marker. *)
Lemma try_place_from_keeps (word : str) : ∀ (g g' : grid) i row col d size r c v,
  try_place_from g i word row col d size = Ok (Some g') →
  cell g r c = Some v → v ≠ X → cell g' r c = Some v.
Proof.
  induction word as [|ch rest IH]; intros g g' i row col d size r c v Hrun Hv Hne.
  { cbn in Hrun. by simplify_eq. }
  apply try_place_from_inv in Hrun
    as (jr & jc & gr & old & Hjr & Hjc & Hold & Hrest).
  eapply IH; [exact Hrest| |done].
  by eapply cell_insert_keeps.
Qed.

Lemma try_place_keeps (g g' : grid) (word : str) row col d size r c v :
  try_place g word row col d size = Ok (Some g') →
  cell g r c = Some v → v ≠ X → cell g' r c = Some v.
Proof. apply try_place_from_keeps. Qed.

Lemma successive_keeps size (g g' : grid) ps r c v :
  successive size g ps g' → cell g r c = Some v → v ≠ X →
  cell g' r c = Some v.
Proof.
  induction 1 as [|g g1 g2 word row col d ps Hplace _ IH]; [done|].
  intros Hv Hne. apply IH; [|done]. by eapply try_place_keeps.
Qed.

(** C7 at the failing input: the pool word [NXËNË] placed on the empty 7x7
    grid leaves its second letter, [X], in cell (3, 2); the next placement,
    [MAL] downwards from (2, 2), is accepted and that cell then holds [A]. *)
Theorem try_place_overwrites_letter_X :
  ∃ g1 g2 : grid,
    try_place (make_grid 7) NXENE 3 1 horizontal 7 = Ok (Some g1) ∧
    NXENE !! 1%nat = Some (chr "X") ∧
    cell g1 3 2 = Some (chr "X") ∧
    try_place g1 (lit "MAL") 2 2 vertical 7 = Ok (Some g2) ∧
    cell g2 3 2 = Some (chr "A").
Proof.
  eexists _, _. split; [vm_compute; reflexivity|].
  split; [reflexivity|]. split; [reflexivity|].
  split; [vm_compute; reflexivity|reflexivity].
Qed.

(** ** Placement on the store: the caller's grid *)

Lemma hm_bind_inv {A B} (m : hm A) (f : A → hm B) (h h' : heap) (r : result B) :
  (m ≫= f) h = (h', r) →
  (∃ a h1, m h = (h1, Ok a) ∧ f a h1 = (h', r))
  ∨ (∃ a, m h = (h', a) ∧ (∀ v, a ≠ Ok v) ∧ (∀ v, r ≠ Ok v)).
Proof.
  unfold mbind, stateful_bind. destruct (m h) as [h1 [a|e|]]; intros Heq.
  - left. eauto.
  - right. exists (Raise e). by simplify_eq.
  - right. exists OutOfFuel. by simplify_eq.
Qed.

Lemma alloc_fresh (o : obj) (h h' : heap) (r : result loc) :
  alloc o h = (h', r) →
  ∃ l, r = Ok l ∧ h !! l = None ∧ h' = <[l := o]> h.
Proof.
  unfold alloc. intros [= <- <-]. eexists. split_and!; [done| |done].
  apply not_elem_of_dom, is_fresh.
Qed.

Lemma read_row_inv (l : loc) (h h' : heap) r :
  read_row l h = (h', r) →
  h' = h ∧ ∀ cells, r = Ok cells → h !! l = Some (ORow cells).
Proof.
  unfold read_row. destruct (h !! l) as [[cells|rows]|]; intros [= <- <-];
    split; try done; by intros ? [= <-].
Qed.

Lemma read_grid_inv (l : loc) (h h' : heap) r :
  read_grid l h = (h', r) →
  h' = h ∧ ∀ rows, r = Ok rows → h !! l = Some (OGrid rows).
Proof.
  unfold read_grid. destruct (h !! l) as [[cells|rows]|]; intros [= <- <-];
    split; try done; by intros ? [= <-].
Qed.

(** [copy_rows] only allocates: the store it leaves extends the one it
    found, and the rows it returns are new. *)
Lemma copy_rows_fresh (rows : list loc) : ∀ (h h' : heap) r,
  copy_rows rows h = (h', r) →
  h ⊆ h' ∧ ∀ rows', r = Ok rows' → Forall (λ rl, h !! rl = None) rows'.
Proof.
  induction rows as [|rl rest IH]; intros h h' r; cbn [copy_rows].
  { intros [= <- <-]. split; [done|]. by intros ? [= <-]. }
  intros Hrun.
  apply hm_bind_inv in Hrun as [(cells & h1 & Hread & Hrun)|(a & Hread & _ & Hbad)];
    apply read_row_inv in Hread as [-> Hcells];
    [|split; [done|]; intros rs ->; by destruct (Hbad rs)].
  apply hm_bind_inv in Hrun as [(rl' & h2 & Halloc & Hrun)|(a & Halloc & Hbad & _)];
    apply alloc_fresh in Halloc as (l & Hl & Hnone & ->);
    [|by destruct (Hbad l)].
  simplify_eq.
  assert (h ⊆ <[l := ORow cells]> h) as Hsub by by apply insert_subseteq.
  apply hm_bind_inv in Hrun as [(rest' & h3 & Hrest & Hrun)|(a & Hrest & _ & Hbad)];
    apply IH in Hrest as [Hsub' Hfresh].
  - cbv [mret stateful_ret] in Hrun. simplify_eq. split; [by etrans|].
    intros ? [= <-]. constructor; [done|].
    eapply Forall_impl; [by apply Hfresh|]. cbn. intros x Hx.
    destruct (h !! x) eqn:E; [|done].
    eapply lookup_weaken in E; [|exact Hsub]. congruence.
  - split; [by etrans|]. intros rs ->. by destruct (Hbad rs).
Qed.

Lemma copy_grid_fresh (g : loc) (h h' : heap) r :
  copy_grid g h = (h', r) →
  h ⊆ h' ∧ ∀ g', r = Ok g' →
    ∃ rows', h' !! g' = Some (OGrid rows') ∧ Forall (λ rl, h !! rl = None) rows'.
Proof.
  unfold copy_grid. intros Hrun.
  apply hm_bind_inv in Hrun as [(rows & h1 & Hread & Hrun)|(a & Hread & _ & Hbad)];
    apply read_grid_inv in Hread as [-> Hrows];
    [|split; [done|]; intros rs ->; by destruct (Hbad rs)].
  apply hm_bind_inv in Hrun as [(rows' & h2 & Hcopy & Hrun)|(a & Hcopy & _ & Hbad)];
    apply copy_rows_fresh in Hcopy as [Hsub Hfresh];
    [|split; [done|]; intros rs ->; by destruct (Hbad rs)].
  apply alloc_fresh in Hrun as (l & -> & Hnone & ->). split.
  - etrans; [exact Hsub|]. by apply insert_subseteq.
  - intros ? [= <-]. exists rows'. split; [by rewrite lookup_insert_eq|by apply Hfresh].
Qed.

Lemma lift_inv {A} (x : result A) (h h' : heap) r :
  lift x h = (h', r) → h' = h ∧ x = r.
Proof. unfold lift, pure. by intros [= <- <-]. Qed.

(** The loop writes to the rows of the working copy only. *)
Lemma try_place_loop_frame (word : str) :
  ∀ (h0 h h' : heap) (g : loc) rows i row col d size r,
  h0 ⊆ h → h !! g = Some (OGrid rows) → Forall (λ rl, h0 !! rl = None) rows →
  try_place_loop g i word row col d size h = (h', r) →
  h0 ⊆ h'.
Proof.
  induction word as [|ch rest IH]; intros h0 h h' g rows i row col d size r Hsub Hg Hrows;
    cbn [try_place_loop].
  { by intros [= <- <-]. }
  destruct (bool_decide _ || bool_decide _); [by intros [= <- <-]|].
  intros Hrun.
  apply hm_bind_inv in Hrun as [(rows0 & h1 & Hread & Hrun)|(a & Hread & _)];
    apply read_grid_inv in Hread as [-> Hrows0]; [|done].
  specialize (Hrows0 _ eq_refl). assert (rows0 = rows) as -> by congruence.
  apply hm_bind_inv in Hrun as [(rl & h2 & Hidx & Hrun)|(a & Hidx & _)];
    apply lift_inv in Hidx as [-> Hidx]; [|done].
  apply hm_bind_inv in Hrun as [(cells & h3 & Hread & Hrun)|(a & Hread & _)];
    apply read_row_inv in Hread as [-> Hcells]; [|done].
  specialize (Hcells _ eq_refl).
  apply hm_bind_inv in Hrun as [(old & h4 & Hold & Hrun)|(a & Hold & _)];
    apply lift_inv in Hold as [-> Hold]; [|done].
  destruct (bool_decide _ && bool_decide _); [by inversion Hrun; subst|].
  apply hm_bind_inv in Hrun as [(cells' & h5 & Hset & Hrun)|(a & Hset & _)];
    apply lift_inv in Hset as [-> Hset]; [|done].
  apply hm_bind_inv in Hrun as [(u & h6 & Hwrite & Hrun)|(a & Hwrite & Hbad & _)];
    unfold write_row in Hwrite; simplify_eq; [|by destruct (Hbad ())].
  assert (rl ∈ rows) as Hin by by eapply py_index_elem_of.
  assert (h0 !! rl = None) as Hnew
    by (by eapply (proj1 (Forall_forall _ _) Hrows)).
  eapply IH; [| |exact Hrows|exact Hrun].
  - by apply insert_subseteq_r.
  - rewrite lookup_insert_ne; [done|]. intros ->. congruence.
Qed.

Lemma try_place_obj_frame (h h' : heap) (g : loc) word row col d size r :
  try_place_obj g word row col d size h = (h', r) → h ⊆ h'.
Proof.
  unfold try_place_obj. intros Hrun.
  apply hm_bind_inv in Hrun as [(g' & h1 & Hcopy & Hrun)|(a & Hcopy & _)];
    apply copy_grid_fresh in Hcopy as [Hsub Hfresh]; [|done].
  destruct (Hfresh _ eq_refl) as (rows' & Hg' & Hrows').
  by eapply try_place_loop_frame.
Qed.

Lemma rows_at_weaken (h h' : heap) rows gv :
  h ⊆ h' → rows_at h rows = Some gv → rows_at h' rows = Some gv.
Proof.
  intros Hsub. revert gv. induction rows as [|rl rest IH]; intros gv; [done|].
  cbn [rows_at]. destruct (h !! rl) as [[cells|]|] eqn:Hrl; [|done..].
  rewrite (lookup_weaken _ _ _ _ Hrl Hsub).
  destruct (rows_at h rest) as [gv'|]; [|done].
  by rewrite (IH _ eq_refl).
Qed.

Lemma grid_at_weaken (h h' : heap) g gv :
  h ⊆ h' → grid_at h g = Some gv → grid_at h' g = Some gv.
Proof.
  intros Hsub. unfold grid_at.
  destruct (h !! g) as [[|rows]|] eqn:Hg; [done| |done].
  rewrite (lookup_weaken _ _ _ _ Hg Hsub). by apply rows_at_weaken.
Qed.

(** C5: when [try_place] rejects a placement (returns [None], for a cell
    out of bounds or a letter conflict), every object the store held before
    the call is unchanged after it; in particular the caller's grid has the
    contents it had. *)
Theorem rejected_placement_leaves_grid (h h' : heap) (g : loc)
    (word : str) row col d size :
  try_place_obj g word row col d size h = (h', Ok None) →
  (∀ l o, h !! l = Some o → h' !! l = Some o)
  ∧ (∀ gv, grid_at h g = Some gv → grid_at h' g = Some gv).
Proof.
  intros Hrun.
  pose proof (try_place_obj_frame _ _ _ _ _ _ _ _ _ Hrun) as Hsub.
  split.
  - intros l o Hl. by eapply lookup_weaken.
  - intros gv Hgv. by eapply grid_at_weaken.
Qed.

(** The same for [place_word] of [build_puzzles.py]. *)
Lemma rejected_place_word_leaves_grid (h h' : heap) (g : loc)
    (word : str) row col d :
  place_word_obj g word row col d h = (h', Ok None) →
  (∀ l o, h !! l = Some o → h' !! l = Some o)
  ∧ (∀ gv, grid_at h g = Some gv → grid_at h' g = Some gv).
Proof.
  intros Hrun.
  pose proof (try_place_obj_frame h h' g word row col d GRID_SIZE _ Hrun) as Hsub.
  split; [intros l o Hl; by eapply lookup_weaken|].
  intros gv Hgv. by eapply grid_at_weaken.
Qed.

Lemma rejected_placement_leaves_grid_witness :
  grid_at (try_place_obj 3%positive (lit "B") 1 0 horizontal 2 store_2x2).1
          3%positive
  = Some [[X; X]; [chr "A"; X]].
Proof.
  refine (proj2 (rejected_placement_leaves_grid store_2x2 _ 3%positive
                   (lit "B") 1 0 horizontal 2 _) _ _).
  - assert ((try_place_obj 3%positive (lit "B") 1 0 horizontal 2 store_2x2).2
            = Ok None) as Hr by (vm_compute; reflexivity).
    rewrite <- Hr. apply surjective_pairing.
  - vm_compute. reflexivity.
Defined.

(** ** Placement on the store and placement on grid values *)

Lemma rows_at_Forall2 (h : gmap positive obj) rows (gv : list (list N)) :
  rows_at h rows = Some gv ↔
  Forall2 (λ rl cells, h !! rl = Some (ORow cells)) rows gv.
Proof.
  revert gv. induction rows as [|rl rows IH]; intros gv; cbn [rows_at].
  { split; [by intros [= <-]|by intros ->%Forall2_nil_inv_l]. }
  split.
  - destruct (h !! rl) as [[cells|]|] eqn:Hrl; [|done..].
    destruct (rows_at h rows) as [gv'|]; [|done]. intros [= <-].
    constructor; [done|]. by apply IH.
  - intros (cells & gv' & Hrl & Hrest & ->)%Forall2_cons_inv_l.
    rewrite Hrl. apply IH in Hrest. by rewrite Hrest.
Qed.

Lemma py_index_Forall2 {A B} (P : A → B → Prop) (l : list A) (k : list B) i :
  Forall2 P l k →
  match py_index l i with
  | Ok a => ∃ (j : nat) b, l !! j = Some a ∧ k !! j = Some b ∧ P a b ∧
                           py_index k i = Ok b ∧
                           ∀ x, py_setitem k i x = Ok (<[j := x]> k)
  | Raise e => py_index k i = Raise e
  | OutOfFuel => False
  end.
Proof.
  intros Hlk. unfold py_index, py_setitem. rewrite <- (Forall2_length _ _ _ Hlk).
  case_bool_decide; [done|].
  destruct (l !! _) as [a|] eqn:Ha.
  - destruct (Forall2_lookup_l _ _ _ _ _ Hlk Ha) as (b & Hb & Hab).
    eexists _, b. rewrite Hb. by split_and!.
  - apply lookup_ge_None in Ha.
    rewrite (proj2 (lookup_ge_None k _)); [done|].
    by rewrite <- (Forall2_length _ _ _ Hlk).
Qed.

(** The loop on the working copy does what the loop on the value of the
    grid does, as long as no row of the copy is shared. *)
Lemma try_place_loop_refines (word : str) :
  ∀ (h : gmap positive obj) (g : positive) rows (gv : list (list N)) i row col d size,
  h !! g = Some (OGrid rows) → NoDup rows → rows_at h rows = Some gv →
  ∃ h',
    try_place_loop g i word row col d size h
    = (h', res ← try_place_from gv i word row col d size;
           Ok (match res with Some _ => Some g | None => None end)) ∧
    ∀ gv', try_place_from gv i word row col d size = Ok (Some gv') →
           grid_at h' g = Some gv'.
Proof.
  induction word as [|ch rest IH]; intros h g rows gv i row col d size Hg Hnd Hgv;
    cbn [try_place_from try_place_loop].
  { exists h. split; [done|]. intros gv' [= <-]. unfold grid_at. by rewrite Hg. }
  destruct (bool_decide _ || bool_decide _); [by exists h|].
  cbv [mbind stateful_bind read_grid lift pure read_row write_row]. rewrite Hg.
  apply rows_at_Forall2 in Hgv.
  pose proof (py_index_Forall2 _ rows gv (cell_row row d i) Hgv) as Hrow.
  destruct (py_index rows (cell_row row d i)) as [rl| |];
    [|rewrite Hrow; by exists h|done].
  destruct Hrow as (j & gr & Hrl & Hgr & Hh & -> & Hset).
  cbn [result_bind]. rewrite Hh.
  destruct (py_index gr (cell_col col d i)) as [old| |] eqn:Hold;
    cbn [result_bind]; [|by exists h..].
  destruct (bool_decide (old ≠ X) && bool_decide (old ≠ ch)); [by exists h|].
  destruct (py_index_inv _ _ _ Hold) as (jc & _ & Hsetc). rewrite Hsetc.
  cbn [result_bind]. rewrite Hset. cbn [result_bind].
  apply (IH (<[rl := ORow (<[jc := ch]> gr)]> h) g rows).
  - rewrite lookup_insert_ne; [done|]. intros ->. congruence.
  - done.
  - apply rows_at_Forall2, Forall2_same_length_lookup. split.
    + rewrite length_insert. by eapply Forall2_length.
    + intros k rl' cells Hk Hcells.
      destruct (decide (k = j)) as [->|Hne].
      * rewrite list_lookup_insert_eq in Hcells by (by eapply lookup_lt_Some).
        assert (rl' = rl) as -> by congruence. injection Hcells as <-.
        by rewrite lookup_insert_eq.
      * rewrite list_lookup_insert_ne in Hcells by done.
        rewrite lookup_insert_ne.
        -- exact (Forall2_lookup_lr _ _ _ _ _ _ Hgv Hk Hcells).
        -- intros <-. apply Hne. by eapply NoDup_lookup.
Qed.

Lemma copy_rows_refines (rows : list positive) :
  ∀ (h : gmap positive obj) (gv : list (list N)),
  rows_at h rows = Some gv →
  ∃ h' rows',
    copy_rows rows h = (h', Ok rows') ∧ h ⊆ h' ∧
    rows_at h' rows' = Some gv ∧ NoDup rows' ∧
    Forall (λ rl, h !! rl = None) rows'.
Proof.
  induction rows as [|rl rows IH]; intros h gv; cbn [rows_at copy_rows].
  { intros [= <-]. exists h, []. split_and!; [done..|constructor|constructor]. }
  destruct (h !! rl) as [[cells|]|] eqn:Hrl; [|done..].
  destruct (rows_at h rows) as [gv'|] eqn:Hrows; [|done]. intros [= <-].
  unfold mbind, stateful_bind, read_row, alloc. rewrite Hrl.
  set (rl' := fresh (dom h)).
  assert (h !! rl' = None) as Hfresh by apply not_elem_of_dom, is_fresh.
  assert (h ⊆ <[rl' := ORow cells]> h) as Hsub by by apply insert_subseteq.
  destruct (IH (<[rl' := ORow cells]> h) gv') as (h' & rows' & -> & Hsub' & Hgv' & Hnd & Hnew).
  { by eapply rows_at_weaken. }
  exists h', (rl' :: rows'). split_and!.
  - done.
  - by etrans.
  - cbn [rows_at].
    rewrite (lookup_weaken _ _ rl' (ORow cells) (lookup_insert_eq _ _ _) Hsub').
    by rewrite Hgv'.
  - constructor; [|done]. intros Hin.
    apply (proj1 (Forall_forall _ _) Hnew) in Hin. by rewrite lookup_insert_eq in Hin.
  - constructor; [done|]. eapply Forall_impl; [exact Hnew|]. cbn. intros x Hx.
    destruct (h !! x) eqn:E; [|done].
    eapply lookup_weaken in E; [|exact Hsub]. congruence.
Qed.

(** [try_place] on the store and [try_place] on the contents of the grid
    agree: the same rejection or exception, or a new grid object that holds
    the grid value returned. *)
Lemma try_place_obj_refines (h : gmap positive obj) (g : positive)
    (gv : list (list N)) (word : str) row col d size :
  grid_at h g = Some gv →
  ∃ h' g',
    try_place_obj g word row col d size h
    = (h', res ← try_place gv word row col d size;
           Ok (match res with Some _ => Some g' | None => None end)) ∧
    ∀ gv', try_place gv word row col d size = Ok (Some gv') →
           grid_at h' g' = Some gv'.
Proof.
  unfold grid_at. destruct (h !! g) as [[|rows]|] eqn:Hg; [done| |done]. intros Hgv.
  destruct (copy_rows_refines rows h gv Hgv)
    as (h1 & rows' & Hcopy & Hsub & Hgv1 & Hnd & Hnew).
  unfold try_place_obj, copy_grid, mbind at 1 2 3, stateful_bind, read_grid, alloc.
  rewrite Hg, Hcopy. set (g' := fresh (dom h1)).
  assert (h1 !! g' = None) as Hfresh by apply not_elem_of_dom, is_fresh.
  destruct (try_place_loop_refines word (<[g' := OGrid rows']> h1) g' rows' gv
              0 row col d size) as (h' & Hrun & Hgrid).
  - by rewrite lookup_insert_eq.
  - done.
  - eapply rows_at_weaken; [|done]. by apply insert_subseteq.
  - by exists h', g'.
Qed.

(** ** The scanner on one line *)

Section line.
Context (f : Z → option N) (get : Z → result N) (size : Z).
Hypothesis get_inside : ∀ k, 0 <= k < size → ∃ x, f k = Some x ∧ get k = Ok x.
Hypothesis f_outside : ∀ k, ¬ (0 <= k < size) → f k = None.

Lemma scan_run_spec (fuel : nat) : ∀ c s,
  0 <= c <= size → (Z.to_nat (size - c) < fuel)%nat →
  ∃ c' blk,
    scan_run fuel get size c s = Ok (c', s ++ blk) ∧
    c <= c' <= size ∧ Z.of_nat (length blk) = c' - c ∧
    (∀ (k : nat) x, blk !! k = Some x → f (c + Z.of_nat k) = Some x ∧ x ≠ X) ∧
    free (f c').
Proof.
  induction fuel as [|fuel IH]; intros c s Hc Hfuel; [lia|].
  cbn [scan_run]. case_bool_decide as Hlt.
  - destruct (get_inside c) as (x & Hfx & ->); [lia|]. cbn.
    case_bool_decide as Hx.
    + destruct (IH (c + 1) (s ++ [x])) as (c' & blk & -> & Hc' & Hlen & Hblk & Hend);
        [lia..|].
      exists c', (x :: blk). rewrite <- app_assoc. split_and!; [done|lia|lia| | |done].
      * cbn [length]. lia.
      * intros [|k] y; cbn.
        -- intros [= <-]. by rewrite Z.add_0_r.
        -- intros Hy. destruct (Hblk k y Hy) as [Hf Hne]. split; [|done].
           rewrite <- Hf. f_equal. lia.
    + exists c, []. rewrite app_nil_r. split_and!; [done|cbn; lia..| |].
      * by intros k y.
      * right. rewrite Hfx. f_equal. by destruct (decide (x = X)).
  - exists c, []. rewrite app_nil_r. split_and!; [done|cbn; lia..| |].
    + by intros k y.
    + left. apply f_outside. lia.
Qed.

(** A block of letters from [c] on that ends at a free position is the
    only run that can start at [c]. *)
Lemma line_run_unique c (blk s : str) :
  (∀ (k : nat) x, blk !! k = Some x → f (c + Z.of_nat k) = Some x ∧ x ≠ X) →
  free (f (c + Z.of_nat (length blk))) →
  line_run f c s → s = blk.
Proof.
  intros Hblk Hend (Hne & Hs & _ & Hsend).
  assert (length s = length blk) as Hlen.
  { destruct (Nat.lt_trichotomy (length s) (length blk)) as [Hlt|[?|Hlt]]; [|done|].
    - destruct (lookup_lt_is_Some_2 blk (length s) Hlt) as [x Hx].
      destruct (Hblk _ _ Hx) as [Hf Hxne].
      destruct Hsend as [Hn|Hn]; rewrite Hf in Hn; congruence.
    - destruct (lookup_lt_is_Some_2 s (length blk) Hlt) as [x Hx].
      destruct (Hs _ _ Hx) as [Hf Hxne].
      destruct Hend as [Hn|Hn]; rewrite Hf in Hn; congruence. }
  apply list_eq_same_length with (length s); [done..|].
  intros k x y Hk Hx Hy.
  destruct (Hs _ _ Hx) as [Hf _]. destruct (Hblk _ _ Hy) as [Hf' _]. congruence.
Qed.

Lemma line_run_start st s : line_run f st s → ∃ x, f st = Some x ∧ x ≠ X.
Proof.
  intros (Hne & Hs & _). destruct s as [|x s]; [done|].
  exists x. specialize (Hs 0%nat x eq_refl). by rewrite Z.add_0_r in Hs.
Qed.

Lemma line_run_inside st s : line_run f st s → 0 <= st < size.
Proof.
  intros (x & Hx & _)%line_run_start.
  destruct (decide (0 <= st < size)) as [|Hout]; [done|].
  rewrite f_outside in Hx; done.
Qed.

Lemma scan_line_spec (fuel : nat) : ∀ c runs,
  0 <= c <= size → (Z.to_nat (size - c) < fuel)%nat →
  (∀ x, f c = Some x → x ≠ X → free (f (c - 1))) →
  ∃ R,
    scan_line fuel get size c runs = Ok (runs ++ R) ∧
    (∀ s st, (s, st) ∈ R ↔
               c <= st ∧ line_run f st s ∧ 2 <= Z.of_nat (length s)) ∧
    StronglySorted starts_before R.
Proof.
  induction fuel as [|fuel IH]; intros c runs Hc Hfuel Hleft; [lia|].
  cbn [scan_line]. case_bool_decide as Hlt; cycle 1.
  { exists []. rewrite app_nil_r. split_and!; [done| |constructor].
    intros s st. rewrite elem_of_nil. split; [done|].
    intros (Hst & Hrun%line_run_inside & _). lia. }
  destruct (get_inside c) as (x & Hfx & ->); [lia|]. cbn [mbind result_bind].
  case_bool_decide as Hx; cycle 1.
  { assert (x = X) as -> by by destruct (decide (x = X)).
    destruct (IH (c + 1) runs) as (R & -> & HR & Hsorted); [lia..| |].
    { intros y Hy Hyne. right. by replace (c + 1 - 1) with c by lia. }
    exists R. split_and!; [done| |done].
    intros s st. rewrite HR. split; intros (Hst & Hrun & Hlong).
    - split_and!; [lia|done..].
    - split_and!; [|done..].
      destruct (decide (st = c)) as [->|]; [|lia].
      apply line_run_start in Hrun as (y & Hy & Hyne). congruence. }
  destruct (scan_run_spec (loop_bound size) c []) as
    (c' & blk & -> & Hc' & Hlen & Hblk & Hend); [lia|unfold loop_bound; lia|].
  cbn [app mbind result_bind].
  assert (c < c') as Hadv.
  { destruct (decide (c = c')) as [<-|]; [|lia].
    destruct Hend as [Hn|Hn]; rewrite Hfx in Hn; congruence. }
  assert (line_run f c blk) as Hrun_blk.
  { split_and!.
    - intros ->. cbn in Hlen. lia.
    - done.
    - by eapply Hleft.
    - by replace (c + Z.of_nat (length blk)) with c' by lia. }
  set (runs' := if bool_decide (2 <= Z.of_nat (length blk))
                then runs ++ [(blk, c)] else runs).
  destruct (IH c' runs') as (R & -> & HR & Hsorted); [lia..| |].
  { intros y Hy Hyne. destruct Hend as [Hn|Hn]; rewrite Hy in Hn; congruence. }
  assert (∀ s st, c <= st → line_run f st s → st = c ∧ s = blk ∨ c' <= st) as Hcases.
  { intros s st Hst Hrun.
    destruct (decide (st = c)) as [->|Hne].
    { left. split; [done|]. eapply line_run_unique; [exact Hblk| |done].
      by replace (c + Z.of_nat (length blk)) with c' by lia. }
    destruct (decide (c' <= st)) as [|Hin]; [by right|]. exfalso.
    destruct Hrun as (_ & _ & Hbefore & _).
    destruct (lookup_lt_is_Some_2 blk (Z.to_nat (st - 1 - c))) as [y Hy]; [lia|].
    destruct (Hblk _ _ Hy) as [Hf Hyne].
    replace (c + Z.of_nat (Z.to_nat (st - 1 - c))) with (st - 1) in Hf by lia.
    destruct Hbefore as [Hn|Hn]; rewrite Hf in Hn; congruence. }
  subst runs'. case_bool_decide as Hlong.
  - exists ((blk, c) :: R). split_and!.
    + by rewrite <- app_assoc.
    + intros s st. rewrite elem_of_cons, HR. split.
      * intros [[= -> ->]|(Hst & Hrun & Hl)]; split_and!; first [done|lia].
      * intros (Hst & Hrun & Hl).
        destruct (Hcases s st Hst Hrun) as [[-> ->]|Hge]; [by left|by right].
    + constructor; [done|]. apply Forall_forall. intros [s st] Hin.
      apply HR in Hin as (Hst & _). unfold starts_before. cbn. lia.
  - exists R. split_and!; [done| |done].
    intros s st. rewrite HR. split.
    + intros (Hst & Hrun & Hl). split_and!; [lia|done..].
    + intros (Hst & Hrun & Hl).
      destruct (Hcases s st Hst Hrun) as [[-> ->]|Hge]; [done|done].
Qed.

(** The scan of a whole line returns its maximal runs of two letters or
    more, each once, from left to right. *)
Lemma scan_line_runs :
  0 <= size →
  ∃ R,
    scan_line (loop_bound size) get size 0 [] = Ok R ∧
    (∀ s st, (s, st) ∈ R ↔ line_run f st s ∧ 2 <= Z.of_nat (length s)) ∧
    StronglySorted starts_before R.
Proof.
  intros Hsize.
  destruct (scan_line_spec (loop_bound size) 0 []) as (R & HR & Hmem & Hsorted).
  - lia.
  - unfold loop_bound. lia.
  - intros x _ _. left. apply f_outside. lia.
  - exists R. split_and!; [done| |done].
    intros s st. rewrite Hmem. split; [tauto|].
    intros [Hrun Hl]. split_and!; [|done..].
    apply line_run_inside in Hrun. lia.
Qed.
End line.

(** ** The scanner on a grid *)

Lemma wf_cell_inside (g : grid) size r c :
  wf_grid g size → 0 <= r < size → 0 <= c < size →
  ∃ x, cell g r c = Some x ∧ grid_get g r c = Ok x.
Proof.
  intros Hwf Hr Hc.
  destruct (wf_grid_row g size r Hwf Hr) as (gr & Hgr & Hig & Hlen).
  destruct (py_index_nonneg gr c) as (x & Hx & Hix); [lia|].
  exists x. unfold cell, grid_get.
  rewrite bool_decide_eq_true_2 by lia. rewrite Hgr, Hig. by cbn.
Qed.

Lemma wf_cell_outside (g : grid) size r c :
  wf_grid g size → ¬ inside size r c → cell g r c = None.
Proof.
  intros [Hlen Hrows] Hout. unfold cell. case_bool_decide as Hnn; [|done].
  destruct (g !! Z.to_nat r) as [gr|] eqn:Hgr; [|done]. cbn.
  apply lookup_ge_None.
  assert (Z.of_nat (length gr) = size) as Hl.
  { eapply (proj1 (Forall_forall _ _) Hrows). by eapply list_elem_of_lookup_2. }
  apply lookup_lt_Some in Hgr. unfold inside in Hout. lia.
Qed.

Lemma is_run_horizontal (g : grid) s row col :
  is_run g (s, row, col, horizontal) ↔ line_run (λ k, cell g row k) col s.
Proof.
  unfold is_run, line_run, cell_row, cell_col. cbn.
  rewrite !Z.add_0_r. by replace (col + -1) with (col - 1) by lia.
Qed.

Lemma is_run_vertical (g : grid) s row col :
  is_run g (s, row, col, vertical) ↔ line_run (λ k, cell g k col) row s.
Proof.
  unfold is_run, line_run, cell_row, cell_col. cbn.
  rewrite !Z.add_0_r. by replace (row + -1) with (row - 1) by lia.
Qed.

Lemma scan_before_sorted_fmap (R : list (str * Z)) (mk : str * Z → placement) :
  (∀ a b, starts_before a b → scan_before (mk a) (mk b)) →
  StronglySorted starts_before R → StronglySorted scan_before (mk <$> R).
Proof.
  intros Hmk. induction 1 as [|a R Hs IH Hall]; cbn; constructor; [done|].
  apply Forall_fmap. eapply Forall_impl; [exact Hall|]. intros b. apply Hmk.
Qed.

Section grid_scan.
Context (g : grid) (size : Z).
Hypothesis wf : wf_grid g size.

Lemma scan_rows_from (n : nat) : ∀ lo runs,
  0 <= lo → lo + Z.of_nat n = size →
  ∃ R,
    for_each (seqZ lo (Z.of_nat n)) (λ r runs,
      found ← scan_line (loop_bound size) (λ c, grid_get g r c) size 0 [];
      Ok (runs ++ ((λ '(s, start), (s, r, start, horizontal)) <$> found)))
      runs = Ok (runs ++ R) ∧
    (∀ s r c d, (s, r, c, d) ∈ R ↔
       d = horizontal ∧ lo <= r ∧ is_run g (s, r, c, d)
       ∧ 2 <= Z.of_nat (length s)) ∧
    StronglySorted scan_before R.
Proof.
  induction n as [|n IH]; intros lo runs Hlo Hn.
  { exists []. rewrite app_nil_r. split_and!; [done| |constructor].
    intros s r c d. rewrite elem_of_nil. split; [done|].
    intros (-> & Hr & Hrun & _). apply is_run_horizontal in Hrun.
    apply line_run_start in Hrun as (x & Hx & _).
    rewrite (wf_cell_outside g size) in Hx; [done..|]. unfold inside. lia. }
  rewrite seqZ_cons by lia. cbn [for_each].
  destruct (scan_line_runs (λ k, cell g lo k) (λ c, grid_get g lo c) size)
    as (found & -> & Hfound & Hsorted).
  { intros k Hk. apply (wf_cell_inside g size); [done|lia..]. }
  { intros k Hk. eapply wf_cell_outside; [done|]. unfold inside. lia. }
  { lia. }
  cbn [mbind result_bind].
  replace (Z.pred (Z.of_nat (S n))) with (Z.of_nat n) by lia.
  destruct (IH (Z.succ lo)
              (runs ++ ((λ '(s, start), (s, lo, start, horizontal)) <$> found)))
    as (R & -> & HR & HRsorted); [lia..|].
  exists (((λ '(s, start), (s, lo, start, horizontal)) <$> found) ++ R).
  split_and!.
  - by rewrite <- app_assoc.
  - intros s r c d. rewrite elem_of_app, list_elem_of_fmap, HR. split.
    + intros [([s' st] & [= -> -> -> ->] & Hin)|(-> & Hr & Hrun & Hl)].
      * apply Hfound in Hin as [Hrun Hl].
        split_and!; [done|lia| |done]. by apply is_run_horizontal.
      * split_and!; [done|lia|done..].
    + intros (-> & Hr & Hrun & Hl).
      destruct (decide (r = lo)) as [->|Hne].
      * left. exists (s, c). split; [done|].
        apply Hfound. split; [|done]. by apply is_run_horizontal.
      * right. split_and!; [done|lia|done..].
  - apply StronglySorted_app_2.
    + intros [[[s1 r1] c1] d1] [[[s2 r2] c2] d2].
      intros ([s' st] & [= -> -> -> ->] & _)%list_elem_of_fmap.
      intros (-> & Hr & _)%HR. cbn. lia.
    + apply scan_before_sorted_fmap; [|done].
      intros [s1 st1] [s2 st2]. unfold starts_before. cbn. lia.
    + done.
Qed.

Lemma scan_cols_from (n : nat) : ∀ lo runs,
  0 <= lo → lo + Z.of_nat n = size →
  ∃ R,
    for_each (seqZ lo (Z.of_nat n)) (λ c runs,
      found ← scan_line (loop_bound size) (λ r, grid_get g r c) size 0 [];
      Ok (runs ++ ((λ '(s, start), (s, start, c, vertical)) <$> found)))
      runs = Ok (runs ++ R) ∧
    (∀ s r c d, (s, r, c, d) ∈ R ↔
       d = vertical ∧ lo <= c ∧ is_run g (s, r, c, d)
       ∧ 2 <= Z.of_nat (length s)) ∧
    StronglySorted scan_before R.
Proof.
  induction n as [|n IH]; intros lo runs Hlo Hn.
  { exists []. rewrite app_nil_r. split_and!; [done| |constructor].
    intros s r c d. rewrite elem_of_nil. split; [done|].
    intros (-> & Hr & Hrun & _). apply is_run_vertical in Hrun.
    apply line_run_start in Hrun as (x & Hx & _).
    rewrite (wf_cell_outside g size) in Hx; [done..|]. unfold inside. lia. }
  rewrite seqZ_cons by lia. cbn [for_each].
  destruct (scan_line_runs (λ k, cell g k lo) (λ r, grid_get g r lo) size)
    as (found & -> & Hfound & Hsorted).
  { intros k Hk. apply (wf_cell_inside g size); [done|lia..]. }
  { intros k Hk. eapply wf_cell_outside; [done|]. unfold inside. lia. }
  { lia. }
  cbn [mbind result_bind].
  replace (Z.pred (Z.of_nat (S n))) with (Z.of_nat n) by lia.
  destruct (IH (Z.succ lo)
              (runs ++ ((λ '(s, start), (s, start, lo, vertical)) <$> found)))
    as (R & -> & HR & HRsorted); [lia..|].
  exists (((λ '(s, start), (s, start, lo, vertical)) <$> found) ++ R).
  split_and!.
  - by rewrite <- app_assoc.
  - intros s r c d. rewrite elem_of_app, list_elem_of_fmap, HR. split.
    + intros [([s' st] & [= -> -> -> ->] & Hin)|(-> & Hr & Hrun & Hl)].
      * apply Hfound in Hin as [Hrun Hl].
        split_and!; [done|lia| |done]. by apply is_run_vertical.
      * split_and!; [done|lia|done..].
    + intros (-> & Hr & Hrun & Hl).
      destruct (decide (c = lo)) as [->|Hne].
      * left. exists (s, r). split; [done|].
        apply Hfound. split; [|done]. by apply is_run_vertical.
      * right. split_and!; [done|lia|done..].
  - apply StronglySorted_app_2.
    + intros [[[s1 r1] c1] d1] [[[s2 r2] c2] d2].
      intros ([s' st] & [= -> -> -> ->] & _)%list_elem_of_fmap.
      intros (-> & Hr & _)%HR. cbn. lia.
    + apply scan_before_sorted_fmap; [|done].
      intros [s1 st1] [s2 st2]. unfold starts_before. cbn. lia.
    + done.
Qed.

(** The scan returns the maximal runs of two letters or more of the grid,
    in scan order. *)
Lemma scan_spec :
  ∃ R,
    scan g size = Ok R ∧
    (∀ p, p ∈ R ↔ is_run g p ∧ 2 <= Z.of_nat (length (text p))) ∧
    StronglySorted scan_before R.
Proof.
  assert (0 <= size) as Hsize by (destruct wf; lia).
  unfold scan, scan_rows, scan_cols, range.
  destruct (scan_rows_from (Z.to_nat size) 0 []) as (Rh & Hh & HRh & Hsh); [lia..|].
  rewrite Z2Nat.id in Hh by done. rewrite Hh. cbn [mbind result_bind app].
  destruct (scan_cols_from (Z.to_nat size) 0 Rh) as (Rv & Hv & HRv & Hsv); [lia..|].
  rewrite Z2Nat.id in Hv by done. rewrite Hv.
  exists (Rh ++ Rv). split_and!; [done| |].
  - intros [[[s r] c] d]. rewrite elem_of_app, HRh, HRv. cbn. split.
    + intros [(_ & _ & ? & ?)|(_ & _ & ? & ?)]; done.
    + intros [Hrun Hl].
      assert (0 <= r ∧ 0 <= c) as [? ?].
      { destruct d.
        - apply is_run_horizontal in Hrun.
          apply line_run_start in Hrun as (x & Hx & _).
          unfold cell in Hx. case_bool_decide; [lia|done].
        - apply is_run_vertical in Hrun.
          apply line_run_start in Hrun as (x & Hx & _).
          unfold cell in Hx. case_bool_decide; [lia|done]. }
      destruct d; [left|right]; done.
  - apply StronglySorted_app_2; [|done..].
    intros [[[s1 r1] c1] d1] [[[s2 r2] c2] d2].
    intros (-> & _)%HRh (-> & _)%HRv. done.
Qed.
End grid_scan.

(** ** Ghost runs *)

Lemma first_ghost_spec (ws : gset (list N)) (R : list placement) :
  (first_ghost (text <$> R) ws = (true, None) ∧ ∀ p, p ∈ R → text p ∈ ws)
  ∨ (∃ R1 p R2, R = R1 ++ p :: R2 ∧ (∀ q, q ∈ R1 → text q ∈ ws) ∧
       (text p ∉ ws) ∧ first_ghost (text <$> R) ws = (false, Some (text p))).
Proof.
  induction R as [|p R IH]; cbn [fmap list_fmap first_ghost].
  { left. split; [done|]. by intros p Hp%elem_of_nil. }
  case_bool_decide as Hp.
  - right. exists [], p, R. split_and!; [done| |done..].
    by intros q Hq%elem_of_nil.
  - assert (text p ∈ ws) as Hin by (by destruct (decide (text p ∈ ws))).
    destruct IH as [[-> Hall]|(R1 & q & R2 & -> & Hall & Hq & ->)].
    + left. split; [done|]. intros q [->|Hq]%elem_of_cons; auto.
    + right. exists (p :: R1), q, R2. split_and!; [done| |done..].
      intros q' [->|Hq']%elem_of_cons; auto.
Qed.

(** C8: on a 7x7 grid [check_no_ghosts] returns a result; it accepts if and
    only if the text of every maximal run of two letters or more is a member
    of [word_set]; when it rejects, the run it returns is a ghost, and the
    first one in scan order: every other ghost comes after it, the
    horizontal runs row by row before the vertical ones column by column. *)
Theorem check_no_ghosts_first_ghost (g : grid) (ws : gset (list N)) :
  wf_grid g GRID_SIZE →
  ∃ ok ghost,
    check_no_ghosts g ws = Ok (ok, ghost) ∧
    (ok = true ↔
       ∀ p, is_run g p → 2 <= Z.of_nat (length (text p)) → text p ∈ ws) ∧
    (ok = true → ghost = None) ∧
    (ok = false →
       ∃ p, ghost = Some (text p) ∧
            is_run g p ∧ 2 <= Z.of_nat (length (text p)) ∧ (text p ∉ ws) ∧
            ∀ q, is_run g q → 2 <= Z.of_nat (length (text q)) →
                 text q ∉ ws → q = p ∨ scan_before p q).
Proof.
  intros Hwf.
  destruct (scan_spec g GRID_SIZE Hwf) as (R & HR & Hmem & Hsorted).
  unfold check_no_ghosts, find_all_runs_7, find_all_runs.
  rewrite HR. cbn [mbind result_bind].
  destruct (first_ghost_spec ws R) as [[-> Hall]|(R1 & p & R2 & -> & Hall & Hp & ->)].
  - exists true, None. split_and!; [done| |done..].
    split; [|done]. intros _ p Hrun Hl. apply Hall, Hmem. done.
  - assert (is_run g p ∧ 2 <= Z.of_nat (length (text p))) as [Hrun Hl].
    { apply Hmem. apply elem_of_app. right. by left. }
    exists false, (Some (text p)). split_and!; [done| |done|].
    + split; [done|]. intros Hall'. by destruct Hp; apply Hall'.
    + intros _. exists p. split_and!; [done..|].
      intros q Hq Hql Hqg.
      assert (q ∈ R1 ++ p :: R2) as [Hin|[->|Hin]%elem_of_cons]%elem_of_app
        by by apply Hmem.
      * by destruct Hqg; apply Hall.
      * by left.
      * right. apply StronglySorted_app_1_r in Hsorted.
        apply StronglySorted_cons in Hsorted as [Hfirst _].
        by eapply (proj1 (Forall_forall _ _) Hfirst).
Qed.

Lemma wf_grid_mal : wf_grid grid_mal 7.
Proof. split; [reflexivity|]. repeat constructor. Qed.

Lemma check_no_ghosts_first_ghost_witness :
  ∃ ok ghost,
    check_no_ghosts grid_mal {[ lit "MAL" ]} = Ok (ok, ghost) ∧
    (ok = true ↔
       ∀ p, is_run grid_mal p → 2 <= Z.of_nat (length (text p)) →
            text p ∈ ({[ lit "MAL" ]} : gset (list N))) ∧
    (ok = true → ghost = None) ∧
    (ok = false →
       ∃ p, ghost = Some (text p) ∧
            is_run grid_mal p ∧ 2 <= Z.of_nat (length (text p)) ∧
            (text p ∉ ({[ lit "MAL" ]} : gset (list N))) ∧
            ∀ q, is_run grid_mal q → 2 <= Z.of_nat (length (text q)) →
                 text q ∉ ({[ lit "MAL" ]} : gset (list N)) →
                 q = p ∨ scan_before p q).
Proof. exact (check_no_ghosts_first_ghost grid_mal _ wf_grid_mal). Defined.

(** ** Cleaning the placed words *)

Lemma clean_loop_spec (actual : gset placement) (placed : list placement) :
  ∀ (clean : list placement) (used : gset placement),
  (∀ p, p ∈ used ↔ p ∈ clean) → NoDup clean →
  ∃ kept,
    clean_loop actual placed clean used = clean ++ kept ∧
    kept `sublist_of` placed ∧
    NoDup (clean ++ kept) ∧
    (∀ p, p ∈ clean ++ kept ↔ p ∈ clean ∨ (p ∈ placed ∧ p ∈ actual)).
Proof.
  induction placed as [|key rest IH]; intros clean used Hused Hnodup; cbn [clean_loop].
  { exists []. rewrite app_nil_r. split_and!; [done..|].
    intros p. rewrite elem_of_nil. tauto. }
  destruct (bool_decide (key ∈ actual)) eqn:Hact; cbn [andb];
    [destruct (bool_decide (key ∉ used)) eqn:Hnew|].
  - apply bool_decide_eq_true in Hact, Hnew.
    destruct (IH (clean ++ [key]) (used ∪ {[key]})) as (kept & -> & Hsub & Hnd & Hmem).
    { intros p. rewrite elem_of_union, elem_of_singleton, elem_of_app,
        list_elem_of_singleton, Hused. done. }
    { apply NoDup_app. split_and!; [done| |apply NoDup_singleton].
      intros p Hp ->%list_elem_of_singleton. by apply Hnew, Hused. }
    exists (key :: kept). rewrite <- app_assoc in *. cbn [app] in *.
    split_and!; [done|by apply sublist_skip|done|].
    intros p. rewrite Hmem, elem_of_app, list_elem_of_singleton, elem_of_cons.
    intuition (subst; first [done|tauto|auto]).
  - apply bool_decide_eq_true in Hact. apply bool_decide_eq_false in Hnew.
    assert (key ∈ clean) as Hin.
    { apply Hused. by destruct (decide (key ∈ used)). }
    destruct (IH clean used Hused Hnodup) as (kept & -> & Hsub & Hnd & Hmem).
    exists kept. split_and!; [done|by apply sublist_cons|done|].
    intros p. rewrite Hmem, elem_of_cons. intuition (subst; first [done|tauto|auto]).
  - apply bool_decide_eq_false in Hact.
    destruct (IH clean used Hused Hnodup) as (kept & -> & Hsub & Hnd & Hmem).
    exists kept. split_and!; [done|by apply sublist_cons|done|].
    intros p. rewrite Hmem, elem_of_cons. intuition (subst; first [done|tauto|auto]).
Qed.

(** What [clean_placed_words] returns on a well-formed grid. *)
Lemma clean_placed_words_spec (g : grid) (placed : list placement) size :
  wf_grid g size →
  ∃ clean,
    clean_placed_words g placed size = Ok clean ∧
    (∀ p, p ∈ clean ↔
            p ∈ placed ∧ is_run g p ∧ 2 <= Z.of_nat (length (text p))) ∧
    NoDup clean ∧ clean `sublist_of` placed.
Proof.
  intros Hwf.
  destruct (scan_spec g size Hwf) as (R & HR & Hmem & _).
  unfold clean_placed_words, actual_runs. rewrite HR. cbn [mbind result_bind].
  destruct (clean_loop_spec (list_to_set R) placed [] ∅)
    as (kept & -> & Hsub & Hnd & Hkept).
  { intros p. by rewrite elem_of_nil, elem_of_empty. }
  { constructor. }
  cbn [app] in *. exists kept. split_and!; [done| |done..].
  intros p. rewrite Hkept, elem_of_nil, elem_of_list_to_set, Hmem. tauto.
Qed.

(** Every word [format_puzzle] lists is a maximal run of the grid, at the
    position and in the direction recorded. *)
Lemma format_puzzle_words_are_runs (g g' : grid) (placed words : list placement) size :
  wf_grid g size → format_puzzle g placed size = Ok (g', words) →
  g' = g ∧ ∀ w, w ∈ words → w ∈ placed ∧ is_run g w.
Proof.
  intros Hwf. unfold format_puzzle.
  destruct (clean_placed_words_spec g placed size Hwf) as (clean & -> & Hmem & _).
  cbn [mbind result_bind]. intros [= <- <-]. split; [done|].
  intros w (Hin & Hrun & _)%Hmem. done.
Qed.

Lemma elem_of_cells_of (s : str) row col d r c :
  (r, c) ∈ cells_of (s, row, col, d) ↔
  ∃ i, 0 <= i < Z.of_nat (length s) ∧ r = cell_row row d i ∧ c = cell_col col d i.
Proof.
  unfold cells_of, range. rewrite list_elem_of_fmap. split.
  - intros (i & [= -> ->] & Hi%elem_of_seqZ). exists i. split; [lia|done].
  - intros (i & Hi & -> & ->). exists i. split; [done|]. apply elem_of_seqZ. lia.
Qed.

(** Two maximal runs of one line that overlap are the same run. *)
Lemma line_run_overlap (f : Z → option N) a b (sa sb : str) :
  line_run f a sa → line_run f b sb → b <= a < b + Z.of_nat (length sb) →
  a = b ∧ sa = sb.
Proof.
  intros Ha Hb Hab.
  assert (a = b) as ->.
  { destruct (decide (a = b)) as [|Hne]; [done|]. exfalso.
    destruct Ha as (_ & _ & Hbefore & _). destruct Hb as (_ & Hsb & _).
    destruct (lookup_lt_is_Some_2 sb (Z.to_nat (a - 1 - b))) as [x Hx]; [lia|].
    destruct (Hsb _ _ Hx) as [Hf Hxne].
    replace (b + Z.of_nat (Z.to_nat (a - 1 - b))) with (a - 1) in Hf by lia.
    destruct Hbefore as [Hn|Hn]; rewrite Hf in Hn; congruence. }
  split; [done|].
  destruct Hb as (_ & Hsb & _ & Hend).
  by eapply line_run_unique.
Qed.

(** A run whose first cell lies on another run is that run. *)
Lemma is_run_overlap (g : grid) (p q : placement) :
  is_run g p → 2 <= Z.of_nat (length (text p)) → is_run g q →
  cells_of p ⊆ cells_of q → p = q.
Proof.
  destruct p as [[[sa ra] ca] da], q as [[[sb rb] cb] db]. cbn [text fst].
  intros Hp Hlen Hq Hsub.
  assert ((cell_row ra da 0, cell_col ca da 0) ∈ cells_of (sb, rb, cb, db)) as H0.
  { apply Hsub, elem_of_cells_of. exists 0. split; [lia|done]. }
  assert ((cell_row ra da 1, cell_col ca da 1) ∈ cells_of (sb, rb, cb, db)) as H1.
  { apply Hsub, elem_of_cells_of. exists 1. split; [lia|done]. }
  apply elem_of_cells_of in H0 as (i & Hi & Hr0 & Hc0).
  apply elem_of_cells_of in H1 as (j & Hj & Hr1 & Hc1).
  unfold cell_row, cell_col in *.
  destruct da, db; try lia.
  - assert (ra = rb) as -> by lia.
    apply is_run_horizontal in Hp, Hq.
    destruct (line_run_overlap _ ca cb sa sb Hp Hq) as [-> ->]; [lia|done].
  - assert (ca = cb) as -> by lia.
    apply is_run_vertical in Hp, Hq.
    destruct (line_run_overlap _ ra rb sa sb Hp Hq) as [-> ->]; [lia|done].
Qed.

(** C4, as amended: on a well-formed grid [clean_placed_words] returns, in
    the order of [placed] and each once, exactly the placed tuples that are
    a maximal run of two letters or more of the grid. In particular, when
    the recorded cells of a word A are a strict subset of those of such a
    run R, and R itself is among the placed tuples, the output lists R and
    does not list A. *)
Theorem clean_placed_words_keeps_runs (g : grid) (placed : list placement) size :
  wf_grid g size →
  ∃ clean,
    clean_placed_words g placed size = Ok clean ∧
    (∀ p, p ∈ clean ↔
            p ∈ placed ∧ is_run g p ∧ 2 <= Z.of_nat (length (text p))) ∧
    NoDup clean ∧ clean `sublist_of` placed ∧
    (∀ A R, is_run g R → 2 <= Z.of_nat (length (text R)) →
            cells_of A ⊂ cells_of R → R ∈ placed →
            R ∈ clean ∧ A ∉ clean).
Proof.
  intros Hwf.
  destruct (clean_placed_words_spec g placed size Hwf)
    as (clean & Hrun & Hmem & Hnd & Hsub).
  exists clean. split_and!; [done..|].
  intros A R HR HRlen [Hsubset Hstrict] HRin. split.
  - by apply Hmem.
  - intros (_ & HA & HAlen)%Hmem.
    apply Hstrict. by rewrite (is_run_overlap g A R).
Qed.

Lemma wf_grid_abc : wf_grid grid_abc 4.
Proof. split; [reflexivity|]. repeat constructor. Qed.

Lemma clean_placed_words_keeps_runs_witness :
  ∃ clean,
    clean_placed_words grid_abc
      [(lit "AB", 0, 0, horizontal); (lit "ABC", 0, 0, horizontal)] 4 = Ok clean ∧
    (∀ p, p ∈ clean ↔
            p ∈ [(lit "AB", 0, 0, horizontal); (lit "ABC", 0, 0, horizontal)]
            ∧ is_run grid_abc p ∧ 2 <= Z.of_nat (length (text p))) ∧
    NoDup clean ∧
    clean `sublist_of` [(lit "AB", 0, 0, horizontal); (lit "ABC", 0, 0, horizontal)] ∧
    (∀ A R, is_run grid_abc R → 2 <= Z.of_nat (length (text R)) →
            cells_of A ⊂ cells_of R →
            R ∈ [(lit "AB", 0, 0, horizontal); (lit "ABC", 0, 0, horizontal)] →
            R ∈ clean ∧ A ∉ clean).
Proof. exact (clean_placed_words_keeps_runs grid_abc _ 4 wf_grid_abc). Defined.

Lemma is_run_abc_row0 : is_run grid_abc (lit "ABC", 0, 0, horizontal).
Proof.
  split_and!; [done| |by left|by right].
  intros [|[|[|k]]] x; cbn; intros [= <-]; done.
Qed.

(** C4, as stated, fails when the word whose text the longer run spells was
    recorded somewhere else: [AB] recorded at (0, 0) lies inside the run
    [ABC] of row 0, [ABC] is a placed word, recorded on row 2; the output
    lists [ABC] on row 2 only, not at the position of the run of row 0. *)
Lemma clean_placed_words_does_not_add_runs :
  ¬ (∀ (g : grid) (placed : list placement) size clean (A B R : placement),
       wf_grid g size → clean_placed_words g placed size = Ok clean →
       A ∈ placed → B ∈ placed →
       is_run g R → 2 <= Z.of_nat (length (text R)) →
       cells_of A ⊂ cells_of R →
       text R = text B → text B ≠ text A →
       R ∈ clean ∧ A ∉ clean).
Proof.
  intros H.
  destruct (H grid_abc
              [(lit "AB", 0, 0, horizontal); (lit "ABC", 2, 0, horizontal)] 4
              [(lit "ABC", 2, 0, horizontal)]
              (lit "AB", 0, 0, horizontal) (lit "ABC", 2, 0, horizontal)
              (lit "ABC", 0, 0, horizontal)) as [Hin _].
  - apply wf_grid_abc.
  - vm_compute. reflexivity.
  - by left.
  - right. by left.
  - apply is_run_abc_row0.
  - cbn. lia.
  - split.
    + intros [r c] (i & Hi & -> & ->)%elem_of_cells_of.
      apply elem_of_cells_of. exists i. split; [|done].
      change (0 <= i < 2) in Hi. change (0 <= i < 3). lia.
    + intros Hsub.
      assert ((0, 2) ∈ cells_of (lit "AB", 0, 0, horizontal))
        as (i & Hi & _ & Hc)%elem_of_cells_of.
      { apply Hsub, elem_of_cells_of. exists 2. split; [|done].
        change (0 <= 2 < 3). lia. }
      change (0 <= i < 2) in Hi. unfold cell_col in Hc. lia.
  - done.
  - done.
  - apply list_elem_of_singleton in Hin. discriminate Hin.
Qed.

(** ** Loops that collect *)

Lemma for_each_collect {A B} (l : list A)
    (body : A → list B → result (list B)) (P : A → B → Prop) :
  (∀ x acc, x ∈ l → ∃ ys, body x acc = Ok (acc ++ ys) ∧ ∀ y, y ∈ ys ↔ P x y) →
  ∀ acc, ∃ ys,
    for_each l body acc = Ok (acc ++ ys) ∧ ∀ y, y ∈ ys ↔ ∃ x, x ∈ l ∧ P x y.
Proof.
  induction l as [|x l IH]; intros Hbody acc; cbn [for_each].
  { exists []. rewrite app_nil_r. split; [done|]. intros y.
    rewrite elem_of_nil. split; [done|]. by intros (x & Hx%elem_of_nil & _). }
  destruct (Hbody x acc) as (ys & -> & Hys); [by left|]. cbn [mbind result_bind].
  destruct (IH (λ x' acc' Hx', Hbody x' acc' (list_elem_of_further _ _ _ Hx')) (acc ++ ys))
    as (zs & -> & Hzs).
  exists (ys ++ zs). split; [by rewrite app_assoc|].
  intros y. rewrite elem_of_app, Hys, Hzs. split.
  - intros [Hy|(x' & Hx' & Hy)]; [exists x|exists x']; split; try done;
      [by left|by right].
  - intros (x' & [->|Hx']%elem_of_cons & Hy); [by left|right; by exists x'].
Qed.

(** ** Placement: the grid returned *)

Lemma cell_insert_eq (g : grid) gr old ch r c :
  0 <= r → 0 <= c →
  g !! Z.to_nat r = Some gr → gr !! Z.to_nat c = Some old →
  cell (<[Z.to_nat r := <[Z.to_nat c := ch]> gr]> g) r c = Some ch.
Proof.
  intros Hr Hc Hgr Hold. unfold cell. rewrite bool_decide_eq_true_2 by done.
  rewrite list_lookup_insert_eq by (by eapply lookup_lt_Some). cbn.
  by rewrite list_lookup_insert_eq by (by eapply lookup_lt_Some).
Qed.

Lemma cell_insert_ne (g : grid) gr ch r c r0 c0 :
  0 <= r → 0 <= c → g !! Z.to_nat r = Some gr → (r0, c0) ≠ (r, c) →
  cell (<[Z.to_nat r := <[Z.to_nat c := ch]> gr]> g) r0 c0 = cell g r0 c0.
Proof.
  intros Hr Hc Hgr Hne. unfold cell. case_bool_decide as Hnn; [|done].
  destruct (decide (Z.to_nat r0 = Z.to_nat r)) as [Heq|Hr0].
  - rewrite Heq, Hgr, list_lookup_insert_eq by (by eapply lookup_lt_Some). cbn.
    rewrite list_lookup_insert_ne; [done|].
    intros Hc0. apply Hne. f_equal; lia.
  - by rewrite list_lookup_insert_ne.
Qed.

Lemma cell_inj row col d a b :
  (cell_row row d a, cell_col col d a) = (cell_row row d b, cell_col col d b) →
  a = b.
Proof. unfold cell_row, cell_col. destruct d; intros [=]; lia. Qed.

Lemma try_place_from_spec (word : str) : ∀ (g : grid) i row col d size,
  wf_grid g size → 0 <= row → 0 <= col → 0 <= i →
  (goes_through g size i word row col d ∧
   ∃ g', try_place_from g i word row col d size = Ok (Some g') ∧
         wf_grid g' size ∧
         (∀ (k : nat) x, word !! k = Some x →
            cell g' (cell_row row d (i + Z.of_nat k))
                    (cell_col col d (i + Z.of_nat k)) = Some x) ∧
         (∀ r0 c0,
            (∀ k : nat, (k < length word)%nat →
               (r0, c0) ≠ (cell_row row d (i + Z.of_nat k),
                           cell_col col d (i + Z.of_nat k))) →
            cell g' r0 c0 = cell g r0 c0))
  ∨ (¬ goes_through g size i word row col d ∧
     try_place_from g i word row col d size = Ok None).
Proof.
  induction word as [|ch rest IH]; intros g i row col d size Hwf Hrow Hcol Hi.
  { left. split; [by intros k x|]. exists g. by split_and!. }
  pose proof (cell_row_nonneg row d i Hrow Hi) as Hr0.
  pose proof (cell_col_nonneg col d i Hcol Hi) as Hc0.
  destruct (decide (cell_row row d i >= size ∨ cell_col col d i >= size)) as [Hover|Hin].
  { right. split.
    - intros Hgo. destruct (Hgo 0%nat ch eq_refl) as [[? ?] _].
      rewrite Z.add_0_r in *. lia.
    - apply try_place_from_overrun; [done..|].
      exists 0. rewrite Z.add_0_r. split; [cbn; lia|done]. }
  destruct (try_place_from_step g i ch rest row col d size Hwf)
    as (gr & old & Hgr & Hold & ->); [lia..|].
  assert (cell g (cell_row row d i) (cell_col col d i) = Some old) as Hcell.
  { unfold cell. rewrite bool_decide_eq_true_2 by lia. rewrite Hgr. done. }
  destruct (bool_decide (old ≠ X) && bool_decide (old ≠ ch)) eqn:Hconf.
  { right. split; [|done].
    apply andb_true_iff in Hconf as [HX%bool_decide_eq_true Hch%bool_decide_eq_true].
    intros Hgo. destruct (Hgo 0%nat ch eq_refl) as [_ Hok].
    rewrite Z.add_0_r in Hok. destruct (Hok _ Hcell); done. }
  assert (old = X ∨ old = ch) as Hfree.
  { apply andb_false_iff in Hconf as [HX%bool_decide_eq_false|Hch%bool_decide_eq_false].
    - left. by destruct (decide (old = X)).
    - right. by destruct (decide (old = ch)). }
  set (g1 := <[Z.to_nat (cell_row row d i) := <[Z.to_nat (cell_col col d i) := ch]> gr]> g).
  assert (∀ k : nat, cell g1 (cell_row row d (i + 1 + Z.of_nat k))
                             (cell_col col d (i + 1 + Z.of_nat k))
                     = cell g (cell_row row d (i + 1 + Z.of_nat k))
                              (cell_col col d (i + 1 + Z.of_nat k))) as Hlater.
  { intros k. apply cell_insert_ne; [done..|].
    intros Heq%cell_inj. lia. }
  assert (wf_grid g1 size) as Hwf1 by (by apply wf_grid_insert).
  destruct (IH g1 (i + 1) row col d size Hwf1 Hrow Hcol ltac:(lia))
    as [(Hgo & g' & -> & Hwf' & Hwritten & Hothers)|(Hno & ->)].
  - left. split.
    + intros [|k] x; cbn [lookup list_lookup].
      * intros [= <-]. rewrite Z.add_0_r. split; [unfold inside; lia|].
        intros old' Hold'. by assert (old' = old) as -> by congruence.
      * intros Hx. destruct (Hgo k x Hx) as [Hins Hok].
        replace (i + Z.of_nat (S k)) with (i + 1 + Z.of_nat k) by lia.
        split; [done|]. intros old' Hold'. apply Hok. by rewrite Hlater.
    + exists g'. split_and!; [done..| |].
      * intros [|k] x; cbn [lookup list_lookup].
        -- intros [= <-]. rewrite Z.add_0_r. rewrite Hothers.
           ++ by eapply cell_insert_eq.
           ++ intros k _ Heq%cell_inj. lia.
        -- intros Hx. replace (i + Z.of_nat (S k)) with (i + 1 + Z.of_nat k) by lia.
           by apply Hwritten.
      * intros r0 c0 Hout. rewrite Hothers.
        -- apply cell_insert_ne; [done..|].
           specialize (Hout 0%nat ltac:(cbn; lia)). by rewrite Z.add_0_r in Hout.
        -- intros k Hk. specialize (Hout (S k) ltac:(cbn; lia)).
           by replace (i + Z.of_nat (S k)) with (i + 1 + Z.of_nat k) in Hout by lia.
  - right. split; [|done]. intros Hgo. apply Hno.
    intros k x Hx. destruct (Hgo (S k) x Hx) as [Hins Hok].
    replace (i + Z.of_nat (S k)) with (i + 1 + Z.of_nat k) in * by lia.
    split; [done|]. intros old' Hold'. apply Hok. by rewrite <- Hlater.
Qed.

Lemma goes_through_fits (g : grid) size (word : str) row col d :
  goes_through g size 0 word row col d ↔
  fits size word row col d ∧ no_conflict g word row col d.
Proof.
  unfold goes_through, fits, no_conflict. split.
  - intros Hgo. split.
    + intros i Hi.
      destruct (lookup_lt_is_Some_2 word (Z.to_nat i)) as [x Hx]; [lia|].
      destruct (Hgo _ _ Hx) as [Hins _].
      by replace (0 + Z.of_nat (Z.to_nat i)) with i in Hins by lia.
    + intros k x old Hx Hold. destruct (Hgo _ _ Hx) as [_ Hok].
      apply Hok. by rewrite Z.add_0_l.
  - intros [Hfits Hnc] k x Hx. rewrite Z.add_0_l. split.
    + apply Hfits. apply lookup_lt_Some in Hx. lia.
    + intros old Hold. by eapply Hnc.
Qed.

(** [try_place] at an anchor that is not negative, on a well-formed grid:
    it returns the grid with the word written when the word fits and meets
    no other letter, and [None] otherwise; it never raises. *)
Lemma try_place_spec (g : grid) (word : str) row col d size :
  wf_grid g size → 0 <= row → 0 <= col →
  (fits size word row col d ∧ no_conflict g word row col d ∧
   ∃ g', try_place g word row col d size = Ok (Some g') ∧
         wf_grid g' size ∧ overlay g word row col d g')
  ∨ (¬ (fits size word row col d ∧ no_conflict g word row col d) ∧
     try_place g word row col d size = Ok None).
Proof.
  intros Hwf Hrow Hcol. unfold try_place.
  destruct (try_place_from_spec word g 0 row col d size Hwf Hrow Hcol ltac:(lia))
    as [(Hgo & g' & Hrun & Hwf' & Hwritten & Hothers)|(Hno & Hrun)].
  - left. apply goes_through_fits in Hgo as [Hfits Hnc].
    split_and!; [done..|]. exists g'. split_and!; [done..|]. split.
    + intros k x Hx. specialize (Hwritten k x Hx). by rewrite Z.add_0_l in Hwritten.
    + intros r c Hout. apply Hothers. intros k Hk Heq. apply Hout.
      apply elem_of_cells_of. exists (Z.of_nat k). rewrite Z.add_0_l in Heq.
      split; [lia|]. by injection Heq.
  - right. split; [|done]. by rewrite <- goes_through_fits.
Qed.

(** Two well-formed grids with the same cells are equal. *)
Lemma grid_ext (g1 g2 : grid) size :
  wf_grid g1 size → wf_grid g2 size →
  (∀ r c, cell g1 r c = cell g2 r c) → g1 = g2.
Proof.
  intros [Hl1 Hr1] [Hl2 Hr2] Hcells.
  apply list_eq_same_length with (length g1); [lia..|].
  intros r gr1 gr2 Hr Hg1 Hg2.
  assert (Z.of_nat (length gr1) = size) as Hlen1.
  { eapply (proj1 (Forall_forall _ _) Hr1). by eapply list_elem_of_lookup_2. }
  assert (Z.of_nat (length gr2) = size) as Hlen2.
  { eapply (proj1 (Forall_forall _ _) Hr2). by eapply list_elem_of_lookup_2. }
  apply list_eq_same_length with (length gr1); [lia..|].
  intros c x y Hc Hx Hy.
  specialize (Hcells (Z.of_nat r) (Z.of_nat c)). unfold cell in Hcells.
  rewrite bool_decide_eq_true_2 in Hcells by lia.
  rewrite !Nat2Z.id, Hg1, Hg2 in Hcells. cbn in Hcells. congruence.
Qed.

Lemma overlay_unique (g g1 g2 : grid) (word : str) row col d size :
  wf_grid g1 size → wf_grid g2 size →
  overlay g word row col d g1 → overlay g word row col d g2 → g1 = g2.
Proof.
  intros Hwf1 Hwf2 [Hw1 Ho1] [Hw2 Ho2]. apply (grid_ext g1 g2 size); [done..|].
  intros r c.
  destruct (decide ((r, c) ∈ cells_of (word, row, col, d))) as [Hin|Hout].
  - apply elem_of_cells_of in Hin as (i & Hi & -> & ->).
    destruct (lookup_lt_is_Some_2 word (Z.to_nat i)) as [x Hx]; [lia|].
    specialize (Hw1 _ _ Hx). specialize (Hw2 _ _ Hx).
    rewrite Z2Nat.id in Hw1, Hw2 by lia. congruence.
  - by rewrite Ho1, Ho2.
Qed.

(** ** Candidates: crossing, validity, enumeration *)

Lemma elem_of_concat {A} (ls : list (list A)) (x : A) :
  x ∈ concat ls ↔ ∃ l, l ∈ ls ∧ x ∈ l.
Proof.
  induction ls as [|l ls IH]; cbn [concat].
  - rewrite elem_of_nil. split; [done|]. by intros (l & Hl%elem_of_nil & _).
  - rewrite elem_of_app, IH. split.
    + intros [Hx|(l' & Hl' & Hx)]; [exists l|exists l']; split; try done;
        [by left|by right].
    + intros (l' & [->|Hl']%elem_of_cons & Hx); [by left|right; by exists l'].
Qed.

Lemma count_letters_occupied (g : grid) : count_letters g > 0 ↔ occupied g.
Proof.
  unfold count_letters, occupied. split.
  - intros Hpos.
    destruct (filter (λ x, x ≠ X) (concat g)) as [|y l] eqn:Hf; [cbn in Hpos; lia|].
    assert (y ∈ filter (λ x, x ≠ X) (concat g)) as Hy by (rewrite Hf; by left).
    apply list_elem_of_filter in Hy as [Hne (gr & Hgr & Hy)%elem_of_concat].
    apply list_elem_of_lookup in Hgr as [r Hr]. apply list_elem_of_lookup in Hy as [c Hc].
    exists (Z.of_nat r), (Z.of_nat c), y. split; [|done].
    unfold cell. rewrite bool_decide_eq_true_2 by lia.
    rewrite !Nat2Z.id, Hr. done.
  - intros (r & c & y & Hy & Hne). unfold cell in Hy.
    case_bool_decide; [|done].
    destruct (g !! Z.to_nat r) as [gr|] eqn:Hgr; [|done]. cbn in Hy.
    assert (y ∈ filter (λ x, x ≠ X) (concat g)) as Hin.
    { apply list_elem_of_filter. split; [done|]. apply elem_of_concat.
      exists gr. split; by eapply list_elem_of_lookup_2. }
    destruct (filter _ _); [by apply elem_of_nil in Hin|cbn; lia].
Qed.

Lemma word_shares_cell_loop_spec (g : grid) size row col d (idx : list Z) :
  wf_grid g size →
  (∀ i, i ∈ idx → inside size (cell_row row d i) (cell_col col d i)) →
  ∃ b, word_shares_cell_loop g idx row col d size = Ok b ∧
       (b = true ↔ ∃ i y, i ∈ idx ∧
          cell g (cell_row row d i) (cell_col col d i) = Some y ∧ y ≠ X).
Proof.
  intros Hwf. induction idx as [|i idx IH]; intros Hin; cbn [word_shares_cell_loop].
  { exists false. split; [done|]. split; [done|].
    by intros (i & y & Hi%elem_of_nil & _). }
  destruct (Hin i) as [Hr Hc]; [by left|].
  rewrite (bool_decide_eq_true_2 (cell_row row d i < size)) by lia.
  rewrite (bool_decide_eq_true_2 (cell_col col d i < size)) by lia. cbn [andb].
  destruct (wf_cell_inside g size _ _ Hwf Hr Hc) as (x & Hx & ->).
  cbn [mbind result_bind]. case_bool_decide as Hne.
  - exists true. split; [done|]. split; [|done]. intros _.
    exists i, x. split_and!; [by left|done..].
  - destruct IH as (b & -> & Hb).
    { intros j Hj. apply Hin. by right. }
    exists b. split; [done|]. rewrite Hb. split.
    + intros (j & y & Hj & Hy). exists j, y. split; [by right|done].
    + intros (j & y & [->|Hj]%elem_of_cons & Hy & Hyne).
      * destruct Hne. congruence.
      * by exists j, y.
Qed.

Lemma word_shares_cell_spec (g : grid) (word : str) row col d size :
  wf_grid g size → fits size word row col d →
  ∃ b, word_shares_cell g word row col d size = Ok b ∧
       (b = true ↔ crosses g word row col d).
Proof.
  intros Hwf Hfits. unfold word_shares_cell.
  destruct (word_shares_cell_loop_spec g size row col d
              (range (Z.of_nat (length word))) Hwf) as (b & Hrun & Hb).
  { intros i Hi%elem_of_seqZ. apply Hfits. lia. }
  exists b. split; [done|]. rewrite Hb. unfold crosses, range. split.
  - intros (i & y & Hi%elem_of_seqZ & Hy & Hne).
    exists (Z.to_nat i), y. rewrite Z2Nat.id by lia. split_and!; [lia|done..].
  - intros (k & y & Hk & Hy & Hne).
    exists (Z.of_nat k), y. split_and!; [|done..]. apply elem_of_seqZ. lia.
Qed.

Lemma is_valid_after_placement_spec (g : grid) (ws : gset (list N)) size :
  wf_grid g size →
  ∃ b, is_valid_after_placement g ws size = Ok b ∧ (b = true ↔ no_ghosts g ws).
Proof.
  intros Hwf. destruct (scan_spec g size Hwf) as (R & HR & Hmem & _).
  unfold is_valid_after_placement, find_all_runs. rewrite HR.
  cbn [mbind result_bind]. eexists. split; [done|].
  rewrite <- Is_true_true, forallb_True, Forall_fmap, Forall_forall.
  unfold no_ghosts. split.
  - intros Hall p Hrun Hl.
    specialize (Hall p (proj2 (Hmem p) (conj Hrun Hl))). cbn in Hall.
    by apply bool_decide_unpack in Hall.
  - intros Hno p [Hrun Hl]%Hmem. cbn. apply bool_decide_pack. by apply Hno.
Qed.

Lemma try_candidate_spec (g : grid) (word : str) (ws : gset (list N))
    size d r c (acc : list candidate) :
  wf_grid g size → 0 <= r → 0 <= c →
  ∃ ys,
    try_candidate g word (ws ∪ {[ word ]}) size d r c acc = Ok (acc ++ ys) ∧
    ∀ y, y ∈ ys ↔ ∃ g', y = (r, c, d, g') ∧ legal g word ws size (r, c, d, g').
Proof.
  intros Hwf Hr Hc. unfold try_candidate.
  destruct (try_place_spec g word r c d size Hwf Hr Hc)
    as [(Hfits & Hnc & g' & -> & Hwf' & Hover)|(Hno & ->)];
    cbn [mbind result_bind]; cycle 1.
  { exists []. rewrite app_nil_r. split; [done|]. intros y.
    rewrite elem_of_nil. split; [done|].
    intros (g' & _ & Hf & Hn & _). by destruct Hno. }
  destruct (word_shares_cell_spec g word r c d size Hwf Hfits) as (shares & Hsh & Hshares).
  destruct (is_valid_after_placement_spec g' (ws ∪ {[ word ]}) size Hwf')
    as (valid & Hvalid & Hghosts).
  assert (∀ g'', legal g word ws size (r, c, d, g'') → g'' = g') as Huniq.
  { intros g'' (_ & _ & _ & Hwf'' & Hover'' & _). by eapply overlay_unique. }
  assert (∃ floating,
    (if bool_decide (count_letters g > 0)
     then word_shares_cell g word r c d size ≫= λ shares : bool, Ok (negb shares)
     else Ok false) = Ok floating ∧
    (floating = false ↔ (occupied g → crosses g word r c d)))
    as (floating & -> & Hfloat).
  { case_bool_decide as Hcount.
    - rewrite Hsh. cbn [mbind result_bind]. eexists. split; [done|].
      rewrite negb_false_iff, Hshares. split; [done|].
      intros Hcr. by apply Hcr, count_letters_occupied.
    - exists false. split; [done|]. split; [|done].
      intros _ Hocc%count_letters_occupied. done. }
  cbn [mbind result_bind].
  destruct floating.
  { exists []. rewrite app_nil_r. split; [done|]. intros y.
    rewrite elem_of_nil. split; [done|].
    intros (g'' & _ & _ & _ & Hcr & _). by apply Hfloat in Hcr. }
  rewrite Hvalid. cbn [mbind result_bind]. destruct valid.
  - exists [(r, c, d, g')]. split; [done|]. intros y.
    rewrite list_elem_of_singleton. split.
    + intros ->. exists g'. split; [done|].
      split_and!; [done|done|by apply Hfloat|done|done|by apply Hghosts].
    + intros (g'' & -> & Hlegal). by rewrite (Huniq _ Hlegal).
  - exists []. rewrite app_nil_r. split; [done|]. intros y.
    rewrite elem_of_nil. split; [done|].
    intros (g'' & _ & Hlegal). pose proof (Huniq _ Hlegal) as ->.
    destruct Hlegal as (_ & _ & _ & _ & _ & Hg). by apply Hghosts in Hg.
Qed.

Lemma fits_range (word : str) size r c d :
  word ≠ [] → fits size word r c d →
  0 <= r < size - (match d with vertical => Z.of_nat (length word)
                             | horizontal => 1 end) + 1 ∧
  0 <= c < size - (match d with horizontal => Z.of_nat (length word)
                             | vertical => 1 end) + 1.
Proof.
  intros Hne Hfits.
  assert (0 < Z.of_nat (length word)) as Hlen.
  { destruct word; [done|cbn; lia]. }
  destruct (Hfits 0) as [Hr0 Hc0]; [lia|].
  destruct (Hfits (Z.of_nat (length word) - 1)) as [Hr1 Hc1]; [lia|].
  unfold cell_row, cell_col in *. destruct d; lia.
Qed.

Lemma row_candidates (g : grid) (word : str) (ws : gset (list N)) size d r n :
  wf_grid g size → 0 <= r →
  ∀ acc, ∃ ys,
    for_each (range n) (λ c placements,
      try_candidate g word (ws ∪ {[ word ]}) size d r c placements) acc
    = Ok (acc ++ ys) ∧
    ∀ y, y ∈ ys ↔
      ∃ c, c ∈ range n ∧
           ∃ g', y = (r, c, d, g') ∧ legal g word ws size (r, c, d, g').
Proof.
  intros Hwf Hr.
  apply (for_each_collect (range n) _
           (λ c y, ∃ g', y = (r, c, d, g') ∧ legal g word ws size (r, c, d, g'))).
  intros c acc [Hc _]%elem_of_seqZ. by apply try_candidate_spec.
Qed.

Lemma direction_candidates (g : grid) (word : str) (ws : gset (list N))
    size d m n :
  wf_grid g size →
  ∀ acc, ∃ ys,
    for_each (range m) (λ r placements,
      for_each (range n) (λ c placements,
        try_candidate g word (ws ∪ {[ word ]}) size d r c placements)
        placements) acc
    = Ok (acc ++ ys) ∧
    ∀ y, y ∈ ys ↔
      ∃ r, r ∈ range m ∧ ∃ c, c ∈ range n ∧
           ∃ g', y = (r, c, d, g') ∧ legal g word ws size (r, c, d, g').
Proof.
  intros Hwf.
  apply (for_each_collect (range m) _
           (λ r y, ∃ c, c ∈ range n ∧
              ∃ g', y = (r, c, d, g') ∧ legal g word ws size (r, c, d, g'))).
  intros r acc [Hr _]%elem_of_seqZ. by apply row_candidates.
Qed.

(** What [find_all_placements] returns on a well-formed grid: the legal
    placements among the positions it goes through. *)
Lemma find_all_placements_spec (g : grid) (word : str) (ws : gset (list N)) size :
  wf_grid g size →
  ∃ found,
    find_all_placements g word ws size = Ok found ∧
    ∀ r c d g', (r, c, d, g') ∈ found ↔
      r ∈ range (size - (match d with vertical => Z.of_nat (length word)
                                  | horizontal => 1 end) + 1) ∧
      c ∈ range (size - (match d with horizontal => Z.of_nat (length word)
                                  | vertical => 1 end) + 1) ∧
      legal g word ws size (r, c, d, g').
Proof.
  intros Hwf. unfold find_all_placements. cbn zeta.
  destruct (for_each_collect [horizontal; vertical]
    (λ d placements,
       for_each
         (range (size - (match d with vertical => Z.of_nat (length word)
                                    | horizontal => 1 end) + 1))
         (λ r placements,
            for_each
              (range (size - (match d with horizontal => Z.of_nat (length word)
                                         | vertical => 1 end) + 1))
              (λ c placements,
                 try_candidate g word (ws ∪ {[ word ]}) size d r c placements)
              placements)
         placements)
    (λ d y, ∃ r, r ∈ range (size - (match d with vertical => Z.of_nat (length word)
                                              | horizontal => 1 end) + 1) ∧
            ∃ c, c ∈ range (size - (match d with horizontal => Z.of_nat (length word)
                                              | vertical => 1 end) + 1) ∧
            ∃ g', y = (r, c, d, g') ∧ legal g word ws size (r, c, d, g')))
    with (acc := @nil (Z * Z * direction * list (list N)))
    as (found & Hrun & Hfound).
  { intros d acc _. by apply direction_candidates. }
  exists found. split; [exact Hrun|]. intros r c d g'. rewrite Hfound. split.
  - by intros (d' & _ & r' & Hr & c' & Hc & g'' & [= -> -> -> ->] & Hlegal).
  - intros (Hr & Hc & Hlegal). exists d. split; [destruct d; [by left|right; by left]|].
    exists r. split; [done|]. exists c. split; [done|]. by exists g'.
Qed.

(** C2: on a grid of side [size], for a word of at least one letter,
    [find_all_placements] returns a list, and a tuple [(r, c, d, g')] is in
    it exactly when the placement at ([r], [c]) in direction [d] stays
    inside the grid, writes over no different letter, shares a cell that
    holds a letter whenever the grid holds any, and [g'], the grid with the
    word written, has no run of two letters or more outside the word set
    extended with the word. *)
Theorem find_all_placements_exact (g : grid) (word : str)
    (ws : gset (list N)) size :
  wf_grid g size → word ≠ [] →
  ∃ found,
    find_all_placements g word ws size = Ok found ∧
    ∀ r c d g', (r, c, d, g') ∈ found ↔ legal g word ws size (r, c, d, g').
Proof.
  intros Hwf Hne.
  destruct (find_all_placements_spec g word ws size Hwf) as (found & Hrun & Hfound).
  exists found. split; [done|]. intros r c d g'. rewrite Hfound. split.
  - by intros (_ & _ & Hlegal).
  - intros Hlegal. pose proof Hlegal as (Hfits & _).
    apply fits_range in Hfits as [? ?]; [|done].
    split_and!; [apply elem_of_seqZ; lia..|done].
Qed.

(** ** Connectivity: the search *)

Lemma foldl_visit_spec (l : list nat) : ∀ (visited : gset nat) (queue : list nat),
  ∃ new,
    foldl visit (visited, queue) l = (visited ∪ list_to_set l, queue ++ new) ∧
    NoDup new ∧
    (∀ x, x ∈ new ↔ x ∈ l ∧ x ∉ visited).
Proof.
  induction l as [|nb l IH]; intros visited queue; cbn [foldl].
  { exists []. rewrite app_nil_r. split_and!; [|constructor|].
    - f_equal. cbn. by rewrite (right_id_L ∅ (∪)).
    - intros x. rewrite !elem_of_nil. tauto. }
  unfold visit at 2. cbn [fst snd]. case_bool_decide as Hnb.
  - destruct (IH visited queue) as (new & -> & Hnd & Hnew).
    exists new. split_and!; [|done|].
    + f_equal. set_solver.
    + intros x. rewrite Hnew, elem_of_cons. split; [tauto|].
      intros [[->|?] ?]; tauto.
  - destruct (IH (visited ∪ {[nb]}) (queue ++ [nb])) as (new & -> & Hnd & Hnew).
    exists (nb :: new). split_and!.
    + f_equal.
      * set_solver.
      * by rewrite <- app_assoc.
    + constructor; [|done]. rewrite Hnew, elem_of_union, elem_of_singleton. tauto.
    + intros x. rewrite elem_of_cons, Hnew, elem_of_union, elem_of_singleton,
        elem_of_cons.
      destruct (decide (x = nb)) as [->|]; tauto.
Qed.

Lemma size_below (s : gset nat) (n : nat) :
  (∀ x, x ∈ s → (x < n)%nat) → (size s ≤ n)%nat.
Proof.
  intros Hs. rewrite <- (size_set_seq (C:=gset nat) 0 n).
  apply subseteq_size. intros x Hx. apply elem_of_set_seq. specialize (Hs x Hx). lia.
Qed.

Section search.
Context (n : nat) (adj : gmap nat (gset nat)) (iter : gset nat → list nat).
Hypothesis adj_nodes :
  ∀ a, (a < n)%nat → ∃ s, adj !! a = Some s ∧ ∀ b, b ∈ s → (b < n)%nat.
Hypothesis iter_spec : ∀ (s : gset nat) x, x ∈ iter s ↔ x ∈ s.

Lemma bfs_spec (fuel : nat) : ∀ (visited processed : gset nat) (queue : list nat),
  NoDup queue →
  visited = processed ∪ list_to_set queue →
  processed ## list_to_set queue →
  (∀ x, x ∈ visited → (x < n)%nat) →
  (∀ x, x ∈ visited → rtc (edge adj) 0%nat x) →
  0%nat ∈ visited →
  (∀ x y, x ∈ processed → edge adj x y → y ∈ visited) →
  (n ≤ size processed + fuel)%nat →
  ∃ v, bfs fuel iter adj visited queue = Ok v ∧ ∀ x, x ∈ v ↔ rtc (edge adj) 0%nat x.
Proof.
  induction fuel as [|fuel IH]; intros visited processed queue
    Hnd Hvis Hdisj Hlt Hreach H0 Hclosed Hfuel.
  - destruct queue as [|x queue].
    + cbn [bfs]. exists visited. split; [done|]. intros x. split; [by apply Hreach|].
      assert (visited = processed) as ->.
      { rewrite Hvis. cbn. by rewrite (right_id_L ∅ (∪)). }
      intros Hx. revert x Hx. apply (rtc_ind_r (λ x, x ∈ processed)); [done|].
      intros a b _ Hab Ha. by eapply Hclosed.
    + exfalso.
      assert (size (processed ∪ {[x]}) ≤ n)%nat as Hsz.
      { apply size_below. intros y Hy. apply Hlt. rewrite Hvis.
        set_solver. }
      rewrite size_union, size_singleton in Hsz; [lia|].
      cbn in Hdisj. set_solver.
  - destruct queue as [|x queue]; cbn [bfs].
    + exists visited. split; [done|]. intros x. split; [by apply Hreach|].
      assert (visited = processed) as ->.
      { rewrite Hvis. cbn. by rewrite (right_id_L ∅ (∪)). }
      intros Hx. revert x Hx. apply (rtc_ind_r (λ x, x ∈ processed)); [done|].
      intros a b _ Hab Ha. by eapply Hclosed.
    + assert (x ∈ visited) as Hx by (rewrite Hvis; set_solver).
      destruct (adj_nodes x (Hlt x Hx)) as (nbs & Hadj & Hnbs). rewrite Hadj.
      destruct (foldl_visit_spec (iter nbs) visited queue) as (new & -> & Hndnew & Hnew).
      cbn [fst snd].
      apply NoDup_cons in Hnd as [Hxq Hndq].
      assert (x ∉ processed) as Hxp by (cbn in Hdisj; set_solver).
      apply (IH _ (processed ∪ {[x]})).
      * apply NoDup_app. split_and!; [done| |done].
        intros y Hy [_ Hyv]%Hnew. apply Hyv. rewrite Hvis. set_solver.
      * apply set_eq. intros y.
        rewrite !elem_of_union, !elem_of_list_to_set, elem_of_app, Hnew,
          elem_of_singleton, iter_spec.
        assert (y ∈ visited ↔ y ∈ processed ∨ y = x ∨ y ∈ queue) as Hv.
        { rewrite Hvis, elem_of_union, elem_of_list_to_set, elem_of_cons. tauto. }
        destruct (decide (y ∈ visited)); tauto.
      * intros y Hy [Hyq|[Hyl Hyv]%Hnew]%elem_of_list_to_set%elem_of_app.
        -- set_solver.
        -- apply Hyv. rewrite Hvis. set_solver.
      * intros y [Hy|Hy%elem_of_list_to_set%iter_spec]%elem_of_union; auto.
      * intros y [Hy|Hy%elem_of_list_to_set%iter_spec]%elem_of_union; [auto|].
        eapply rtc_r; [by apply Hreach|]. by exists nbs.
      * apply elem_of_union. by left.
      * intros a b [Ha|Ha%elem_of_singleton]%elem_of_union Hab.
        -- apply elem_of_union. left. by eapply Hclosed.
        -- subst a. destruct Hab as (s & Hs & Hb). assert (s = nbs) as -> by congruence.
           apply elem_of_union. right. by apply elem_of_list_to_set, iter_spec.
      * rewrite size_union, size_singleton by set_solver. lia.
Qed.
End search.

(** ** Connectivity: the adjacency sets *)

Lemma for_each_inv {A S} (l : list A) (body : A → S → result S)
    (I : list A → S → Prop) :
  (∀ pre x post s, l = pre ++ x :: post → I pre s →
     ∃ s', body x s = Ok s' ∧ I (pre ++ [x]) s') →
  ∀ s, I [] s → ∃ s', for_each l body s = Ok s' ∧ I l s'.
Proof.
  intros Hbody.
  assert (∀ post pre s, l = pre ++ post → I pre s →
            ∃ s', for_each post body s = Ok s' ∧ I l s') as Hgen.
  { induction post as [|x post IH]; intros pre s Hl Hs; cbn [for_each].
    - exists s. rewrite app_nil_r in Hl. by subst.
    - destruct (Hbody pre x post s Hl Hs) as (s' & -> & Hs').
      cbn [mbind result_bind]. apply (IH (pre ++ [x])); [|done].
      by rewrite <- app_assoc. }
  intros s Hs. by apply (Hgen l []).
Qed.

Lemma meet_sym cells a b : meet cells a b → meet cells b a.
Proof.
  intros (ca & cb & Ha & Hb & Hne). exists cb, ca. split_and!; [done..|].
  by rewrite (comm_L (∩)).
Qed.

Lemma meet_lt cells a b : meet cells a b → (a < length cells ∧ b < length cells)%nat.
Proof. intros (ca & cb & Ha%lookup_lt_Some & Hb%lookup_lt_Some & _). done. Qed.

Lemma adj_holds_equiv cells (seen1 seen2 : nat → nat → Prop) adj :
  (∀ a b, meet cells a b → (seen1 a b ↔ seen2 a b)) →
  adj_holds cells seen1 adj → adj_holds cells seen2 adj.
Proof.
  intros Heq Hadj a Ha. destruct (Hadj a Ha) as (s & Hs & Hmem).
  exists s. split; [done|]. intros b. rewrite Hmem. split.
  - intros [Hm Hseen]. split; [done|].
    rewrite <- (Heq a b Hm), <- (Heq b a (meet_sym _ _ _ Hm)). done.
  - intros [Hm Hseen]. split; [done|].
    rewrite (Heq a b Hm), (Heq b a (meet_sym _ _ _ Hm)). done.
Qed.

Lemma adj_holds_skip cells seen adj i j :
  ¬ meet cells i j → adj_holds cells seen adj →
  adj_holds cells (λ a b, seen a b ∨ (a = i ∧ b = j)) adj.
Proof.
  intros Hno. apply adj_holds_equiv. intros a b Hm. split; [by left|].
  intros [?|[-> ->]]; [done|]. by destruct Hno.
Qed.

Lemma adj_holds_add cells seen adj i j :
  meet cells i j → i ≠ j → adj_holds cells seen adj →
  ∃ adj2,
    (adj_add adj i j ≫= λ adj' : gmap nat (gset nat), adj_add adj' j i) = Ok adj2 ∧
    adj_holds cells (λ a b, seen a b ∨ (a = i ∧ b = j)) adj2.
Proof.
  intros Hm Hne Hadj. destruct (meet_lt _ _ _ Hm) as [Hi Hj].
  destruct (Hadj i Hi) as (si & Hsi & Hmi). destruct (Hadj j Hj) as (sj & Hsj & Hmj).
  exists (<[j := sj ∪ {[i]}]> (<[i := si ∪ {[j]}]> adj)). split.
  { unfold adj_add. rewrite Hsi. cbn [mbind result_bind].
    rewrite lookup_insert_ne by done. by rewrite Hsj. }
  intros a Ha.
  destruct (decide (a = j)) as [->|Haj]; [|destruct (decide (a = i)) as [->|Hai]].
  - exists (sj ∪ {[i]}). rewrite lookup_insert_eq. split; [done|]. intros b.
    rewrite elem_of_union, elem_of_singleton, Hmj. split.
    + intros [[? [?|?]] | ->]; [split; tauto..|]. split; [by apply meet_sym|tauto].
    + intros [? [[?|[? ?]]|[?|[? ?]]]]; subst; tauto.
  - exists (si ∪ {[j]}). rewrite lookup_insert_ne, lookup_insert_eq by done.
    split; [done|]. intros b.
    rewrite elem_of_union, elem_of_singleton, Hmi. split.
    + intros [[? [?|?]] | ->]; split; tauto.
    + intros [? [[?|[? ?]]|[?|[? ?]]]]; subst; tauto.
  - destruct (Hadj a Ha) as (s & Hs & Hmem). exists s.
    rewrite !lookup_insert_ne by done. split; [done|]. intros b.
    rewrite Hmem. split.
    + intros [? [?|?]]; split; tauto.
    + intros [? [[?|[? ?]]|[?|[? ?]]]]; subst; tauto.
Qed.

Lemma adj_init_lookup (n a : nat) :
  (a < n)%nat →
  (list_to_map ((λ i, (i, ∅)) <$> seq 0 n) : gmap nat (gset nat)) !! a = Some ∅.
Proof.
  intros Ha. apply elem_of_list_to_map_1.
  - rewrite <- list_fmap_compose. cbn. rewrite list_fmap_id. apply NoDup_seq.
  - apply list_elem_of_fmap. exists a. split; [done|]. apply elem_of_seq. lia.
Qed.

(** The double loop fills [adj] with the pairs of distinct words whose cell
    sets intersect. *)
Lemma build_adj_spec (cells : list (gset (Z * Z))) :
  ∃ adj, build_adj cells = Ok adj ∧
    ∀ a, (a < length cells)%nat →
      ∃ s, adj !! a = Some s ∧ ∀ b, b ∈ s ↔ meet cells a b ∧ a ≠ b.
Proof.
  unfold build_adj. cbn zeta. set (n := length cells).
  destruct (for_each_inv (seq 0 n)
    (λ i adj,
       for_each (seq (S i) (n - S i)) (λ j adj,
         index cells i ≫= λ ci : gset (Z * Z),
         index cells j ≫= λ cj : gset (Z * Z),
         if bool_decide (ci ∩ cj ≠ ∅) then
           adj_add adj i j ≫= λ adj' : gmap nat (gset nat), adj_add adj' j i
         else Ok adj) adj)
    (λ pre adj, adj_holds cells (λ a b, a ∈ pre ∧ (a < b)%nat) adj))
    with (s := (list_to_map ((λ i, (i, ∅)) <$> seq 0 n) : gmap nat (gset nat)))
    as (adj & Hrun & Hadj).
  - intros pre i post adj Hl Hpre.
    assert (i < n)%nat as Hi.
    { assert (i ∈ seq 0 n) as Hin by (rewrite Hl; set_solver).
      apply elem_of_seq in Hin. lia. }
    destruct (for_each_inv (seq (S i) (n - S i))
      (λ j adj,
         index cells i ≫= λ ci : gset (Z * Z),
         index cells j ≫= λ cj : gset (Z * Z),
         if bool_decide (ci ∩ cj ≠ ∅) then
           adj_add adj i j ≫= λ adj' : gmap nat (gset nat), adj_add adj' j i
         else Ok adj)
      (λ prej adj,
         adj_holds cells (λ a b, (a ∈ pre ∧ (a < b)%nat) ∨ (a = i ∧ b ∈ prej)) adj))
      with (s := adj) as (adj' & Hrun' & Hadj').
    + intros prej j postj adj0 Hlj Hprej.
      assert (S i ≤ j < n)%nat as Hj.
      { assert (j ∈ seq (S i) (n - S i)) as Hin by (rewrite Hlj; set_solver).
        apply elem_of_seq in Hin. lia. }
      destruct (lookup_lt_is_Some_2 cells i) as [ci Hci]; [done|].
      destruct (lookup_lt_is_Some_2 cells j) as [cj Hcj]; [fold n; lia|].
      unfold index. rewrite Hci, Hcj. cbn [mbind result_bind].
      case_bool_decide as Hmeet.
      * assert (meet cells i j) as Hm by (by exists ci, cj).
        destruct (adj_holds_add cells _ adj0 i j Hm ltac:(lia) Hprej)
          as (adj2 & -> & Hadj2).
        exists adj2. split; [done|]. eapply adj_holds_equiv; [|exact Hadj2].
        intros a b _. cbn beta. rewrite elem_of_app, list_elem_of_singleton. tauto.
      * assert (¬ meet cells i j) as Hno.
        { intros (ca & cb & Ha & Hb & Hne).
          assert (ca = ci) as -> by congruence. assert (cb = cj) as -> by congruence.
          apply Hne. by destruct (decide (ci ∩ cj = ∅)). }
        exists adj0. split; [done|].
        eapply adj_holds_equiv; [|exact (adj_holds_skip cells _ adj0 i j Hno Hprej)].
        intros a b _. cbn beta. rewrite elem_of_app, list_elem_of_singleton. tauto.
    + eapply adj_holds_equiv; [|exact Hpre]. intros a b _. cbn beta.
      rewrite elem_of_nil. tauto.
    + exists adj'. split; [done|]. eapply adj_holds_equiv; [|exact Hadj'].
      intros a b [_ Hb]%meet_lt. cbn beta.
      rewrite elem_of_app, list_elem_of_singleton, elem_of_seq. fold n in Hb.
      split.
      * intros [?|[Hai ?]]; [tauto|]. subst a. split; [tauto|lia].
      * intros [[?|Hai] ?]; [tauto|]. subst a. right. split; [done|lia].
  - intros a Ha. exists ∅. split; [by apply adj_init_lookup|].
    intros b. rewrite elem_of_empty, !elem_of_nil. tauto.
  - exists adj. split; [done|]. intros a Ha.
    destruct (Hadj a Ha) as (s & Hs & Hmem). exists s. split; [done|].
    intros b. rewrite Hmem, !elem_of_seq. split.
    + intros [Hm [[_ ?]|[_ ?]]]; split; [done|lia|done|lia].
    + intros [Hm Hne]. split; [done|]. destruct (meet_lt _ _ _ Hm). subst n. lia.
Qed.

(** ** Connectivity: the check *)

Lemma meet_overlaps (placed : list placement) a b :
  meet (cells_per_word placed) a b ↔ overlaps placed a b.
Proof.
  unfold meet, overlaps, cells_per_word. split.
  - intros (ca & cb & Ha & Hb & Hne).
    apply list_lookup_fmap_Some in Ha as (p & -> & Hp).
    apply list_lookup_fmap_Some in Hb as (q & -> & Hq).
    apply set_choose_L in Hne as [x [Hx1 Hx2]%elem_of_intersection].
    apply elem_of_list_to_set in Hx1, Hx2.
    exists p, q, x. by split_and!.
  - intros (p & q & x & Hp & Hq & Hx1 & Hx2).
    exists (list_to_set (cells_of p)), (list_to_set (cells_of q)).
    rewrite !list_lookup_fmap, Hp, Hq. split_and!; [done..|].
    intros Hempty.
    assert (x ∈ (list_to_set (cells_of p) ∩ list_to_set (cells_of q) : gset (Z * Z)))
      as Hx by (apply elem_of_intersection; split; by apply elem_of_list_to_set).
    rewrite Hempty in Hx. by apply elem_of_empty in Hx.
Qed.

(** Whatever the order in which the sets are gone through,
    [check_connectivity] returns a result, and it is [True] exactly when
    every placement is reachable from the first one. *)
Lemma check_connectivity_with_spec (iter : gset nat → list nat)
    (placed : list placement) :
  (∀ (s : gset nat) x, x ∈ iter s ↔ x ∈ s) →
  ∃ b, check_connectivity_with iter placed = Ok b ∧ (b = true ↔ connected placed).
Proof.
  intros Hiter. unfold check_connectivity_with. case_bool_decide as Hlen.
  { exists true. split; [done|]. split; [|done]. intros _ i Hi.
    assert (i = 0)%nat as -> by lia. done. }
  destruct (build_adj_spec (cells_per_word placed)) as (adj & -> & Hadj).
  cbn [mbind result_bind].
  assert (length (cells_per_word placed) = length placed) as Hn
    by (unfold cells_per_word; by rewrite length_fmap).
  rewrite Hn in Hadj. set (n := length placed) in *.
  assert (∀ a, (a < n)%nat → ∃ s, adj !! a = Some s ∧ ∀ b, b ∈ s → (b < n)%nat) as Hnodes.
  { intros a Ha. destruct (Hadj a Ha) as (s & Hs & Hmem). exists s. split; [done|].
    intros b [[_ Hb]%meet_lt _]%Hmem. by rewrite Hn in Hb. }
  destruct (bfs_spec n adj iter Hnodes Hiter n {[0%nat]} ∅ [0%nat]) as (v & -> & Hv).
  { apply NoDup_singleton. }
  { set_solver. }
  { set_solver. }
  { intros x ->%elem_of_singleton. lia. }
  { by intros x ->%elem_of_singleton. }
  { by apply elem_of_singleton. }
  { by intros x y Hx%elem_of_empty. }
  { lia. }
  cbn [mbind result_bind]. eexists. split; [done|].
  assert (∀ x, x ∈ v ↔ (x < n)%nat ∧ rtc (overlaps placed) 0%nat x) as Hreach.
  { intros x. rewrite Hv. split.
    - revert x. apply rtc_ind_r; [split; [lia|done]|].
      intros a b _ (s & Hs & Hb) [Ha Hrtc].
      destruct (Hadj a Ha) as (s' & Hs' & Hmem). assert (s' = s) as -> by congruence.
      apply Hmem in Hb as [Hm _]. split.
      + apply meet_lt in Hm as [_ Hb]. by rewrite Hn in Hb.
      + eapply rtc_r; [done|]. by apply meet_overlaps.
    - intros [_ Hrtc]. revert x Hrtc. apply rtc_ind_r; [done|].
      intros a b Hrtc Hab Hreach.
      destruct (decide (a = b)) as [->|Hne]; [done|].
      eapply rtc_r; [done|].
      assert (a < n)%nat as Ha.
      { destruct Hab as (p & _ & _ & Hp%lookup_lt_Some & _). done. }
      destruct (Hadj a Ha) as (s & Hs & Hmem). exists s. split; [done|].
      apply Hmem. split; [by apply meet_overlaps|done]. }
  rewrite bool_decide_eq_true. unfold connected. fold n. split.
  - intros Hsize i Hi.
    assert (v = set_seq 0 n) as Heq.
    { apply set_subseteq_size_eq.
      - intros x [Hx _]%Hreach. apply elem_of_set_seq. lia.
      - rewrite size_set_seq. lia. }
    assert (i ∈ v) as [_ ?]%Hreach; [|done].
    rewrite Heq. apply elem_of_set_seq. lia.
  - intros Hall.
    assert (v = set_seq 0 n) as ->; [|apply size_set_seq].
    apply set_eq. intros x. rewrite Hreach, elem_of_set_seq. split.
    + intros [? _]. lia.
    + intros [_ ?]. split; [lia|]. apply Hall. lia.
Qed.

(** ** The shuffle *)

Lemma insert_swap_head {A} (l : list A) (j : nat) (a b : A) :
  l !! j = Some b → b :: <[j := a]> l ≡ₚ a :: l.
Proof.
  revert j. induction l as [|x l IH]; intros [|j]; cbn; try done.
  - intros [= ->]. apply perm_swap.
  - intros Hb. rewrite (perm_swap x b), (IH j Hb). apply perm_swap.
Qed.

Lemma insert_swap_perm {A} (l : list A) (i j : nat) (a b : A) :
  l !! i = Some a → l !! j = Some b → <[j := a]> (<[i := b]> l) ≡ₚ l.
Proof.
  revert i j. induction l as [|x l IH]; intros [|i] [|j]; cbn; try done.
  - by intros [= ->] [= ->].
  - intros [= ->] Hb. by apply insert_swap_head.
  - intros Ha [= ->]. symmetry. rewrite <- (insert_swap_head l i b a Ha). done.
  - intros Ha Hb. by rewrite (IH i j Ha Hb).
Qed.

Lemma swap_perm {A} (x x' : list A) (i j : Z) : swap x i j = Ok x' → x ≡ₚ x'.
Proof.
  unfold swap.
  destruct (py_index x j) as [xj| |] eqn:Hj; [|done..]. cbn [mbind result_bind].
  destruct (py_index x i) as [xi| |] eqn:Hi; [|done..]. cbn [mbind result_bind].
  apply py_index_inv in Hi as (i' & Hi' & Hseti).
  rewrite Hseti. cbn [mbind result_bind].
  unfold py_index in Hj. unfold py_setitem. rewrite length_insert.
  case_bool_decide; [done|].
  destruct (x !! _) eqn:Hj'; [|done]. injection Hj as ->.
  intros [= <-]. symmetry. by apply insert_swap_perm.
Qed.

Section random_facts.
Context {rng : Type} (randbelow : rng → Z → rng * Z).

Lemma shuffle_loop_perm {A} (idx : list Z) : ∀ (x : list A) s,
  x ≡ₚ (shuffle_loop randbelow idx x s).1.2.
Proof.
  induction idx as [|i idx IH]; intros x s; cbn [shuffle_loop]; [done|].
  destruct (randbelow s (i + 1)) as [s' j].
  destruct (swap x i j) as [x'| |] eqn:Hswap; [|done..].
  rewrite <- IH. by eapply swap_perm.
Qed.

Lemma shuffle_perm {A} (x : list A) s : x ≡ₚ (shuffle randbelow x s).1.2.
Proof. apply shuffle_loop_perm. Qed.
End random_facts.

(** ** The shuffle: where the items go *)

(** The swap of two items inside the list. *)
Lemma swap_inside {A} (x : list A) (i j : Z) :
  0 <= i < Z.of_nat (length x) → 0 <= j < Z.of_nat (length x) →
  ∃ xi xj,
    x !! Z.to_nat i = Some xi ∧ x !! Z.to_nat j = Some xj ∧
    swap x i j = Ok (<[Z.to_nat j := xi]> (<[Z.to_nat i := xj]> x)).
Proof.
  intros Hi Hj. unfold swap.
  destruct (py_index_nonneg x j Hj) as (xj & Hxj & ->).
  destruct (py_index_nonneg x i Hi) as (xi & Hxi & ->). cbn [mbind result_bind].
  rewrite (py_setitem_nonneg x i xj Hi). cbn [mbind result_bind].
  rewrite py_setitem_nonneg by (by rewrite length_insert).
  by exists xi, xj.
Qed.

Section shuffle_facts.
Context {rng : Type} (randbelow : rng → Z → rng * Z).
Hypothesis in_range : randbelow_in_range randbelow.

(** The swaps at the indices of [idx], all below [m], leave the item at
    [m] where it is. *)
Lemma shuffle_loop_above {A} (idx : list Z) (m : nat) : ∀ (x : list A) (s : rng),
  (∀ i, i ∈ idx → 0 <= i < Z.of_nat m) → (m < length x)%nat →
  (shuffle_loop randbelow idx x s).1.2 !! m = x !! m.
Proof.
  induction idx as [|i idx IH]; intros x s Hidx Hm; cbn [shuffle_loop]; [done|].
  pose proof (in_range s (i + 1)) as Hj.
  destruct (randbelow s (i + 1)) as [s1 j]. cbn [snd] in Hj.
  assert (0 <= i < Z.of_nat m) as Hi by (apply Hidx; left).
  destruct (swap_inside x i j) as (xi & xj & _ & _ & ->); [lia..|].
  rewrite IH.
  - rewrite !list_lookup_insert_ne by lia. done.
  - intros k Hk. apply Hidx. by right.
  - by rewrite !length_insert.
Qed.

(** [random.shuffle] puts at the last index the item of the index drawn
    first. *)
Lemma shuffle_last {A} (x : list A) (s : rng) :
  x ≠ [] →
  (shuffle randbelow x s).1.2 !! (length x - 1)%nat
  = x !! Z.to_nat (randbelow s (Z.of_nat (length x))).2.
Proof.
  intros Hx. unfold shuffle.
  destruct (length x) as [|[|n]] eqn:Hlen.
  - by destruct x.
  - pose proof (in_range s 1 ltac:(lia)) as Hj.
    change (Z.of_nat 1) with 1.
    replace ((randbelow s 1).2) with 0 by lia. done.
  - replace (Z.of_nat (S (S n)) - 1) with (Z.of_nat (S n)) by lia.
    rewrite seqZ_S, reverse_snoc. cbn [shuffle_loop].
    replace (1 + Z.of_nat n + 1) with (Z.of_nat (S (S n))) by lia.
    pose proof (in_range s (Z.of_nat (S (S n))) ltac:(lia)) as Hj.
    destruct (randbelow s (Z.of_nat (S (S n)))) as [s1 j]. cbn [snd] in *.
    destruct (swap_inside x (1 + Z.of_nat n) j) as (xi & xj & Hxi & Hxj & ->);
      [lia..|].
    replace (S (S n) - 1)%nat with (S n) by lia.
    replace (Z.to_nat (1 + Z.of_nat n)) with (S n) in * by lia.
    rewrite shuffle_loop_above.
    + destruct (decide (Z.to_nat j = S n)) as [Heq|Hne].
      * rewrite Heq in *.
        rewrite list_lookup_insert_eq by (rewrite length_insert; lia).
        congruence.
      * rewrite list_lookup_insert_ne by done.
        rewrite list_lookup_insert_eq by lia. done.
    + intros i Hi. apply elem_of_reverse, elem_of_seqZ in Hi. lia.
    + rewrite !length_insert. lia.
Qed.
End shuffle_facts.

(** ** The search: the pool and the generator *)

Section search_facts.
Context {rng : Type} (randbelow : rng → Z → rng * Z).

Lemma shuffle_at_run (p : positive) (st : gmap positive (list (list N))) s pool :
  st !! p = Some pool →
  shuffle_at randbelow p (st, s)
  = ((<[p := (shuffle randbelow pool s).1.2]> st, (shuffle randbelow pool s).1.1),
     (shuffle randbelow pool s).2).
Proof.
  intros Hp. unfold shuffle_at. rewrite Hp.
  by destruct (shuffle randbelow pool s) as [[s' x'] r].
Qed.

Lemma read_at_run (p : positive) (st : gmap positive (list (list N))) (s : rng) x :
  st !! p = Some x → read_at p (st, s) = ((st, s), Ok x).
Proof. intros Hp. unfold read_at. by rewrite Hp. Qed.

Lemma on_rng_run {A} (m : stateful rng A) (st : gmap positive (list (list N))) s :
  on_rng m (st, s) = ((st, (m s).1), (m s).2).
Proof. unfold on_rng. by destruct (m s). Qed.

(** What a call of the loop of [generate_puzzle] does to the store and to
    the generator depends on the words of the pool and on the state of the
    generator only: the pool is left holding a permutation [pool'] of its
    words, nothing else in the store changes. *)
Lemma attempts_shape (n : nat) size min_words min_letters :
  ∀ (pool : list (list N)) (s : rng) best best_score,
  ∃ pool' s' res,
    pool ≡ₚ pool' ∧
    (n = 0%nat → pool' = pool) ∧
    (n = 1%nat → pool' = (shuffle randbelow pool s).1.2) ∧
    ∀ (p : positive) (st : gmap positive (list (list N))),
      st !! p = Some pool →
      attempts randbelow n p size min_words min_letters best best_score (st, s)
      = ((<[p := pool']> st, s'), res).
Proof.
  induction n as [|n IH]; intros pool s best best_score.
  { exists pool, s, (Ok best). split_and!; [done..|]. intros p st Hp. cbn.
    by rewrite insert_id. }
  pose proof (shuffle_perm randbelow pool s) as Hperm.
  destruct (shuffle randbelow pool s) as [[s1 x1] r1] eqn:Hsh. cbn [fst snd] in Hperm.
  assert (∀ (p : positive) (st : gmap positive (list (list N))),
            st !! p = Some pool →
            attempts randbelow (S n) p size min_words min_letters best best_score (st, s)
            = match r1 with
              | Ok _ =>
                  match attempt randbelow x1 size s1 with
                  | (s2, Ok None) =>
                      attempts randbelow n p size min_words min_letters best best_score
                        (<[p := x1]> st, s2)
                  | (s2, Ok (Some (g, placed))) =>
                      match acceptable g placed min_words min_letters with
                      | Ok ok =>
                          if ok && bool_decide
                                     (Z.of_nat (length placed) * 10 + count_letters g
                                      > best_score)
                          then
                            if bool_decide (Z.of_nat (length placed) >= min_words + 4)
                            then ((<[p := x1]> st, s2), Ok (Some (g, placed)))
                            else attempts randbelow n p size min_words min_letters
                                   (Some (g, placed))
                                   (Z.of_nat (length placed) * 10 + count_letters g)
                                   (<[p := x1]> st, s2)
                          else attempts randbelow n p size min_words min_letters
                                 best best_score (<[p := x1]> st, s2)
                      | Raise e => ((<[p := x1]> st, s2), Raise e)
                      | OutOfFuel => ((<[p := x1]> st, s2), OutOfFuel)
                      end
                  | (s2, Raise e) => ((<[p := x1]> st, s2), Raise e)
                  | (s2, OutOfFuel) => ((<[p := x1]> st, s2), OutOfFuel)
                  end
              | Raise e => ((<[p := x1]> st, s1), Raise e)
              | OutOfFuel => ((<[p := x1]> st, s1), OutOfFuel)
              end) as Hstep.
  { intros p st Hp. cbn [attempts]. unfold mbind, stateful_bind.
    rewrite (shuffle_at_run p st s pool Hp), Hsh. cbn [fst snd].
    destruct r1 as [[]| |]; [|done..].
    rewrite (read_at_run p _ s1 x1) by apply lookup_insert_eq.
    rewrite on_rng_run.
    destruct (attempt randbelow x1 size s1) as [s2 [[[g placed]|]| |]]; cbn [fst snd];
      [|done..].
    unfold pure. destruct (acceptable g placed min_words min_letters) as [ok| |];
      [|done..].
    destruct (ok && bool_decide _); [|done].
    by destruct (bool_decide _). }
  destruct r1 as [[]| |];
    [|exists x1, s1, (Raise e); split_and!; [done..|]; intros p st Hp; by rewrite Hstep
     |exists x1, s1, OutOfFuel; split_and!; [done..|]; intros p st Hp; by rewrite Hstep].
  destruct (attempt randbelow x1 size s1) as [s2 [[[g placed]|]| |]] eqn:Hatt.
  - destruct (acceptable g placed min_words min_letters) as [ok| |] eqn:Hacc.
    + destruct (ok && bool_decide
                  (Z.of_nat (length placed) * 10 + count_letters g > best_score))
        eqn:Hbetter;
        [destruct (bool_decide (Z.of_nat (length placed) >= min_words + 4)) eqn:Hbreak|].
      * exists x1, s2, (Ok (Some (g, placed))). split_and!; [done..|].
        intros p st Hp. by rewrite Hstep.
      * destruct (IH x1 s2 (Some (g, placed))
                    (Z.of_nat (length placed) * 10 + count_letters g))
          as (pool' & s' & res & Hperm' & H0 & _ & Hrun).
        exists pool', s', res. split_and!; [by etrans|done|intros [= ->]; by apply H0|].
        intros p st Hp. rewrite Hstep by done.
        rewrite (Hrun p (<[p := x1]> st)) by apply lookup_insert_eq.
        by rewrite insert_insert_eq.
      * destruct (IH x1 s2 best best_score) as (pool' & s' & res & Hperm' & H0 & _ & Hrun).
        exists pool', s', res. split_and!; [by etrans|done|intros [= ->]; by apply H0|].
        intros p st Hp. rewrite Hstep by done.
        rewrite (Hrun p (<[p := x1]> st)) by apply lookup_insert_eq.
        by rewrite insert_insert_eq.
    + exists x1, s2, (Raise e). split_and!; [done..|]. intros p st Hp. by rewrite Hstep.
    + exists x1, s2, OutOfFuel. split_and!; [done..|]. intros p st Hp. by rewrite Hstep.
  - destruct (IH x1 s2 best best_score) as (pool' & s' & res & Hperm' & H0 & _ & Hrun).
    exists pool', s', res. split_and!; [by etrans|done|intros [= ->]; by apply H0|].
    intros p st Hp. rewrite Hstep by done.
    rewrite (Hrun p (<[p := x1]> st)) by apply lookup_insert_eq.
    by rewrite insert_insert_eq.
  - exists x1, s2, (Raise e). split_and!; [done..|]. intros p st Hp. by rewrite Hstep.
  - exists x1, s2, OutOfFuel. split_and!; [done..|]. intros p st Hp. by rewrite Hstep.
Qed.

(** C9: two invocations of the search on pools that hold the same words,
    with the same grid size, thresholds and attempt budget, from the same
    state of the random generator, return the same result (the same grid
    and the same list of placed words, or the same failure), and leave the
    generator in the same state and the two pools with the same contents. *)
Theorem generate_puzzle_reproducible (p1 p2 : positive)
    (st1 st2 : gmap positive (list (list N))) (s : rng) (pool : list (list N))
    size min_words min_letters max_attempts :
  st1 !! p1 = Some pool → st2 !! p2 = Some pool →
  let run1 :=
    generate_puzzle randbelow p1 size min_words min_letters max_attempts (st1, s) in
  let run2 :=
    generate_puzzle randbelow p2 size min_words min_letters max_attempts (st2, s) in
  run1.2 = run2.2 ∧ run1.1.2 = run2.1.2 ∧ run1.1.1 !! p1 = run2.1.1 !! p2.
Proof.
  intros Hp1 Hp2. cbn zeta. unfold generate_puzzle.
  destruct (attempts_shape (Z.to_nat max_attempts) size min_words min_letters
              pool s None 0) as (pool' & s' & res & _ & _ & _ & Hrun).
  rewrite (Hrun p1 st1 Hp1), (Hrun p2 st2 Hp2). cbn [fst snd].
  by rewrite !lookup_insert_eq.
Qed.

Lemma generate_puzzle_frame (p : positive) (st : gmap positive (list (list N)))
    (s : rng) (pool : list (list N)) size min_words min_letters max_attempts :
  st !! p = Some pool →
  ∃ pool' s' res,
    pool ≡ₚ pool' ∧
    generate_puzzle randbelow p size min_words min_letters max_attempts (st, s)
    = ((<[p := pool']> st, s'), res).
Proof.
  intros Hp. unfold generate_puzzle.
  destruct (attempts_shape (Z.to_nat max_attempts) size min_words min_letters
              pool s None 0) as (pool' & s' & res & Hperm & _ & _ & Hrun).
  exists pool', s', res. split; [done|]. by apply Hrun.
Qed.

(** The driver searches on a copy: the lists the store held are left as
    they were. *)
Lemma generate_day_frame (p : positive) (st : gmap positive (list (list N)))
    (s : rng) size min_words min_letters attempts l x :
  st !! l = Some x →
  (generate_day randbelow p size min_words min_letters attempts (st, s)).1.1 !! l
  = Some x.
Proof.
  intros Hl. unfold generate_day, mbind, stateful_bind, copy_list.
  destruct (st !! p) as [pool|] eqn:Hp; [|done].
  set (l' := fresh (dom st)).
  assert (st !! l' = None) as Hfresh by apply not_elem_of_dom, is_fresh.
  assert (l ≠ l') as Hne by congruence.
  destruct (generate_puzzle_frame l' (<[l' := pool]> st) s pool size min_words
              min_letters attempts) as (pool1 & s1 & res1 & _ & ->);
    [apply lookup_insert_eq|].
  rewrite insert_insert_eq.
  destruct res1 as [[[g placed]|]| |]; cbn [fst snd].
  - unfold pure. destruct (format_puzzle g placed size);
      cbn [fst snd mret stateful_ret]; by rewrite lookup_insert_ne.
  - destruct (generate_puzzle_frame l' (<[l' := pool1]> st) s1 pool1 size
                (Z.max 3 (min_words - 3)) (Z.max 12 (min_letters - 10))
                (attempts * 2)) as (pool2 & s2 & res2 & _ & ->);
      [apply lookup_insert_eq|].
    rewrite insert_insert_eq.
    destruct res2 as [[[g placed]|]| |]; cbn [fst snd];
      [unfold pure; destruct (format_puzzle g placed size)|..];
      cbn [fst snd mret stateful_ret]; by rewrite lookup_insert_ne.
  - by rewrite lookup_insert_ne.
  - by rewrite lookup_insert_ne.
Qed.

(** The attempts that the loop makes, with the list and the generator as
    they go from one attempt to the next. *)
Lemma attempts_trace (n : nat) size min_words min_letters :
  ∀ (p : positive) (st st' : gmap positive (list (list N))) (s s' : rng)
    pool best best_score res,
  st !! p = Some pool →
  attempts randbelow n p size min_words min_letters best best_score (st, s)
  = ((st', s'), Ok res) →
  ∃ k pool',
    (k ≤ n)%nat ∧ shuffled_each_attempt randbelow size k pool s pool' s' ∧
    st' = <[p := pool']> st ∧
    (k = n ∨ ∃ g placed, res = Some (g, placed) ∧
                         Z.of_nat (length placed) >= min_words + 4).
Proof.
  induction n as [|n IH]; intros p st st' s s' pool best best_score res Hp;
    cbn [attempts].
  { intros [= <- <- <-]. exists 0%nat, pool. split_and!; [done|constructor| |by left].
    by rewrite insert_id. }
  unfold mbind, stateful_bind.
  rewrite (shuffle_at_run p st s pool Hp).
  destruct (shuffle randbelow pool s) as [[s1 x1] r1] eqn:Hsh. cbn [fst snd].
  destruct r1 as [[]| |]; [|done..].
  rewrite (read_at_run p _ s1 x1) by apply lookup_insert_eq.
  rewrite on_rng_run.
  destruct (attempt randbelow x1 size s1) as [s2 [out| |]] eqn:Hatt;
    cbn [fst snd]; [|done..].
  assert (Hlater : ∀ best best_score,
            attempts randbelow n p size min_words min_letters best best_score
              (<[p := x1]> st, s2) = ((st', s'), Ok res) →
            ∃ k pool',
              (k ≤ S n)%nat ∧ shuffled_each_attempt randbelow size k pool s pool' s' ∧
              st' = <[p := pool']> st ∧
              (k = S n ∨ ∃ g placed, res = Some (g, placed) ∧
                                     Z.of_nat (length placed) >= min_words + 4)).
  { intros b bs Hrun.
    apply (IH p _ st' s2 s' x1) in Hrun
      as (k & pool' & Hk & Htrace & -> & Hend); [|apply lookup_insert_eq].
    exists (S k), pool'. split_and!.
    - lia.
    - econstructor; [exact Hsh|exact Hatt|exact Htrace].
    - by rewrite insert_insert_eq.
    - destruct Hend as [->|Hend]; [by left|by right]. }
  destruct out as [[g placed]|]; [|by apply Hlater].
  unfold pure.
  destruct (acceptable g placed min_words min_letters) as [ok| |]; [|done..].
  destruct (ok && bool_decide _); [|by apply Hlater].
  case_bool_decide as Hbreak; [|by apply Hlater].
  intros [= <- <- <-]. exists 1%nat, x1. split_and!; [lia| |done|].
  - econstructor; [exact Hsh|exact Hatt|constructor].
  - right. by exists g, placed.
Qed.

(** C10: [generate_puzzle] shuffles the list it is given, in place, at the
    start of every attempt.  After the call the caller's list holds the
    same words in a permuted order: after a call of one attempt, the order
    that [random.shuffle] gave; after a call that returns, the order left
    by as many shuffles as attempts were made, each one of the list as the
    attempt before left it and followed by the attempt on the shuffled
    list, all the attempts of the budget being made unless the search
    stopped on a puzzle of [min_words + 4] words or more.  The shuffle moves
    the words: with draws in range it puts at the last index the word of
    the index drawn first.  No other list of the store has changed; the
    driver calls the search on a copy of the module-level list, which is
    therefore left as it was. *)
Theorem generate_puzzle_shuffles_pool_in_place (p : positive)
    (st : gmap positive (list (list N))) (s : rng) (pool : list (list N))
    size min_words min_letters max_attempts :
  st !! p = Some pool →
  let run :=
    generate_puzzle randbelow p size min_words min_letters max_attempts (st, s) in
  (∃ pool', run.1.1 !! p = Some pool' ∧ pool ≡ₚ pool' ∧
            (max_attempts = 1 → pool' = (shuffle randbelow pool s).1.2) ∧
            (∀ res, run.2 = Ok res →
               ∃ k, (k ≤ Z.to_nat max_attempts)%nat ∧
                    shuffled_each_attempt randbelow size k pool s pool' run.1.2 ∧
                    (k = Z.to_nat max_attempts
                     ∨ ∃ g placed, res = Some (g, placed) ∧
                         Z.of_nat (length placed) >= min_words + 4))) ∧
  (randbelow_in_range randbelow →
   ∀ (x : list (list N)) (t : rng), x ≠ [] →
     (shuffle randbelow x t).1.2 !! (length x - 1)%nat
     = x !! Z.to_nat (randbelow t (Z.of_nat (length x))).2) ∧
  (∀ l, l ≠ p → run.1.1 !! l = st !! l) ∧
  (generate_day randbelow p size min_words min_letters max_attempts (st, s)).1.1 !! p
  = Some pool.
Proof.
  intros Hp. cbn zeta. unfold generate_puzzle.
  destruct (attempts_shape (Z.to_nat max_attempts) size min_words min_letters
              pool s None 0) as (pool' & s' & res & Hperm & _ & H1 & Hrun).
  pose proof (Hrun p st Hp) as Hrun'. rewrite Hrun'. cbn [fst snd]. split_and!.
  - exists pool'. rewrite lookup_insert_eq. split_and!; [done..| |].
    + intros ->. by apply H1.
    + intros res0 ->.
      apply (attempts_trace _ _ _ _ _ _ _ _ _ pool) in Hrun'
        as (k & pool'' & Hk & Htrace & Hst & Hend); [|done].
      assert (pool'' = pool') as ->.
      { apply (f_equal (λ m, m !! p)) in Hst. rewrite !lookup_insert_eq in Hst.
        congruence. }
      by exists k.
  - intros Hin x t Hx. by apply shuffle_last.
  - intros l Hl. by rewrite lookup_insert_ne.
  - by apply generate_day_frame.
Qed.

(** The puzzle the loop returns is [best] as it was given, or a puzzle that
    an attempt built and that passed the test of the thresholds and of
    connectivity. *)
Lemma attempts_accepted (n : nat) size min_words min_letters :
  ∀ (p : positive) (st st' : gmap positive (list (list N))) (s s' : rng)
    best best_score g placed,
  attempts randbelow n p size min_words min_letters best best_score (st, s)
  = ((st', s'), Ok (Some (g, placed))) →
  best = Some (g, placed)
  ∨ ∃ pool s1 s2,
      attempt randbelow pool size s1 = (s2, Ok (Some (g, placed))) ∧
      acceptable g placed min_words min_letters = Ok true.
Proof.
  induction n as [|n IH]; intros p st st' s s' best best_score g placed;
    cbn [attempts].
  { intros [= <- <- ->]. by left. }
  unfold mbind, stateful_bind.
  destruct (shuffle_at randbelow p (st, s)) as [[st1 s1] [[]| |]]; [|done..].
  destruct (read_at p (st1, s1)) as [[st2 s2] [pool| |]]; [|done..].
  rewrite on_rng_run.
  destruct (attempt randbelow pool size s2) as [s3 [[[g' placed']|]| |]] eqn:Hatt;
    cbn [fst snd]; [|by apply IH|done..].
  unfold pure.
  destruct (acceptable g' placed' min_words min_letters) as [ok| |] eqn:Hacc;
    [|done..].
  destruct ok; cbn [andb]; [|by apply IH].
  destruct (bool_decide _); [|by apply IH].
  destruct (bool_decide _).
  - intros [= <- <- <- <-]. right. by exists pool, s2, s3.
  - intros [[= <- <-]|Hlater]%IH; [|by right]. right. by exists pool, s2, s3.
Qed.

Lemma acceptable_connected (g : list (list N))
    (placed : list (list N * Z * Z * direction)) min_words min_letters :
  acceptable g placed min_words min_letters = Ok true → connected placed.
Proof.
  unfold acceptable. destruct (_ && _); [|done].
  unfold check_connectivity. intros Hcheck.
  destruct (check_connectivity_with_spec elements placed) as (b & Hb & Hconn).
  { intros s0 x. apply elem_of_elements. }
  apply Hconn. congruence.
Qed.

Lemma choice_elem_of {A} (l : list A) (s s' : rng) (x : A) :
  choice randbelow l s = (s', Ok x) → x ∈ l.
Proof.
  unfold choice. destruct l as [|a l]; [done|].
  destruct (randbelow s _) as [s1 j]. intros [= _ Hx]. by eapply py_index_elem_of.
Qed.

Lemma fold_stateful_inv {S A B} (I : B → Prop) (body : B → A → stateful S B)
    (l : list A) :
  (∀ b x s s' b', I b → body b x s = (s', Ok b') → I b') →
  ∀ b s s' b', I b → fold_stateful body l b s = (s', Ok b') → I b'.
Proof.
  intros Hbody. induction l as [|x l IH]; intros b s s' b' Hb; cbn [fold_stateful].
  { by intros [= <- <-]. }
  unfold mbind, stateful_bind.
  destruct (body b x s) as [s1 [b1| |]] eqn:Hx; [|done..].
  apply IH. by eapply Hbody.
Qed.

Lemma place_next_inv size st word (s s' : rng) st' :
  search_inv size st → place_next randbelow size st word s = (s', Ok st') →
  search_inv size st'.
Proof.
  destruct st as [[[g ws] placed] still]. intros (Hwf & Hws & Hghosts).
  unfold place_next. case_bool_decide; [by intros [= <- <-]|].
  case_bool_decide; [by intros [= <- <-]|].
  unfold mbind, stateful_bind, pure.
  destruct (find_all_placements_spec g word ws size Hwf) as (found & -> & Hfound).
  destruct found as [|cand found]; [by intros [= <- <-]|].
  destruct (choice randbelow (cand :: found) s) as [s1 [[[[r c] d] g']| |]] eqn:Hch;
    [|done..].
  intros [= <- <-].
  apply choice_elem_of, Hfound in Hch as (_ & _ & _ & _ & _ & Hwf' & _ & Hno).
  split_and!; [done| |done].
  intros t. rewrite elem_of_union, elem_of_singleton, Hws, fmap_app, elem_of_app.
  cbn. rewrite list_elem_of_singleton. done.
Qed.

Lemma one_pass_inv size st pass_num (s s' : rng) st' :
  search_inv size st → one_pass randbelow size st pass_num s = (s', Ok st') →
  search_inv size st'.
Proof.
  destruct st as [[[g ws] placed] remaining]. intros Hinv.
  unfold one_pass, mbind, stateful_bind.
  destruct (shuffled randbelow remaining s) as [s1 [remaining'| |]]; [|done..].
  apply (fold_stateful_inv (search_inv size)); [|done].
  intros b x s0 s0' b'. apply place_next_inv.
Qed.

(** What an attempt returns: a well-formed grid and, when more than one
    word was placed, no run of two letters or more whose text is not the
    text of a placed word. *)
Lemma attempt_inv (pool : list (list N)) size (s s' : rng) g placed :
  0 <= size → attempt randbelow pool size s = (s', Ok (Some (g, placed))) →
  wf_grid g size ∧
  ((2 ≤ length placed)%nat →
   ∀ p, is_run g p → 2 <= Z.of_nat (length (text p)) → text p ∈ text <$> placed).
Proof.
  intros Hsize. unfold attempt, mbind at 1 2, stateful_bind, pure.
  destruct (py_index pool 0) as [first| |]; [|done..].
  destruct (try_place_spec (make_grid size) first (size `div` 2)
              (Z.max 0 ((size - Z.of_nat (length first)) `div` 2)) horizontal size)
    as [(_ & _ & g0 & -> & Hwf0 & _)|(_ & ->)];
    [by apply wf_make_grid|by apply Z.div_pos|lia| |done].
  unfold mbind, stateful_bind.
  destruct (fold_stateful _ _ _ s) as [s1 [st| |]] eqn:Hfold; [|done..].
  intros [= <- <- <-].
  eapply (fold_stateful_inv (search_inv size)) in Hfold.
  - destruct st as [[[g ws] placed] remaining]. destruct Hfold as (Hwf & Hws & Hno).
    split; [done|]. intros Hlen p Hrun Hl. apply Hws. by apply Hno.
  - intros b x s0 s0' b'. apply one_pass_inv.
  - split_and!; [done| |cbn; lia].
    intros t. rewrite elem_of_singleton. cbn. by rewrite list_elem_of_singleton.
Qed.

(** What the search guarantees of the puzzle it returns: the grid is
    well-formed, the placed words are connected and, when there are two or
    more, every run of two letters or more spells a word that was placed
    (which the cleanup may since have dropped). *)
Lemma generate_puzzle_inv (p : positive) (st st' : gmap positive (list (list N)))
    (s s' : rng) size min_words min_letters max_attempts g placed :
  0 <= size →
  generate_puzzle randbelow p size min_words min_letters max_attempts (st, s)
  = ((st', s'), Ok (Some (g, placed))) →
  wf_grid g size ∧ connected placed ∧
  ((2 ≤ length placed)%nat →
   ∀ q, is_run g q → 2 <= Z.of_nat (length (text q)) → text q ∈ text <$> placed).
Proof.
  intros Hsize Hrun.
  apply attempts_accepted in Hrun as [[=]|(pool & s1 & s2 & Hatt & Hacc)].
  destruct (attempt_inv pool size s1 s2 g placed Hsize Hatt) as [Hwf Hruns].
  split_and!; [done| |done]. by eapply acceptable_connected.
Qed.

(** C3: [check_connectivity] returns [True] for 0 or 1 placements, and in
    general returns [True] exactly when every placement is reachable from
    the first one in the graph that joins two placements whose cell sets
    intersect; hence the placements of every puzzle that [generate_puzzle]
    returns are connected in this graph. *)
Theorem check_connectivity_reachability :
  (∀ placed : list (list N * Z * Z * direction),
     ∃ b, check_connectivity placed = Ok b ∧
          ((length placed ≤ 1)%nat → b = true) ∧
          (b = true ↔ connected placed)) ∧
  (∀ (p : positive) (st st' : gmap positive (list (list N))) (s s' : rng)
     size min_words min_letters max_attempts g placed,
     generate_puzzle randbelow p size min_words min_letters max_attempts (st, s)
     = ((st', s'), Ok (Some (g, placed))) →
     connected placed).
Proof.
  split.
  - intros placed.
    destruct (check_connectivity_with_spec elements placed) as (b & Hb & Hconn).
    { intros s0 x. apply elem_of_elements. }
    exists b. split_and!; [done| |done].
    intros Hlen. apply Hconn. intros i Hi. assert (i = 0)%nat as -> by lia. done.
  - intros p st st' s s' size min_words min_letters max_attempts g placed Hrun.
    apply attempts_accepted in Hrun as [[=]|(pool & s1 & s2 & _ & Hacc)].
    by eapply acceptable_connected.
Qed.

End search_facts.

(** ** The search on a pool of four words *)

Lemma generate_puzzle_ab :
  generate_puzzle replay 1%positive 5 4 6 1 (store_ab, draws_ab)
  = ((store_ab, []), Ok (Some (grid_ab, placed_ab))).
Proof. vm_compute. reflexivity. Qed.

(** C1 at the failing input: from the pool [AB, ABA, BA, BAC], on a 5x5
    grid with thresholds of 4 words and 6 letters, the search returns a
    puzzle as valid; [BAC] was placed over [BA] on row 3, so the cleanup
    drops [BA] from the words, while its letters still make the run [BA] of
    column 2: the runs of the final grid are [AB], [BAC], [ABA] and [BA],
    the words of the output are [AB], [ABA] and [BAC]. *)
Theorem search_output_keeps_ghost_run :
  ∃ st' s' g placed words,
    generate_puzzle replay 1%positive 5 4 6 1 (store_ab, draws_ab)
    = ((st', s'), Ok (Some (g, placed))) ∧
    format_puzzle g placed 5 = Ok (g, words) ∧
    find_all_runs g 5 = Ok [lit "AB"; lit "BAC"; lit "ABA"; lit "BA"] ∧
    text <$> words = [lit "AB"; lit "ABA"; lit "BAC"] ∧
    lit "BA" ∉ text <$> words.
Proof.
  exists store_ab, [], grid_ab, placed_ab,
    [ (lit "AB", 2, 1, horizontal); (lit "ABA", 2, 1, vertical);
      (lit "BAC", 3, 1, horizontal) ].
  split; [apply generate_puzzle_ab|].
  split; [vm_compute; reflexivity|].
  split; [vm_compute; reflexivity|].
  split; [reflexivity|].
  intros Hin. repeat (apply elem_of_cons in Hin as [Hin|Hin]; [discriminate Hin|]).
  by apply elem_of_nil in Hin.
Qed.

Lemma find_all_placements_exact_witness :
  ∃ found,
    find_all_placements grid_mal (lit "AJO") ∅ 7 = Ok found ∧
    ∀ r c d g', (r, c, d, g') ∈ found ↔ legal grid_mal (lit "AJO") ∅ 7 (r, c, d, g').
Proof.
  apply (find_all_placements_exact grid_mal (lit "AJO") ∅ 7 wf_grid_mal).
  discriminate.
Defined.

Lemma check_connectivity_reachability_witness : connected placed_ab.
Proof.
  exact (proj2 (check_connectivity_reachability replay) 1%positive
           store_ab store_ab draws_ab [] 5 4 6 1 grid_ab placed_ab
           generate_puzzle_ab).
Defined.

Lemma generate_puzzle_reproducible_witness :
  let run1 := generate_puzzle replay 1%positive 5 4 6 1 (store_ab, draws_ab) in
  let run2 :=
    generate_puzzle replay 2%positive 5 4 6 1
      ({[ 2%positive := pool_ab ]} : gmap positive (list (list N)), draws_ab) in
  run1.2 = run2.2 ∧ run1.1.2 = run2.1.2
  ∧ run1.1.1 !! 1%positive = run2.1.1 !! 2%positive.
Proof.
  apply (generate_puzzle_reproducible replay 1%positive 2%positive store_ab
           {[ 2%positive := pool_ab ]} draws_ab pool_ab 5 4 6 1);
    vm_compute; reflexivity.
Defined.

Lemma draw_zero_in_range : randbelow_in_range draw_zero.
Proof. intros s n Hn. cbn. lia. Qed.

Lemma generate_puzzle_shuffles_pool_in_place_witness :
  let run := generate_puzzle draw_zero 1%positive 5 4 6 2 (store_ab, ()) in
  (shuffle draw_zero pool_ab ()).1.2 = [lit "ABA"; lit "BA"; lit "BAC"; lit "AB"] ∧
  run.1.1 !! 1%positive = Some [lit "BA"; lit "BAC"; lit "AB"; lit "ABA"] ∧
  shuffled_each_attempt draw_zero 5 2 pool_ab ()
    [lit "BA"; lit "BAC"; lit "AB"; lit "ABA"] () ∧
  [lit "BA"; lit "BAC"; lit "AB"; lit "ABA"] !! 3%nat = pool_ab !! 1%nat ∧
  (∀ l, l ≠ 1%positive → run.1.1 !! l = store_ab !! l) ∧
  (generate_day draw_zero 1%positive 5 4 6 2 (store_ab, ())).1.1 !! 1%positive
  = Some pool_ab.
Proof.
  destruct (generate_puzzle_shuffles_pool_in_place draw_zero 1%positive store_ab
              () pool_ab 5 4 6 2 eq_refl)
    as ((pool' & Hpool' & _ & _ & Htrace) & Hlast & Hframe & Hday).
  assert (pool' = [lit "BA"; lit "BAC"; lit "AB"; lit "ABA"]) as ->.
  { vm_compute in Hpool'. by injection Hpool'. }
  destruct (Htrace _ eq_refl) as (k & Hk & Hsteps & Hend).
  assert (k = 2%nat) as ->.
  { destruct Hend as [->|(g & placed & Hres & Hlen)]; [done|].
    vm_compute in Hres. injection Hres as _ <-. cbn in Hlen. lia. }
  split; [vm_compute; reflexivity|]. split; [exact Hpool'|].
  split; [exact Hsteps|]. split; [|by split].
  exact (Hlast draw_zero_in_range [lit "ABA"; lit "BA"; lit "BAC"; lit "AB"] ()
           ltac:(discriminate)).
Defined.

(** With the draws 0, 0, 0 the shuffle of [generate_puzzle] moves the words
    of the caller's list: the mutation is visible to the caller. *)
Lemma generate_puzzle_reorders_pool :
  (generate_puzzle replay 1%positive 5 4 6 1 (store_ab, [0; 0; 0])).1.1 !! 1%positive
  = Some [lit "ABA"; lit "BA"; lit "BAC"; lit "AB"].
Proof. vm_compute. reflexivity. Qed.

(** The same failure from the pool word [NXËNË] alone, with thresholds of
    one word and one letter: its letter [X] is read as an empty cell, the
    grid has the run [ËNË] and the cleanup leaves no word. *)
Lemma search_output_of_seed_with_X :
  ∃ g placed,
    generate_puzzle replay 1%positive 7 1 1 1
      ({[ 1%positive := [NXENE] ]} : gmap positive (list (list N)), [])
    = (({[ 1%positive := [NXENE] ]}, []), Ok (Some (g, placed))) ∧
    placed = [(NXENE, 3, 1, horizontal)] ∧
    format_puzzle g placed 7 = Ok (g, []) ∧
    find_all_runs g 7 = Ok [[E_diaeresis; chr "N"; E_diaeresis]].
Proof.
  eexists _, _. split; [vm_compute; reflexivity|].
  split; [reflexivity|]. split; vm_compute; reflexivity.
Qed.

(** * Further properties *)

(** ** The empty grid *)

Lemma make_grid_cell size r c :
  inside size r c → cell (make_grid size) r c = Some X.
Proof.
  intros [Hr Hc]. unfold cell, make_grid, range.
  rewrite bool_decide_eq_true_2 by lia.
  rewrite list_lookup_fmap.
  rewrite (lookup_seqZ_lt 0 size (Z.to_nat r)) by lia. cbn.
  apply lookup_replicate_2. lia.
Qed.

Lemma filter_letters_nil (l : list N) :
  Forall (λ x, x = X) l → filter (λ x, x ≠ X) l = [].
Proof.
  induction 1 as [|x l Hx _ IH]; [done|].
  rewrite filter_cons_False; [done|]. by intros ?.
Qed.

Lemma make_grid_all_X size : Forall (λ x, x = X) (concat (make_grid size)).
Proof.
  unfold make_grid. apply Forall_concat, Forall_fmap, Forall_forall.
  intros r _. cbn. apply Forall_replicate. done.
Qed.

(** X1: [make_grid(size)] is the empty grid: it has [size] rows of [size]
    cells, every cell holds the marker ["X"], [count_letters] counts no
    letter on it and [find_all_runs] finds no run. *)
Theorem make_grid_is_empty size :
  0 <= size →
  wf_grid (make_grid size) size ∧
  (∀ r c, inside size r c → cell (make_grid size) r c = Some X) ∧
  count_letters (make_grid size) = 0 ∧
  find_all_runs (make_grid size) size = Ok [].
Proof.
  intros Hsize. split_and!.
  - by apply wf_make_grid.
  - apply make_grid_cell.
  - unfold count_letters.
    by rewrite (filter_letters_nil _ (make_grid_all_X size)).
  - destruct (scan_spec (make_grid size) size (wf_make_grid size Hsize))
      as (R & HR & Hmem & _).
    unfold find_all_runs. rewrite HR. cbn.
    destruct R as [|[[[s r] c] d] R]; [done|]. exfalso.
    destruct (Hmem (s, r, c, d)) as [[Hrun Hlen] _]; [left|].
    cbn in Hlen. destruct Hrun as (_ & Hcells & _).
    destruct s as [|x s]; [cbn in Hlen; lia|].
    destruct (Hcells 0%nat x eq_refl) as [Hcell Hx].
    change (Z.of_nat 0) with 0 in Hcell.
    destruct (decide (inside size (cell_row r d 0) (cell_col c d 0))) as [Hin|Hout].
    + rewrite (make_grid_cell _ _ _ Hin) in Hcell. congruence.
    + rewrite (wf_cell_outside _ size _ _ (wf_make_grid size Hsize) Hout) in Hcell.
      done.
Qed.

Lemma make_grid_is_empty_witness :
  wf_grid (make_grid 7) 7 ∧
  (∀ r c, inside 7 r c → cell (make_grid 7) r c = Some X) ∧
  count_letters (make_grid 7) = 0 ∧
  find_all_runs (make_grid 7) 7 = Ok [].
Proof. apply (make_grid_is_empty 7). lia. Defined.

(** ** Accepted placements *)

(** X2: On a grid of [size] rows of [size] cells, at a row and a column that
    are not negative, [try_place] returns without raising; it rejects the
    placement exactly when a letter falls outside the grid or on a cell that
    holds a different letter, and otherwise returns a grid of the same shape
    that has the letters of the word on the cells of the placement and the
    cells of the input grid everywhere else. *)
Theorem try_place_accepts_iff (g : list (list N)) (word : list N) row col d size :
  wf_grid g size → 0 <= row → 0 <= col →
  ∃ res,
    try_place g word row col d size = Ok res ∧
    (res = None ↔ ¬ (fits size word row col d ∧ no_conflict g word row col d)) ∧
    (∀ g', res = Some g' → wf_grid g' size ∧ overlay g word row col d g').
Proof.
  intros Hwf Hrow Hcol.
  destruct (try_place_spec g word row col d size Hwf Hrow Hcol)
    as [(Hfits & Hnc & g' & Hrun & Hwf' & Hov)|[Hno Hrun]].
  - exists (Some g'). split; [done|]. split.
    + split; [done|]. intros Hno. by destruct Hno.
    + intros g'' [= <-]. done.
  - exists None. split; [done|]. split; [done|]. intros g' [=].
Qed.

Lemma try_place_accepts_iff_witness :
  ∃ res,
    try_place grid_mal (lit "AJO") 3 3 vertical 7 = Ok res ∧
    (res = None ↔ ¬ (fits 7 (lit "AJO") 3 3 vertical
                     ∧ no_conflict grid_mal (lit "AJO") 3 3 vertical)) ∧
    (∀ g', res = Some g' →
           wf_grid g' 7 ∧ overlay grid_mal (lit "AJO") 3 3 vertical g').
Proof.
  apply (try_place_accepts_iff grid_mal (lit "AJO") 3 3 vertical 7 wf_grid_mal); lia.
Defined.

(** X3: An accepted placement keeps every letter of the grid it was given:
    a cell that holds a value other than the marker ["X"] holds the same
    value in the grid that [try_place] (or [place_word], the same body on a
    grid of side 7) returns. *)
Theorem accepted_placement_keeps_letters (g g' : list (list N)) (word : list N)
    row col d size r c v :
  try_place g word row col d size = Ok (Some g')
  ∨ place_word g word row col d = Ok (Some g') →
  cell g r c = Some v → v ≠ X → cell g' r c = Some v.
Proof.
  intros [Hrun|Hrun] Hcell Hv.
  - by apply (try_place_keeps g g' word row col d size).
  - by apply (try_place_keeps g g' word row col d GRID_SIZE).
Qed.

Lemma accepted_placement_keeps_letters_witness :
  ∃ g', place_word grid_mal (lit "AJO") 3 3 vertical = Ok (Some g') ∧
        cell g' 3 2 = Some (chr "M").
Proof.
  eexists. split; [vm_compute; reflexivity|].
  apply (accepted_placement_keeps_letters grid_mal _ (lit "AJO") 3 3 vertical 7
           3 2 (chr "M")); [right; vm_compute; reflexivity|reflexivity|discriminate].
Defined.

(** The letters of a list of cells. *)
Lemma letters_insert (l : list N) (j : nat) (old ch : N) :
  l !! j = Some old → old = X ∨ old = ch →
  (length (filter (λ x, x ≠ X) l) ≤ length (filter (λ x, x ≠ X) (<[j := ch]> l))
   ≤ S (length (filter (λ x, x ≠ X) l)))%nat.
Proof.
  revert j. induction l as [|y l IH]; intros [|j] Hj Hold; try done.
  - cbn in Hj. injection Hj as ->. cbn [insert list_insert].
    rewrite !filter_cons. repeat case_decide; cbn [length]; try lia.
  - cbn in Hj. cbn [insert list_insert]. specialize (IH j Hj Hold).
    rewrite !filter_cons. case_decide; cbn [length]; [|exact IH].
    destruct IH as [IH1 IH2]. split; apply le_n_S; [exact IH1|exact IH2].
Qed.

Lemma count_letters_insert (g : list (list N)) (jr jc : nat) gr old ch :
  g !! jr = Some gr → gr !! jc = Some old → old = X ∨ old = ch →
  count_letters g <= count_letters (<[jr := <[jc := ch]> gr]> g)
  <= count_letters g + 1.
Proof.
  intros Hgr Hold Hor. unfold count_letters.
  pose proof (letters_insert gr jc old ch Hold Hor) as Hrow.
  revert jr Hgr. induction g as [|y g IH]; intros [|jr] Hgr; try done.
  - cbn in Hgr. injection Hgr as ->.
    change (<[0%nat := <[jc := ch]> gr]> (gr :: g)) with (<[jc := ch]> gr :: g).
    cbn [concat]. rewrite !filter_app, !length_app. lia.
  - cbn in Hgr.
    change (<[S jr := <[jc := ch]> gr]> (y :: g))
      with (y :: <[jr := <[jc := ch]> gr]> g).
    cbn [concat]. rewrite !filter_app, !length_app. specialize (IH jr Hgr). lia.
Qed.

Lemma try_place_from_count (word : list N) : ∀ (g g' : list (list N)) i row col d size,
  try_place_from g i word row col d size = Ok (Some g') →
  count_letters g <= count_letters g' <= count_letters g + Z.of_nat (length word).
Proof.
  induction word as [|ch rest IH]; intros g g' i row col d size Hrun.
  - cbn in Hrun. injection Hrun as <-. cbn. lia.
  - apply try_place_from_inv in Hrun as (jr & jc & gr & old & Hgr & Hold & Hor & Hrun).
    apply IH in Hrun.
    pose proof (count_letters_insert g jr jc gr old ch Hgr Hold Hor).
    cbn [length]. lia.
Qed.

(** X4: An accepted placement takes no letter off the grid and adds at most
    one letter for each letter of the word: [count_letters] of the grid
    returned lies between [count_letters] of the input grid and that number
    plus [len(word)]. *)
Theorem try_place_adds_letters (g g' : list (list N)) (word : list N)
    row col d size :
  try_place g word row col d size = Ok (Some g') →
  count_letters g <= count_letters g' <= count_letters g + Z.of_nat (length word).
Proof. apply try_place_from_count. Qed.

Lemma try_place_adds_letters_witness :
  ∃ g', try_place grid_mal (lit "AJO") 3 3 vertical 7 = Ok (Some g') ∧
        count_letters grid_mal <= count_letters g'
        <= count_letters grid_mal + Z.of_nat (length (lit "AJO")).
Proof.
  eexists. split; [vm_compute; reflexivity|].
  apply (try_place_adds_letters grid_mal _ (lit "AJO") 3 3 vertical 7).
  vm_compute. reflexivity.
Defined.

Lemma cells_of_letter (word : list N) row col d r c :
  (r, c) ∈ cells_of (word, row, col, d) ↔
  ∃ (k : nat) x, word !! k = Some x ∧
                 r = cell_row row d (Z.of_nat k) ∧ c = cell_col col d (Z.of_nat k).
Proof.
  rewrite elem_of_cells_of. split.
  - intros (i & Hi & -> & ->).
    destruct (lookup_lt_is_Some_2 word (Z.to_nat i)) as [x Hx]; [lia|].
    exists (Z.to_nat i), x. rewrite Z2Nat.id by lia. done.
  - intros (k & x & Hx & -> & ->). exists (Z.of_nat k).
    apply lookup_lt_Some in Hx. split; [lia|done].
Qed.

(** The cell of an overlay: the letter of the word on a cell of the
    placement, the cell of the grid below elsewhere. *)
Lemma overlay_cell (g g' : list (list N)) (word : list N) row col d r c :
  overlay g word row col d g' →
  (∃ (k : nat) x, word !! k = Some x ∧
      r = cell_row row d (Z.of_nat k) ∧ c = cell_col col d (Z.of_nat k) ∧
      cell g' r c = Some x)
  ∨ (((r, c) ∉ cells_of (word, row, col, d)) ∧ cell g' r c = cell g r c).
Proof.
  intros [Hon Hoff].
  destruct (decide ((r, c) ∈ cells_of (word, row, col, d))) as [Hin|Hout].
  - left. apply cells_of_letter in Hin as (k & x & Hx & -> & ->).
    exists k, x. split_and!; try done. by apply Hon.
  - right. split; [done|]. by apply Hoff.
Qed.

Lemma letter_unique (word : list N) row col d (j k : nat) :
  (cell_row row d (Z.of_nat j), cell_col col d (Z.of_nat j))
  = (cell_row row d (Z.of_nat k), cell_col col d (Z.of_nat k)) → j = k.
Proof. intros H. apply cell_inj in H. lia. Qed.

(** X5: Placing a word again where it was just placed changes nothing: on
    a grid of [size] rows of [size] cells, at a row and a column that are
    not negative, if [try_place] accepts a placement and returns [g'], then
    the same placement on [g'] is accepted and returns [g'] again. *)
Theorem try_place_idempotent (g g' : list (list N)) (word : list N)
    row col d size :
  wf_grid g size → 0 <= row → 0 <= col →
  try_place g word row col d size = Ok (Some g') →
  try_place g' word row col d size = Ok (Some g').
Proof.
  intros Hwf Hrow Hcol Hrun.
  destruct (try_place_spec g word row col d size Hwf Hrow Hcol)
    as [(Hfits & _ & g1 & Hrun1 & Hwf1 & Hov1)|[_ Hrun1]]; [|congruence].
  assert (g1 = g') as -> by congruence.
  destruct (try_place_spec g' word row col d size Hwf1 Hrow Hcol)
    as [(_ & _ & g2 & Hrun2 & Hwf2 & Hov2)|[Hno _]].
  - rewrite Hrun2. do 2 f_equal. apply (grid_ext g2 g' size); [done..|].
    intros r c.
    destruct (overlay_cell g' g2 word row col d r c Hov2)
      as [(k & x & Hx & -> & -> & Hcell)|[_ Hcell]]; [|done].
    rewrite Hcell. symmetry. by apply (proj1 Hov1).
  - exfalso. apply Hno. split; [done|].
    intros k x old Hx Hold. right.
    rewrite (proj1 Hov1 k x Hx) in Hold. congruence.
Qed.

Lemma try_place_idempotent_witness :
  ∃ g', try_place grid_mal (lit "AJO") 3 3 vertical 7 = Ok (Some g') ∧
        try_place g' (lit "AJO") 3 3 vertical 7 = Ok (Some g').
Proof.
  eexists. split; [vm_compute; reflexivity|].
  apply (try_place_idempotent grid_mal _ (lit "AJO") 3 3 vertical 7 wf_grid_mal);
    [lia|lia|vm_compute; reflexivity].
Defined.

(** X6: Two placements commute when the first word has no letter ["X"]: on
    a grid of [size] rows of [size] cells, at rows and columns that are not
    negative, if the first placement is accepted and the second one is
    accepted on its result, then the second one is accepted on the input
    grid, the first one on its result, and the final grid is the same. *)
Theorem try_place_commutes (g g1 g12 : list (list N)) (w1 w2 : list N)
    r1 c1 d1 r2 c2 d2 size :
  wf_grid g size → 0 <= r1 → 0 <= c1 → 0 <= r2 → 0 <= c2 →
  X ∉ w1 →
  try_place g w1 r1 c1 d1 size = Ok (Some g1) →
  try_place g1 w2 r2 c2 d2 size = Ok (Some g12) →
  ∃ g2, try_place g w2 r2 c2 d2 size = Ok (Some g2) ∧
        try_place g2 w1 r1 c1 d1 size = Ok (Some g12).
Proof.
  intros Hwf Hr1 Hc1 Hr2 Hc2 HX1 Hrun1 Hrun12.
  destruct (try_place_spec g w1 r1 c1 d1 size Hwf Hr1 Hc1)
    as [(Hfits1 & Hnc1 & g1' & Hrun1' & Hwf1 & Hov1)|[_ Hno]]; [|congruence].
  assert (g1' = g1) as -> by congruence.
  destruct (try_place_spec g1 w2 r2 c2 d2 size Hwf1 Hr2 Hc2)
    as [(Hfits2 & Hnc2 & g12' & Hrun12' & Hwf12 & Hov12)|[_ Hno]]; [|congruence].
  assert (g12' = g12) as -> by congruence.
  (* the letters of [w1] and [w2] agree where the placements cross *)
  assert (Hagree : ∀ (j k : nat) x y, w1 !! j = Some x → w2 !! k = Some y →
            (cell_row r1 d1 (Z.of_nat j), cell_col c1 d1 (Z.of_nat j))
            = (cell_row r2 d2 (Z.of_nat k), cell_col c2 d2 (Z.of_nat k)) →
            x = y).
  { intros j k x y Hx Hy [= Hr Hc].
    pose proof (proj1 Hov1 j x Hx) as Hcell. rewrite Hr, Hc in Hcell.
    destruct (Hnc2 k y x Hy Hcell) as [-> | ->]; [|done].
    exfalso. apply HX1. by eapply list_elem_of_lookup_2. }
  destruct (try_place_spec g w2 r2 c2 d2 size Hwf Hr2 Hc2)
    as [(_ & Hnc2' & g2 & Hrun2 & Hwf2 & Hov2)|[Hno _]]; last first.
  { exfalso. apply Hno. split; [done|].
    intros k y old Hy Hold.
    destruct (decide (old = X)) as [|Hold']; [by left|]. right.
    pose proof (try_place_keeps g g1 w1 r1 c1 d1 size _ _ old Hrun1 Hold Hold')
      as Hkept.
    destruct (Hnc2 k y old Hy Hkept); [done|congruence]. }
  exists g2. split; [done|].
  destruct (try_place_spec g2 w1 r1 c1 d1 size Hwf2 Hr1 Hc1)
    as [(_ & _ & g21 & Hrun21 & Hwf21 & Hov21)|[Hno _]]; last first.
  { exfalso. apply Hno. split; [done|].
    intros j x old Hx Hold.
    destruct (overlay_cell g g2 w2 r2 c2 d2
                (cell_row r1 d1 (Z.of_nat j)) (cell_col c1 d1 (Z.of_nat j)) Hov2)
      as [(k & y & Hy & Hr & Hc & Hcell)|[_ Hcell]].
    - right. rewrite Hcell in Hold. injection Hold as <-.
      symmetry. apply (Hagree j k x y Hx Hy). by rewrite Hr, Hc.
    - rewrite Hcell in Hold. by apply (Hnc1 j x old Hx). }
  rewrite Hrun21. do 2 f_equal. apply (grid_ext g21 g12 size); [done..|].
  intros r c.
  destruct (overlay_cell g2 g21 w1 r1 c1 d1 r c Hov21)
    as [(j & x & Hx & Hr & Hc & Hcell21)|[Hout1 Hcell21]];
  destruct (overlay_cell g1 g12 w2 r2 c2 d2 r c Hov12)
    as [(k & y & Hy & Hr' & Hc' & Hcell12)|[Hout2 Hcell12]].
  - rewrite Hcell21, Hcell12. f_equal.
    apply (Hagree j k x y Hx Hy). by rewrite <- Hr, <- Hc, Hr', Hc'.
  - rewrite Hcell21, Hcell12. subst r c. symmetry. by apply (proj1 Hov1).
  - rewrite Hcell21, Hcell12. subst r c. by apply (proj1 Hov2).
  - rewrite Hcell21, Hcell12.
    rewrite (proj2 Hov2 r c Hout2), (proj2 Hov1 r c Hout1). done.
Qed.

Lemma try_place_commutes_witness :
  ∃ g12,
    try_place grid_mal (lit "AJO") 3 3 vertical 7 = Ok (Some g12) ∧
    ∃ g2, try_place (make_grid 7) (lit "AJO") 3 3 vertical 7 = Ok (Some g2) ∧
          try_place g2 (lit "MAL") 3 2 horizontal 7 = Ok (Some g12).
Proof.
  eexists. split; [vm_compute; reflexivity|].
  apply (try_place_commutes (make_grid 7) grid_mal _ (lit "MAL") (lit "AJO")
           3 2 horizontal 3 3 vertical 7);
    [apply wf_make_grid; lia|lia|lia|lia|lia
    |apply (bool_decide_eq_false_1 (X ∈ lit "MAL")); vm_compute; reflexivity
    |vm_compute; reflexivity|vm_compute; reflexivity].
Defined.

(** ** Copies on the store *)

(** The copy of a grid, on the store. *)
Lemma copy_grid_refines (h : gmap positive obj) (g : positive)
    (gv : list (list N)) :
  grid_at h g = Some gv →
  ∃ h' g' rows',
    copy_grid g h = (h', Ok g') ∧
    h ⊆ h' ∧ h !! g' = None ∧
    h' !! g' = Some (OGrid rows') ∧ grid_at h' g' = Some gv ∧
    NoDup rows' ∧ Forall (λ rl, h !! rl = None) rows' ∧
    ∀ rl cells, rl ∈ rows' → grid_at (<[rl := ORow cells]> h') g = Some gv.
Proof.
  intros Hgrid. pose proof Hgrid as Hgrid0. revert Hgrid.
  unfold grid_at at 1. destruct (h !! g) as [[|rows]|] eqn:Hg; [done| |done].
  intros Hgv.
  destruct (copy_rows_refines rows h gv Hgv)
    as (h1 & rows' & Hcopy & Hsub & Hgv1 & Hnd & Hnew).
  unfold copy_grid, mbind, stateful_bind, read_grid, alloc.
  rewrite Hg, Hcopy. set (g' := fresh (dom h1)).
  assert (h1 !! g' = None) as Hfresh by apply not_elem_of_dom, is_fresh.
  assert (h !! g' = None) as Hfresh0.
  { destruct (h !! g') eqn:E; [|done].
    eapply lookup_weaken in E; [|exact Hsub]. congruence. }
  assert (h ⊆ <[g' := OGrid rows']> h1) as Hsub'.
  { etrans; [exact Hsub|]. by apply insert_subseteq. }
  exists (<[g' := OGrid rows']> h1), g', rows'. split_and!; try done.
  - by rewrite lookup_insert_eq.
  - unfold grid_at. rewrite lookup_insert_eq.
    eapply rows_at_weaken; [|done]. by apply insert_subseteq.
  - intros rl cells Hrl. eapply grid_at_weaken; [|exact Hgrid0].
    apply insert_subseteq_r; [|done].
    by apply (proj1 (Forall_forall _ _) Hnew).
Qed.

(** X7: [copy_grid] makes a deep copy: from a store where [g] is a grid
    with the contents [gv], it returns a new list object [g'] whose rows are
    new objects, all different, with the same contents [gv]; the objects of
    the store are left as they were, and a later write to a row of the copy
    does not change the contents of [g]. *)
Theorem copy_grid_is_deep (h : gmap positive obj) (g : positive)
    (gv : list (list N)) :
  grid_at h g = Some gv →
  ∃ h' g' rows',
    copy_grid g h = (h', Ok g') ∧
    h ⊆ h' ∧ h !! g' = None ∧
    h' !! g' = Some (OGrid rows') ∧ grid_at h' g' = Some gv ∧
    NoDup rows' ∧ Forall (λ rl, h !! rl = None) rows' ∧
    ∀ rl cells, rl ∈ rows' → grid_at (<[rl := ORow cells]> h') g = Some gv.
Proof. apply copy_grid_refines. Qed.

Lemma copy_grid_is_deep_witness :
  ∃ h' g' rows',
    copy_grid 3%positive store_2x2 = (h', Ok g') ∧
    store_2x2 ⊆ h' ∧ store_2x2 !! g' = None ∧
    h' !! g' = Some (OGrid rows') ∧
    grid_at h' g' = Some [[X; X]; [chr "A"; X]] ∧
    NoDup rows' ∧ Forall (λ rl, store_2x2 !! rl = None) rows' ∧
    ∀ rl cells, rl ∈ rows' →
      grid_at (<[rl := ORow cells]> h') 3%positive = Some [[X; X]; [chr "A"; X]].
Proof.
  apply (copy_grid_is_deep store_2x2 3%positive [[X; X]; [chr "A"; X]]).
  vm_compute. reflexivity.
Defined.

(** X8: An accepted placement does not touch the grid it was given either:
    when [try_place], called on the grid object [g] with the contents [gv],
    returns the object [g'], then [g'] is a new object, the objects of the
    store are left as they were, [g] still has the contents [gv], and [g']
    has the contents that [try_place] computes from [gv]. *)
Theorem accepted_placement_returns_new_grid (h h' : gmap positive obj)
    (g g' : positive) (gv : list (list N)) (word : list N) row col d size :
  grid_at h g = Some gv →
  try_place_obj g word row col d size h = (h', Ok (Some g')) →
  h ⊆ h' ∧ h !! g' = None ∧ grid_at h' g = Some gv ∧
  ∃ gv', try_place gv word row col d size = Ok (Some gv') ∧
         grid_at h' g' = Some gv'.
Proof.
  intros Hgrid Hrun.
  pose proof (try_place_obj_frame h h' g word row col d size _ Hrun) as Hsub.
  split; [done|].
  destruct (copy_grid_refines h g gv Hgrid)
    as (h1 & g1 & rows' & Hcopy & Hsub1 & Hfresh & Hg1 & Hgv1 & Hnd & _ & _).
  unfold try_place_obj, mbind, stateful_bind in Hrun. rewrite Hcopy in Hrun.
  revert Hgv1. unfold grid_at at 1. rewrite Hg1. intros Hgv1.
  destruct (try_place_loop_refines word h1 g1 rows' gv 0 row col d size
              Hg1 Hnd Hgv1) as (h2 & Hloop & Hres).
  rewrite Hloop in Hrun. fold (try_place gv word row col d size) in Hrun, Hres.
  destruct (try_place gv word row col d size) as [[gv'|]| |];
    cbn in Hrun; try discriminate.
  injection Hrun as -> ->.
  split; [done|]. split; [by eapply grid_at_weaken|].
  exists gv'. split; [done|]. by apply Hres.
Qed.

Lemma accepted_placement_returns_new_grid_witness :
  ∃ h' g',
    try_place_obj 3%positive (lit "AB") 1 0 horizontal 2 store_2x2
    = (h', Ok (Some g')) ∧
    store_2x2 ⊆ h' ∧ store_2x2 !! g' = None ∧
    grid_at h' 3%positive = Some [[X; X]; [chr "A"; X]] ∧
    ∃ gv', try_place [[X; X]; [chr "A"; X]] (lit "AB") 1 0 horizontal 2
           = Ok (Some gv') ∧
           grid_at h' g' = Some gv'.
Proof.
  eexists _, _. split; [vm_compute; reflexivity|].
  apply (accepted_placement_returns_new_grid store_2x2 _ 3%positive _
           [[X; X]; [chr "A"; X]] (lit "AB") 1 0 horizontal 2);
    vm_compute; reflexivity.
Defined.

(** ** The runs of a grid *)

Lemma scan_before_irrefl (p : list N * Z * Z * direction) : ¬ scan_before p p.
Proof. destruct p as [[[s r] c] []]; cbn; lia. Qed.

Lemma StronglySorted_NoDup {A} (R : A → A → Prop) (l : list A) :
  (∀ x, ¬ R x x) → StronglySorted R l → NoDup l.
Proof.
  intros Hirr. induction 1 as [|x l _ IH Hall]; constructor; [|done].
  intros Hin. apply (Hirr x). by apply (proj1 (Forall_forall _ _) Hall).
Qed.

(** X9: On a grid of [size] rows of [size] cells, [find_all_runs] returns
    without raising the texts of the maximal runs of two letters or more,
    each run once (a text as many times as there are runs that spell it),
    in the order of the scan: the horizontal runs by row then column, then
    the vertical runs by column then row. *)
Theorem find_all_runs_exact (g : list (list N)) size :
  wf_grid g size →
  ∃ R : list (list N * Z * Z * direction),
    find_all_runs g size = Ok (text <$> R) ∧
    (∀ p, p ∈ R ↔ is_run g p ∧ 2 <= Z.of_nat (length (text p))) ∧
    NoDup R ∧ StronglySorted scan_before R.
Proof.
  intros Hwf. destruct (scan_spec g size Hwf) as (R & HR & Hmem & Hsorted).
  exists R. unfold find_all_runs. rewrite HR. split_and!; try done.
  eapply StronglySorted_NoDup; [apply scan_before_irrefl|done].
Qed.

Lemma find_all_runs_exact_witness :
  ∃ R : list (list N * Z * Z * direction),
    find_all_runs grid_abc 4 = Ok (text <$> R) ∧
    (∀ p, p ∈ R ↔ is_run grid_abc p ∧ 2 <= Z.of_nat (length (text p))) ∧
    NoDup R ∧ StronglySorted scan_before R.
Proof. apply (find_all_runs_exact grid_abc 4 wf_grid_abc). Defined.

(** X10: On a grid of [size] rows of [size] cells,
    [is_valid_after_placement] returns [True] exactly when every maximal run
    of two letters or more of the grid has its text in [word_set], whole. *)
Theorem is_valid_after_placement_iff (g : list (list N)) (ws : gset (list N)) size :
  wf_grid g size →
  ∃ b, is_valid_after_placement g ws size = Ok b ∧
       (b = true ↔
          ∀ p, is_run g p → 2 <= Z.of_nat (length (text p)) → text p ∈ ws).
Proof. apply is_valid_after_placement_spec. Qed.

Lemma is_valid_after_placement_iff_witness :
  ∃ b, is_valid_after_placement grid_mal {[ lit "MAL" ]} 7 = Ok b ∧
       (b = true ↔
          ∀ p, is_run grid_mal p → 2 <= Z.of_nat (length (text p)) →
               text p ∈ ({[ lit "MAL" ]} : gset (list N))).
Proof. apply (is_valid_after_placement_iff grid_mal {[ lit "MAL" ]} 7 wf_grid_mal). Defined.

(** ** Crossing *)

Lemma word_shares_cell_loop_total (g : list (list N)) size row col d :
  wf_grid g size → 0 <= row → 0 <= col →
  ∀ idx : list Z, (∀ i, i ∈ idx → 0 <= i) →
  ∃ b, word_shares_cell_loop g idx row col d size = Ok b ∧
       (b = true ↔ ∃ i y, i ∈ idx ∧
          cell g (cell_row row d i) (cell_col col d i) = Some y ∧ y ≠ X).
Proof.
  intros Hwf Hrow Hcol idx. induction idx as [|i idx IH]; intros Hidx.
  { exists false. split; [done|]. split; [done|].
    intros (i & y & Hi & _). by apply elem_of_nil in Hi. }
  destruct IH as (b & Hb & Hiff).
  { intros j Hj. apply Hidx. by right. }
  assert (0 <= i) as Hi by (apply Hidx; left).
  pose proof (cell_row_nonneg row d i Hrow Hi) as Hr.
  pose proof (cell_col_nonneg col d i Hcol Hi) as Hc.
  cbn [word_shares_cell_loop].
  destruct (decide (cell_row row d i < size ∧ cell_col col d i < size))
    as [[Hr' Hc']|Hout].
  - rewrite !bool_decide_eq_true_2 by done. cbn [andb].
    destruct (wf_cell_inside g size (cell_row row d i) (cell_col col d i) Hwf)
      as (x & Hcell & ->); [lia..|]. cbn [mbind result_bind].
    destruct (decide (x = X)) as [->|Hx].
    + rewrite bool_decide_eq_false_2 by (by intros ?).
      exists b. split; [done|]. rewrite Hiff. split.
      * intros (j & y & Hj & Hy). exists j, y. split; [by right|done].
      * intros (j & y & Hj & Hy & Hne).
        apply elem_of_cons in Hj as [->|Hj]; [congruence|by exists j, y].
    + rewrite bool_decide_eq_true_2 by done.
      exists true. split; [done|]. split; [|done]. intros _.
      exists i, x. split; [by left|done].
  - assert (bool_decide (cell_row row d i < size)
            && bool_decide (cell_col col d i < size) = false) as ->.
    { apply andb_false_iff.
      destruct (decide (cell_row row d i < size)).
      - right. apply bool_decide_eq_false_2. tauto.
      - left. by apply bool_decide_eq_false_2. }
    exists b. split; [done|]. rewrite Hiff. split.
    + intros (j & y & Hj & Hy). exists j, y. split; [by right|done].
    + intros (j & y & Hj & Hy & Hne).
      apply elem_of_cons in Hj as [->|Hj]; [|by exists j, y].
      rewrite (wf_cell_outside g size _ _ Hwf) in Hy; [done|].
      unfold inside. lia.
Qed.

(** X11: On a grid of [size] rows of [size] cells, at a row and a column
    that are not negative, [word_shares_cell] returns without raising, also
    for a word that runs off the grid, and returns [True] exactly when a
    cell of the placement holds a letter of the grid. *)
Theorem word_shares_cell_iff (g : list (list N)) (word : list N) row col d size :
  wf_grid g size → 0 <= row → 0 <= col →
  ∃ b, word_shares_cell g word row col d size = Ok b ∧
       (b = true ↔ crosses g word row col d).
Proof.
  intros Hwf Hrow Hcol.
  destruct (word_shares_cell_loop_total g size row col d Hwf Hrow Hcol
              (range (Z.of_nat (length word)))) as (b & Hb & Hiff).
  { intros i Hi. apply elem_of_seqZ in Hi. lia. }
  exists b. split; [done|]. rewrite Hiff. unfold crosses. split.
  - intros (i & y & Hi & Hy). apply elem_of_seqZ in Hi.
    exists (Z.to_nat i), y. rewrite Z2Nat.id by lia. split; [lia|done].
  - intros (k & y & Hk & Hy). exists (Z.of_nat k), y. split; [|done].
    apply elem_of_seqZ. lia.
Qed.

Lemma word_shares_cell_iff_witness :
  ∃ b, word_shares_cell grid_mal (lit "AJO") 3 5 horizontal 7 = Ok b ∧
       (b = true ↔ crosses grid_mal (lit "AJO") 3 5 horizontal).
Proof.
  apply (word_shares_cell_iff grid_mal (lit "AJO") 3 5 horizontal 7 wf_grid_mal); lia.
Defined.

(** ** The words of the output *)

Lemma clean_loop_fixed (actual : gset (list N * Z * Z * direction))
    (l : list (list N * Z * Z * direction)) :
  ∀ clean used,
  (∀ p, p ∈ l → p ∈ actual) → NoDup l → (∀ p, p ∈ l → p ∉ used) →
  clean_loop actual l clean used = clean ++ l.
Proof.
  induction l as [|key rest IH]; intros clean used Hact Hnd Hused; cbn [clean_loop].
  { by rewrite app_nil_r. }
  apply NoDup_cons in Hnd as [Hkey Hnd].
  rewrite !bool_decide_eq_true_2; [|apply Hused; by left|apply Hact; by left].
  cbn [andb].
  replace (clean ++ key :: rest) with ((clean ++ [key]) ++ rest)
    by (by rewrite <- app_assoc).
  apply IH; [|done|].
  - intros p Hp. apply Hact. by right.
  - intros p Hp. apply not_elem_of_union. split; [apply Hused; by right|].
    apply not_elem_of_singleton. intros ->. done.
Qed.

(** X12: Cleaning is idempotent: the list that [clean_placed_words] returns
    for a grid is returned unchanged when it is cleaned again against the
    same grid. *)
Theorem clean_placed_words_idempotent (g : list (list N))
    (placed clean : list (list N * Z * Z * direction)) size :
  clean_placed_words g placed size = Ok clean →
  clean_placed_words g clean size = Ok clean.
Proof.
  unfold clean_placed_words.
  destruct (actual_runs g size) as [actual| |]; cbn; [|done..].
  intros [= <-]. f_equal.
  destruct (clean_loop_spec actual placed [] ∅) as (kept & -> & _ & Hnd & Hmem).
  { intros p. split; [set_solver|]. intros Hp. by apply elem_of_nil in Hp. }
  { constructor. }
  cbn [app] in *. apply (clean_loop_fixed actual kept [] ∅); [|done|set_solver].
  intros p Hp. apply Hmem in Hp as [Hp|[_ Hp]]; [|done]. by apply elem_of_nil in Hp.
Qed.

Lemma clean_placed_words_idempotent_witness :
  clean_placed_words grid_abc [(lit "ABC", 0, 0, horizontal)] 4
  = Ok [(lit "ABC", 0, 0, horizontal)].
Proof.
  apply (clean_placed_words_idempotent grid_abc
           [(lit "AB", 0, 0, horizontal); (lit "ABC", 0, 0, horizontal)]).
  vm_compute. reflexivity.
Defined.

(** X13: No word of the output lies inside another one: on a grid of
    [size] rows of [size] cells, [format_puzzle] returns the grid it was
    given with a list of words that are placed words and maximal runs of
    two letters or more of the grid, and two words of that list of which one
    has all its cells among the cells of the other are the same word. *)
Theorem format_puzzle_no_subsumed_word (g g' : list (list N))
    (placed words : list (list N * Z * Z * direction)) size :
  wf_grid g size → format_puzzle g placed size = Ok (g', words) →
  g' = g ∧
  (∀ w, w ∈ words → w ∈ placed ∧ is_run g w ∧ 2 <= Z.of_nat (length (text w))) ∧
  (∀ p q, p ∈ words → q ∈ words → cells_of p ⊆ cells_of q → p = q).
Proof.
  intros Hwf. unfold format_puzzle.
  destruct (clean_placed_words_spec g placed size Hwf) as (clean & -> & Hmem & _).
  cbn. intros [= <- <-]. split; [done|]. split.
  - intros w Hw. by apply Hmem.
  - intros p q Hp Hq Hsub.
    apply Hmem in Hp as (_ & Hp & Hlen). apply Hmem in Hq as (_ & Hq & _).
    by apply (is_run_overlap g p q).
Qed.

Lemma format_puzzle_no_subsumed_word_witness :
  ∃ words,
    format_puzzle grid_ab placed_ab 5 = Ok (grid_ab, words) ∧
    (∀ w, w ∈ words →
          w ∈ placed_ab ∧ is_run grid_ab w ∧ 2 <= Z.of_nat (length (text w))) ∧
    (∀ p q, p ∈ words → q ∈ words → cells_of p ⊆ cells_of q → p = q).
Proof.
  eexists. split; [vm_compute; reflexivity|].
  refine (proj2 (format_puzzle_no_subsumed_word grid_ab grid_ab placed_ab _ 5 _ _)).
  - split; [reflexivity|]. by repeat constructor.
  - vm_compute. reflexivity.
Defined.

(** ** Connectivity, whatever the order *)

Lemma check_connectivity_spec (placed : list (list N * Z * Z * direction)) :
  ∃ b, check_connectivity placed = Ok b ∧ (b = true ↔ connected placed).
Proof.
  apply check_connectivity_with_spec. intros s x. apply elem_of_elements.
Qed.

(** X14: The answer of [check_connectivity] does not depend on the order in
    which Python goes through the sets [adj[n]]: for every order that
    goes through exactly the members of each set, the result is the one of
    the order of reference. *)
Theorem check_connectivity_any_order (iter : gset nat → list nat)
    (placed : list (list N * Z * Z * direction)) :
  (∀ (s : gset nat) x, x ∈ iter s ↔ x ∈ s) →
  check_connectivity_with iter placed = check_connectivity placed.
Proof.
  intros Hiter.
  destruct (check_connectivity_with_spec iter placed Hiter) as (b1 & -> & H1).
  destruct (check_connectivity_spec placed) as (b2 & -> & H2).
  f_equal. apply Bool.eq_true_iff_eq. by rewrite H1, H2.
Qed.

Lemma check_connectivity_any_order_witness :
  check_connectivity_with (λ s, reverse (elements s)) placed_ab
  = check_connectivity placed_ab.
Proof.
  apply (check_connectivity_any_order (λ s, reverse (elements s)) placed_ab).
  intros s x. rewrite elem_of_reverse. apply elem_of_elements.
Defined.

Lemma overlaps_sym (l : list (list N * Z * Z * direction)) i j :
  overlaps l i j → overlaps l j i.
Proof. intros (p & q & x & Hp & Hq & Hxp & Hxq). by exists q, p, x. Qed.

Lemma rtc_overlaps_sym (l : list (list N * Z * Z * direction)) i j :
  rtc (overlaps l) i j → rtc (overlaps l) j i.
Proof.
  induction 1 as [|i k j Hik _ IH]; [done|].
  eapply rtc_r; [exact IH|]. by apply overlaps_sym.
Qed.

Lemma overlaps_same_r (l : list (list N * Z * Z * direction)) i j j' :
  overlaps l i j → l !! j = l !! j' → overlaps l i j'.
Proof.
  intros (p & q & x & Hp & Hq & Hxp & Hxq) Heq. exists p, q, x.
  split_and!; try done. by rewrite <- Heq.
Qed.

Lemma connected_Permutation (l1 l2 : list (list N * Z * Z * direction)) :
  l1 ≡ₚ l2 → connected l1 → connected l2.
Proof.
  intros Hperm Hconn.
  pose proof (proj1 (Permutation_inj l1 l2) Hperm) as (Hlen & f & Hinj & Hf).
  symmetry in Hperm.
  pose proof (proj1 (Permutation_inj l2 l1) Hperm) as (_ & g & _ & Hg).
  assert (Hmap : ∀ i j, rtc (overlaps l1) i j → rtc (overlaps l2) (f i) (f j)).
  { intros i j. apply (rtc_congruence f). clear i j.
    intros i j (p & q & x & Hp & Hq & Hxp & Hxq). exists p, q, x.
    by rewrite <- !Hf. }
  assert (Hfrom : ∀ j, (j < length l2)%nat → rtc (overlaps l2) (f 0%nat) j).
  { intros j Hj. destruct (lookup_lt_is_Some_2 l2 j Hj) as [q Hq].
    assert (l1 !! g j = Some q) as Hq1 by by rewrite <- Hg.
    assert (l2 !! f (g j) = Some q) as Hq2 by by rewrite <- Hf.
    pose proof (Hmap _ _ (Hconn (g j) (lookup_lt_Some _ _ _ Hq1))) as Hpath.
    apply rtc_inv_r in Hpath as [Heq|(k & Hpath & Hstep)].
    - destruct (decide (j = f 0%nat)) as [->|Hne]; [done|].
      apply rtc_once. rewrite Heq in *. 
      assert (1 < length l1)%nat as Hone.
      { rewrite Hlen. apply lookup_lt_Some in Hq2.
        destruct (decide (j = 0%nat)), (decide (f (g j) = 0%nat)); lia. }
      pose proof (Hconn 1%nat Hone) as Hpath1.
      apply rtc_inv in Hpath1 as [[=]|(k & (p & q' & x & Hp & _ & Hxp & _) & _)].
      assert (g j = 0%nat) as Hgj by (by apply Hinj).
      rewrite Hgj in Hq1. assert (p = q) as -> by congruence.
      exists q, q, x. rewrite Hgj. rewrite Hgj in Hq2. done.
    - eapply rtc_r; [exact Hpath|].
      apply (overlaps_same_r l2 k (f (g j)) j Hstep). congruence. }
  intros j Hj.
  assert (0 < length l2)%nat as H0 by lia.
  etrans; [apply rtc_overlaps_sym, Hfrom, H0|by apply Hfrom].
Qed.

(** X15: The answer of [check_connectivity] does not depend on the order of
    the placed words: two lists that hold the same placements, each as
    many times, get the same answer. *)
Theorem check_connectivity_permutation
    (placed placed' : list (list N * Z * Z * direction)) :
  placed ≡ₚ placed' → check_connectivity placed = check_connectivity placed'.
Proof.
  intros Hperm.
  destruct (check_connectivity_spec placed) as (b1 & -> & H1).
  destruct (check_connectivity_spec placed') as (b2 & -> & H2).
  f_equal.
  assert (connected placed ↔ connected placed') as Hiff.
  { split; apply connected_Permutation; [done|by symmetry]. }
  apply Bool.eq_true_iff_eq. by rewrite H1, H2, Hiff.
Qed.

Lemma check_connectivity_permutation_witness :
  check_connectivity placed_ab = check_connectivity (reverse placed_ab).
Proof.
  apply (check_connectivity_permutation placed_ab (reverse placed_ab)).
  symmetry. apply reverse_Permutation.
Defined.

(** ** The puzzle that the search returns *)

Lemma successive_snoc size (g0 g g' : list (list N))
    (ps : list (list N * Z * Z * direction)) word row col d :
  successive size g0 ps g → try_place g word row col d size = Ok (Some g') →
  successive size g0 (ps ++ [(word, row, col, d)]) g'.
Proof.
  induction 1 as [g|g0 g1 g2 w r c d0 ps Hfirst _ IH]; intros Hlast; cbn.
  - econstructor; [exact Hlast|constructor].
  - econstructor; [exact Hfirst|by apply IH].
Qed.

(** The candidates of [find_all_placements] are placements that [try_place]
    accepts, with the grid it returns. *)
Lemma find_all_placements_accepted (g g' : list (list N)) (word : list N)
    (ws : gset (list N)) size found r c d :
  wf_grid g size → find_all_placements g word ws size = Ok found →
  (r, c, d, g') ∈ found →
  0 <= r ∧ 0 <= c ∧ try_place g word r c d size = Ok (Some g').
Proof.
  intros Hwf Hfound Hin.
  destruct (find_all_placements_spec g word ws size Hwf) as (found' & Hrun & Hmem).
  assert (found' = found) as -> by congruence.
  apply Hmem in Hin as (Hr & Hc & Hfits & Hnc & _ & Hwf' & Hov & _).
  apply elem_of_seqZ in Hr, Hc.
  destruct (try_place_spec g word r c d size Hwf) as
    [(_ & _ & g'' & Hplace & Hwf'' & Hov'')|[Hno _]]; [lia..| |tauto].
  split; [lia|]. split; [lia|]. rewrite Hplace. do 2 f_equal.
  by apply (overlay_unique g g'' g' word r c d size).
Qed.

Lemma fold_stateful_inv_elem {S A B} (I : B → Prop) (body : B → A → stateful S B)
    (l : list A) :
  (∀ b x s s' b', x ∈ l → I b → body b x s = (s', Ok b') → I b') →
  ∀ b s s' b', I b → fold_stateful body l b s = (s', Ok b') → I b'.
Proof.
  induction l as [|x l IH]; intros Hbody b s s' b' Hb; cbn [fold_stateful].
  { by intros [= <- <-]. }
  unfold mbind, stateful_bind.
  destruct (body b x s) as [s1 [b1| |]] eqn:Hx; [|done..].
  apply IH.
  - intros b0 y s0 s0' b0' Hy. apply Hbody. by right.
  - eapply Hbody; [by left|exact Hb|exact Hx].
Qed.

Section placed_facts.
Context {rng : Type} (randbelow : rng → Z → rng * Z).

Lemma place_next_placed_inv size pool st word (s s' : rng) st' :
  word ∈ pool → search_inv size st ∧ placed_inv size pool st →
  place_next randbelow size st word s = (s', Ok st') →
  search_inv size st' ∧ placed_inv size pool st'.
Proof.
  intros Hword [Hsearch Hplaced] Hrun.
  split; [by eapply place_next_inv|].
  destruct st as [[[g ws] placed] still].
  destruct Hsearch as (Hwf & Hws & _).
  destruct Hplaced as (Hsucc & Hseed & Hnd & Hpool & Hrest).
  revert Hrun. unfold place_next. case_bool_decide as Hnew; [by intros [= <- <-]|].
  assert (Forall (λ w, w ∈ pool) (still ++ [word])) as Hrest'.
  { apply Forall_app. split; [done|]. by constructor. }
  case_bool_decide; [by intros [= <- <-]|].
  unfold mbind, stateful_bind, pure.
  destruct (find_all_placements g word ws size) as [found| |] eqn:Hfound; [|done..].
  destruct found as [|cand found]; [by intros [= <- <-]|].
  destruct (choice randbelow (cand :: found) s) as [s1 [[[[r c] d] g']| |]] eqn:Hch;
    [|done..].
  intros [= <- <-].
  apply choice_elem_of in Hch.
  destruct (find_all_placements_accepted g g' word ws size _ r c d Hwf Hfound Hch)
    as (Hr & Hc & Hplace).
  split_and!.
  - by eapply successive_snoc.
  - destruct Hseed as (first & others & ->). by exists first, (others ++ [(word, r, c, d)]).
  - rewrite fmap_app. apply NoDup_app. split; [done|]. split.
    + intros t Ht. cbn. rewrite list_elem_of_singleton. intros ->.
      apply Hnew. by apply Hws.
    + cbn. apply NoDup_singleton.
  - apply Forall_app. split; [done|]. by repeat constructor.
  - done.
Qed.

Lemma one_pass_placed_inv size pool st pass_num (s s' : rng) st' :
  search_inv size st ∧ placed_inv size pool st →
  one_pass randbelow size st pass_num s = (s', Ok st') →
  search_inv size st' ∧ placed_inv size pool st'.
Proof.
  destruct st as [[[g ws] placed] remaining]. intros [Hsearch Hplaced].
  unfold one_pass, mbind, stateful_bind, shuffled.
  pose proof (shuffle_perm randbelow remaining s) as Hperm.
  destruct (shuffle randbelow remaining s) as [[s1 remaining'] [[]| |]];
    [|done..].
  cbn [fst snd] in Hperm.
  destruct Hplaced as (Hsucc & Hseed & Hnd & Hpool & Hrest).
  apply (fold_stateful_inv_elem
           (λ st, search_inv size st ∧ placed_inv size pool st)).
  - intros b x s0 s0' b' Hx. apply place_next_placed_inv.
    rewrite <- Hperm in Hx. by apply (proj1 (Forall_forall _ _) Hrest).
  - split; [done|]. split_and!; try done.
Qed.

Lemma attempt_placed_inv (pool : list (list N)) size (s s' : rng) g placed :
  0 <= size → attempt randbelow pool size s = (s', Ok (Some (g, placed))) →
  ∃ ws rest, search_inv size (g, ws, placed, rest)
             ∧ placed_inv size pool (g, ws, placed, rest).
Proof.
  intros Hsize. unfold attempt, mbind at 1 2, stateful_bind, pure.
  destruct (py_index pool 0) as [first| |] eqn:Hfirst; [|done..].
  apply py_index_elem_of in Hfirst.
  destruct (try_place_spec (make_grid size) first (size `div` 2)
              (Z.max 0 ((size - Z.of_nat (length first)) `div` 2)) horizontal size)
    as [(_ & _ & g0 & Hplace & Hwf0 & _)|(_ & ->)];
    [by apply wf_make_grid|by apply Z.div_pos|lia| |done].
  rewrite Hplace. unfold mbind, stateful_bind.
  destruct (fold_stateful _ _ _ s) as [s1 [st| |]] eqn:Hfold; [|done..].
  intros [= <- <- <-].
  eapply (fold_stateful_inv
            (λ st, search_inv size st ∧ placed_inv size pool st)) in Hfold.
  - destruct st as [[[g ws] placed] remaining]. by exists ws, remaining.
  - intros b x s0 s0' b'. apply one_pass_placed_inv.
  - split.
    + split_and!; [done| |cbn; lia].
      intros t. rewrite elem_of_singleton. cbn. by rewrite list_elem_of_singleton.
    + split_and!.
      * econstructor; [exact Hplace|constructor].
      * by eexists _, _.
      * cbn. apply NoDup_singleton.
      * repeat constructor; cbn; [done|by apply Z.div_pos|lia].
      * apply Forall_forall. intros w Hw.
        apply list_elem_of_filter in Hw as [_ Hw].
        by apply (subseteq_drop 1 pool).
Qed.
End placed_facts.

Lemma successive_shows size (g0 g : list (list N))
    (ps : list (list N * Z * Z * direction)) :
  successive size g0 ps g → wf_grid g0 size →
  Forall (λ p, 0 <= p.1.1.2 ∧ 0 <= p.1.2) ps →
  wf_grid g size ∧
  ∀ w r c d (k : nat) x, (w, r, c, d) ∈ ps → w !! k = Some x → x ≠ X →
    cell g (cell_row r d (Z.of_nat k)) (cell_col c d (Z.of_nat k)) = Some x.
Proof.
  induction 1 as [g|g0 g1 g2 word row col d0 ps Hfirst Hrest IH]; intros Hwf Hpos.
  { split; [done|]. intros w r c d k x Hin. by apply elem_of_nil in Hin. }
  apply Forall_cons in Hpos as [[Hrow Hcol] Hpos]. cbn in Hrow, Hcol.
  destruct (try_place_spec g0 word row col d0 size Hwf Hrow Hcol)
    as [(_ & _ & g1' & Hplace & Hwf1 & Hov)|[_ Hno]]; [|congruence].
  assert (g1' = g1) as -> by congruence.
  destruct (IH Hwf1 Hpos) as [Hwf2 Hshown]. split; [done|].
  intros w r c d k x Hin Hx Hne.
  apply elem_of_cons in Hin as [[= -> -> -> ->]|Hin]; [|by eapply Hshown].
  eapply successive_keeps; [exact Hrest| |done]. by apply (proj1 Hov).
Qed.

Section puzzle_facts.
Context {rng : Type} (randbelow : rng → Z → rng * Z).

Lemma attempts_accepted_pool (n : nat) size min_words min_letters :
  ∀ (p : positive) (st st' : gmap positive (list (list N))) (s s' : rng)
    pool0 best best_score g placed,
  st !! p = Some pool0 →
  attempts randbelow n p size min_words min_letters best best_score (st, s)
  = ((st', s'), Ok (Some (g, placed))) →
  best = Some (g, placed)
  ∨ ∃ pool s1 s2,
      pool0 ≡ₚ pool ∧
      attempt randbelow pool size s1 = (s2, Ok (Some (g, placed))) ∧
      acceptable g placed min_words min_letters = Ok true.
Proof.
  induction n as [|n IH]; intros p st st' s s' pool0 best best_score g placed Hp;
    cbn [attempts].
  { intros [= <- <- ->]. by left. }
  unfold mbind, stateful_bind.
  rewrite (shuffle_at_run randbelow p st s pool0 Hp).
  pose proof (shuffle_perm randbelow pool0 s) as Hperm.
  destruct (shuffle randbelow pool0 s) as [[s1 x1] r1]. cbn [fst snd] in *.
  destruct r1 as [[]| |]; [|done..].
  rewrite (read_at_run p _ s1 x1) by apply lookup_insert_eq.
  rewrite on_rng_run.
  assert (Hlater : ∀ s2 best best_score,
            attempts randbelow n p size min_words min_letters best best_score
              (<[p := x1]> st, s2) = ((st', s'), Ok (Some (g, placed))) →
            best = Some (g, placed)
            ∨ ∃ pool s1 s2,
                pool0 ≡ₚ pool ∧
                attempt randbelow pool size s1 = (s2, Ok (Some (g, placed))) ∧
                acceptable g placed min_words min_letters = Ok true).
  { intros s2 b bs Hrun.
    apply (IH p _ st' s2 s' x1) in Hrun as [->|(pool & t1 & t2 & Hp' & Hrun)];
      [by left| |apply lookup_insert_eq].
    right. exists pool, t1, t2. split; [by etrans|done]. }
  destruct (attempt randbelow x1 size s1) as [s3 [[[g' placed']|]| |]] eqn:Hatt;
    cbn [fst snd]; [|by apply Hlater|done..].
  unfold pure.
  destruct (acceptable g' placed' min_words min_letters) as [ok| |] eqn:Hacc;
    [|done..].
  destruct ok; cbn [andb]; [|by apply Hlater].
  destruct (bool_decide _); [|by apply Hlater].
  destruct (bool_decide _).
  - intros [= <- <- <- <-]. right. by exists x1, s1, s3.
  - intros [[= <- <-]|Hrun]%Hlater; [|by right]. right. by exists x1, s1, s3.
Qed.

(** X16: A puzzle that [generate_puzzle] returns meets the thresholds it was
    asked for: it has at least [min_words] placed words and at least
    [min_letters] letters on the grid, and [check_connectivity] accepts its
    placed words. *)
Theorem generate_puzzle_meets_thresholds (p : positive)
    (st st' : gmap positive (list (list N))) (s s' : rng)
    size min_words min_letters max_attempts g placed :
  generate_puzzle randbelow p size min_words min_letters max_attempts (st, s)
  = ((st', s'), Ok (Some (g, placed))) →
  Z.of_nat (length placed) >= min_words ∧ count_letters g >= min_letters ∧
  check_connectivity placed = Ok true.
Proof.
  intros Hrun.
  apply attempts_accepted in Hrun as [[=]|(pool & s1 & s2 & _ & Hacc)].
  revert Hacc. unfold acceptable.
  destruct (bool_decide (Z.of_nat (length placed) >= min_words)) eqn:Hw;
    [|done].
  destruct (bool_decide (count_letters g >= min_letters)) eqn:Hl; [|done].
  apply bool_decide_eq_true in Hw, Hl. done.
Qed.

(** X17: In a puzzle that [generate_puzzle] returns with two placed words
    or more, every maximal run of two letters or more of the grid spells a
    word that was placed; the grid has [size] rows of [size] cells. *)
Theorem generate_puzzle_runs_spell_placed_words (p : positive)
    (st st' : gmap positive (list (list N))) (s s' : rng)
    size min_words min_letters max_attempts g placed :
  0 <= size →
  generate_puzzle randbelow p size min_words min_letters max_attempts (st, s)
  = ((st', s'), Ok (Some (g, placed))) →
  wf_grid g size ∧
  ((2 ≤ length placed)%nat →
   ∀ q, is_run g q → 2 <= Z.of_nat (length (text q)) → text q ∈ text <$> placed).
Proof.
  intros Hsize Hrun.
  destruct (generate_puzzle_inv randbelow p st st' s s' size min_words min_letters
              max_attempts g placed Hsize Hrun) as (Hwf & _ & Hruns).
  done.
Qed.

Lemma generate_puzzle_placed_inv (p : positive)
    (st st' : gmap positive (list (list N))) (s s' : rng) pool
    size min_words min_letters max_attempts g placed :
  0 <= size → st !! p = Some pool →
  generate_puzzle randbelow p size min_words min_letters max_attempts (st, s)
  = ((st', s'), Ok (Some (g, placed))) →
  ∃ ws rest, placed_inv size pool (g, ws, placed, rest).
Proof.
  intros Hsize Hp Hrun.
  apply (attempts_accepted_pool _ _ _ _ _ _ _ _ _ pool) in Hrun
    as [[=]|(pool' & s1 & s2 & Hperm & Hatt & _)]; [|done].
  apply attempt_placed_inv in Hatt as (ws & rest & _ & Hinv); [|done].
  exists ws, rest. destruct Hinv as (Hsucc & Hseed & Hnd & Hpool & Hrest).
  split_and!; try done.
  - eapply Forall_impl; [exact Hpool|]. cbn. intros q (Hq & ? & ?).
    split; [|done]. by rewrite Hperm.
  - eapply Forall_impl; [exact Hrest|]. cbn. intros w Hw. by rewrite Hperm.
Qed.

Lemma generate_puzzle_reads_pool (p : positive)
    (st st' : gmap positive (list (list N))) (s s' : rng)
    size min_words min_letters max_attempts out :
  generate_puzzle randbelow p size min_words min_letters max_attempts (st, s)
  = ((st', s'), Ok (Some out)) →
  ∃ pool, st !! p = Some pool.
Proof.
  destruct (st !! p) as [pool|] eqn:Hp; [by exists pool|].
  unfold generate_puzzle.
  destruct (Z.to_nat max_attempts) as [|n]; cbn [attempts]; [done|].
  unfold mbind, stateful_bind, shuffle_at. by rewrite Hp.
Qed.

(** X18: The grid that [generate_puzzle] returns is the grid of its placed
    words: [try_place] accepts them one after the other, in their order,
    from the empty grid, and ends with that grid; the first one lies
    horizontally on row [size // 2] from column
    [max(0, (size - len(first)) // 2)], and every one is anchored at a row
    and a column that are not negative. *)
Theorem generate_puzzle_grid_of_placed_words (p : positive)
    (st st' : gmap positive (list (list N))) (s s' : rng)
    size min_words min_letters max_attempts g placed :
  0 <= size →
  generate_puzzle randbelow p size min_words min_letters max_attempts (st, s)
  = ((st', s'), Ok (Some (g, placed))) →
  successive size (make_grid size) placed g ∧
  (∃ first others,
     placed = (first, size `div` 2,
               Z.max 0 ((size - Z.of_nat (length first)) `div` 2), horizontal)
              :: others) ∧
  Forall (λ q, 0 <= q.1.1.2 ∧ 0 <= q.1.2) placed.
Proof.
  intros Hsize Hrun.
  destruct (generate_puzzle_reads_pool p st st' s s' size min_words min_letters
              max_attempts (g, placed) Hrun) as [pool Hp].
  destruct (generate_puzzle_placed_inv p st st' s s' pool size min_words
              min_letters max_attempts g placed Hsize Hp Hrun)
    as (ws & rest & Hsucc & Hseed & _ & Hpool & _).
  split_and!; try done.
  eapply Forall_impl; [exact Hpool|]. cbn. tauto.
Qed.

(** X19: The placed words of a puzzle that [generate_puzzle] returns are
    words of the pool it was given, and no two of them have the same text:
    a word is placed once at most. *)
Theorem generate_puzzle_places_pool_words_once (p : positive)
    (st st' : gmap positive (list (list N))) (s s' : rng) pool
    size min_words min_letters max_attempts g placed :
  0 <= size → st !! p = Some pool →
  generate_puzzle randbelow p size min_words min_letters max_attempts (st, s)
  = ((st', s'), Ok (Some (g, placed))) →
  NoDup (text <$> placed) ∧ ∀ w, w ∈ text <$> placed → w ∈ pool.
Proof.
  intros Hsize Hp Hrun.
  destruct (generate_puzzle_placed_inv p st st' s s' pool size min_words
              min_letters max_attempts g placed Hsize Hp Hrun)
    as (ws & rest & _ & _ & Hnd & Hpool & _).
  split; [done|]. intros w Hw.
  apply list_elem_of_fmap in Hw as (q & -> & Hq).
  by apply (proj1 (Forall_forall _ _) Hpool q Hq).
Qed.

(** X20: The grid that [generate_puzzle] returns shows every placed word at
    its recorded position: each letter of a placed word, other than the
    letter ["X"], is the value of the cell it was written to. *)
Theorem generate_puzzle_shows_placed_words (p : positive)
    (st st' : gmap positive (list (list N))) (s s' : rng)
    size min_words min_letters max_attempts g placed :
  0 <= size →
  generate_puzzle randbelow p size min_words min_letters max_attempts (st, s)
  = ((st', s'), Ok (Some (g, placed))) →
  ∀ w r c d (k : nat) x, (w, r, c, d) ∈ placed → w !! k = Some x → x ≠ X →
    cell g (cell_row r d (Z.of_nat k)) (cell_col c d (Z.of_nat k)) = Some x.
Proof.
  intros Hsize Hrun.
  destruct (generate_puzzle_reads_pool p st st' s s' size min_words min_letters
              max_attempts (g, placed) Hrun) as [pool Hp].
  destruct (generate_puzzle_placed_inv p st st' s s' pool size min_words
              min_letters max_attempts g placed Hsize Hp Hrun)
    as (ws & rest & Hsucc & _ & _ & Hpool & _).
  apply (successive_shows size (make_grid size) g placed Hsucc).
  - by apply wf_make_grid.
  - eapply Forall_impl; [exact Hpool|]. cbn. tauto.
Qed.
End puzzle_facts.

(** ** The search never raises on a pool that is not empty *)

Lemma swap_ok {A} (x : list A) (i j : Z) :
  0 <= i < Z.of_nat (length x) → 0 <= j < Z.of_nat (length x) →
  ∃ x', swap x i j = Ok x' ∧ length x' = length x.
Proof.
  intros Hi Hj. unfold swap.
  destruct (py_index_nonneg x j Hj) as (xj & _ & ->).
  destruct (py_index_nonneg x i Hi) as (xi & _ & ->). cbn [mbind result_bind].
  rewrite (py_setitem_nonneg x i xj Hi). cbn [mbind result_bind].
  rewrite py_setitem_nonneg by (by rewrite length_insert).
  eexists. split; [done|]. by rewrite !length_insert.
Qed.

Section total.
Context {rng : Type} (randbelow : rng → Z → rng * Z).
Hypothesis in_range : randbelow_in_range randbelow.

Lemma shuffle_loop_ok {A} (idx : list Z) : ∀ (x : list A) (s : rng),
  (∀ i, i ∈ idx → 0 <= i < Z.of_nat (length x)) →
  ∃ s' x', shuffle_loop randbelow idx x s = (s', x', Ok ()).
Proof.
  induction idx as [|i idx IH]; intros x s Hidx; cbn [shuffle_loop].
  { by exists s, x. }
  pose proof (in_range s (i + 1)) as Hj.
  destruct (randbelow s (i + 1)) as [s1 j]. cbn [snd] in Hj.
  assert (0 <= i < Z.of_nat (length x)) as Hi by (apply Hidx; left).
  destruct (swap_ok x i j) as (x' & -> & Hlen); [lia..|].
  apply IH. intros k Hk. rewrite Hlen. apply Hidx. by right.
Qed.

Lemma shuffle_ok {A} (x : list A) (s : rng) :
  ∃ s' x', shuffle randbelow x s = (s', x', Ok ()) ∧ x ≡ₚ x'.
Proof.
  pose proof (shuffle_perm randbelow x s) as Hperm.
  destruct (shuffle_loop_ok (reverse (seqZ 1 (Z.of_nat (length x) - 1))) x s)
    as (s' & x' & Hrun).
  { intros i Hi. apply elem_of_reverse, elem_of_seqZ in Hi. lia. }
  unfold shuffle in *. rewrite Hrun in *. by exists s', x'.
Qed.

Lemma choice_ok {A} (l : list A) (s : rng) :
  l ≠ [] → ∃ s' a, choice randbelow l s = (s', Ok a).
Proof.
  intros Hl. unfold choice. destruct l as [|a0 l]; [done|].
  pose proof (in_range s (Z.of_nat (length (a0 :: l)))) as Hj.
  destruct (randbelow s _) as [s1 j]. cbn [snd] in Hj.
  destruct (py_index_nonneg (a0 :: l) j) as (a & _ & ->); [cbn in *; lia|].
  by exists s1, a.
Qed.

Lemma fold_stateful_total {S A B} (I : B → Prop) (body : B → A → stateful S B)
    (l : list A) :
  (∀ b x s, I b → ∃ s' b', body b x s = (s', Ok b') ∧ I b') →
  ∀ b s, I b → ∃ s' b', fold_stateful body l b s = (s', Ok b') ∧ I b'.
Proof.
  intros Hbody. induction l as [|x l IH]; intros b s Hb; cbn [fold_stateful].
  { by exists s, b. }
  unfold mbind, stateful_bind.
  destruct (Hbody b x s Hb) as (s1 & b1 & -> & Hb1). by apply IH.
Qed.

Lemma place_next_ok size st word (s : rng) :
  search_inv size st →
  ∃ s' st', place_next randbelow size st word s = (s', Ok st') ∧ search_inv size st'.
Proof.
  intros Hinv.
  assert (∃ s' st', place_next randbelow size st word s = (s', Ok st'))
    as (s' & st' & Hrun); [|exists s', st'; split; [done|by eapply place_next_inv]].
  destruct st as [[[g ws] placed] still]. destruct Hinv as (Hwf & _).
  unfold place_next. case_bool_decide; [by eexists _, _|].
  case_bool_decide; [by eexists _, _|].
  unfold mbind, stateful_bind, pure.
  destruct (find_all_placements_spec g word ws size Hwf) as (found & -> & _).
  destruct found as [|cand found]; [by eexists _, _|].
  destruct (choice_ok (cand :: found) s) as (s1 & [[[r c] d] g'] & ->); [done|].
  by eexists _, _.
Qed.

Lemma one_pass_ok size st pass_num (s : rng) :
  search_inv size st →
  ∃ s' st', one_pass randbelow size st pass_num s = (s', Ok st') ∧ search_inv size st'.
Proof.
  destruct st as [[[g ws] placed] remaining]. intros Hinv.
  unfold one_pass, mbind, stateful_bind, shuffled.
  destruct (shuffle_ok remaining s) as (s1 & remaining' & -> & _).
  apply (fold_stateful_total (search_inv size)).
  - intros b x s0. apply place_next_ok.
  - destruct Hinv as (? & ? & ?). done.
Qed.

Lemma attempt_ok (pool : list (list N)) size (s : rng) :
  0 <= size → pool ≠ [] → ∃ s' out, attempt randbelow pool size s = (s', Ok out).
Proof.
  intros Hsize Hpool. unfold attempt, mbind at 1 2, stateful_bind, pure.
  destruct pool as [|first pool]; [done|].
  change (py_index (first :: pool) 0) with (Ok first : result (list N)).
  destruct (try_place_spec (make_grid size) first (size `div` 2)
              (Z.max 0 ((size - Z.of_nat (length first)) `div` 2)) horizontal size)
    as [(_ & _ & g0 & -> & Hwf0 & _)|(_ & ->)];
    [by apply wf_make_grid|by apply Z.div_pos|lia| |by eexists _, _].
  unfold mbind, stateful_bind.
  edestruct (fold_stateful_total (search_inv size) (one_pass randbelow size) (range 3))
    as (s1 & st & -> & _); [| |by eexists _, _].
  - intros b x s0. apply one_pass_ok.
  - split_and!; [done| |cbn; lia].
    intros t. rewrite elem_of_singleton. cbn. by rewrite list_elem_of_singleton.
Qed.

Lemma attempts_ok (n : nat) (p : positive) size min_words min_letters :
  0 <= size →
  ∀ (st : gmap positive (list (list N))) (s : rng) pool best best_score,
  st !! p = Some pool → pool ≠ [] →
  ∃ st' s' out,
    attempts randbelow n p size min_words min_letters best best_score (st, s)
    = ((st', s'), Ok out).
Proof.
  intros Hsize. induction n as [|n IH]; intros st s pool best best_score Hp Hpool;
    cbn [attempts].
  { by eexists _, _, _. }
  unfold mbind, stateful_bind.
  rewrite (shuffle_at_run randbelow p st s pool Hp).
  destruct (shuffle_ok pool s) as (s1 & x1 & -> & Hperm). cbn [fst snd].
  rewrite (read_at_run p _ s1 x1) by apply lookup_insert_eq.
  rewrite on_rng_run.
  assert (x1 ≠ []) as Hx1.
  { intros ->. by apply Permutation_nil_r in Hperm. }
  assert (Hlater : ∀ s2 best best_score,
            ∃ st' s' out,
              attempts randbelow n p size min_words min_letters best best_score
                (<[p := x1]> st, s2) = ((st', s'), Ok out)).
  { intros s2 b bs. apply (IH _ s2 x1); [apply lookup_insert_eq|done]. }
  destruct (attempt_ok x1 size s1 Hsize Hx1) as (s2 & [[g placed]|] & ->);
    cbn [fst snd]; [|apply Hlater].
  unfold pure, acceptable.
  destruct (check_connectivity_spec placed) as (b & -> & _).
  destruct (bool_decide _ && bool_decide _); cbn [andb].
  - destruct (b && bool_decide _); [|apply Hlater].
    destruct (bool_decide _); [by eexists _, _, _|apply Hlater].
  - apply Hlater.
Qed.

(** X21: With a generator whose draws are in range, a grid side that is not
    negative and a pool that is not empty, [generate_puzzle] returns a
    puzzle or [None]: it raises no exception and its loops end. *)
Theorem generate_puzzle_returns (p : positive)
    (st : gmap positive (list (list N))) (s : rng) pool
    size min_words min_letters max_attempts :
  0 <= size → st !! p = Some pool → pool ≠ [] →
  ∃ st' s' out,
    generate_puzzle randbelow p size min_words min_letters max_attempts (st, s)
    = ((st', s'), Ok out).
Proof. intros Hsize Hp Hpool. by eapply attempts_ok. Qed.
End total.

(** ** The search on a pool it cannot use *)

Section unusable_pool.
Context {rng : Type} (randbelow : rng → Z → rng * Z).

(** X22: On an empty pool [generate_puzzle] raises [IndexError] as soon as
    it makes an attempt (it reads [word_pool[0]]); the pool and the
    generator are left as they were. *)
Theorem generate_puzzle_empty_pool (p : positive)
    (st : gmap positive (list (list N))) (s : rng)
    size min_words min_letters max_attempts :
  st !! p = Some [] → 1 <= max_attempts →
  generate_puzzle randbelow p size min_words min_letters max_attempts (st, s)
  = ((st, s), Raise IndexError).
Proof.
  intros Hp Hmax. unfold generate_puzzle.
  destruct (Z.to_nat max_attempts) as [|n] eqn:Hn; [lia|].
  cbn [attempts]. unfold mbind, stateful_bind.
  rewrite (shuffle_at_run randbelow p st s [] Hp).
  change (shuffle randbelow [] s) with (s, @nil (list N), Ok ()).
  cbn [fst snd]. rewrite insert_id by done.
  by rewrite (read_at_run p st s [] Hp).
Qed.

Lemma attempt_too_long (pool : list (list N)) size (s : rng) :
  0 <= size → pool ≠ [] →
  Forall (λ w, Z.of_nat (length w) > size) pool →
  attempt randbelow pool size s = (s, Ok None).
Proof.
  intros Hsize Hpool Hlong. destruct pool as [|first pool]; [done|].
  apply Forall_cons in Hlong as [Hfirst _].
  unfold attempt, mbind at 1 2, stateful_bind, pure.
  change (py_index (first :: pool) 0) with (Ok first : result (list N)).
  cbv beta iota.
  assert (try_place (make_grid size) first (size `div` 2)
            (Z.max 0 ((size - Z.of_nat (length first)) `div` 2)) horizontal size
          = Ok None) as ->; [|done].
  assert ((size - Z.of_nat (length first)) `div` 2 < 0) as Hneg.
  { apply Z.div_lt_upper_bound; lia. }
  rewrite Z.max_l by lia.
  destruct (decide (size = 0)) as [->|Hpos].
  - destruct first as [|ch first]; [cbn in Hfirst; lia|]. done.
  - apply try_place_rejects_overrun; [lia|by apply wf_make_grid| |by apply Z.div_pos|lia|].
    + intros ->. cbn in Hfirst. lia.
    + exists (Z.of_nat (length first) - 1). split; [lia|].
      unfold inside, cell_col. lia.
Qed.

Hypothesis in_range : randbelow_in_range randbelow.

Lemma attempts_too_long (n : nat) (p : positive) size min_words min_letters :
  0 <= size →
  ∀ (st : gmap positive (list (list N))) (s : rng) pool,
  st !! p = Some pool → pool ≠ [] →
  Forall (λ w, Z.of_nat (length w) > size) pool →
  ∃ st' s',
    attempts randbelow n p size min_words min_letters None 0 (st, s)
    = ((st', s'), Ok None).
Proof.
  intros Hsize. induction n as [|n IH]; intros st s pool Hp Hpool Hlong;
    cbn [attempts].
  { by eexists _, _. }
  unfold mbind, stateful_bind.
  rewrite (shuffle_at_run randbelow p st s pool Hp).
  destruct (shuffle_ok randbelow in_range pool s) as (s1 & x1 & -> & Hperm).
  cbn [fst snd].
  rewrite (read_at_run p _ s1 x1) by apply lookup_insert_eq.
  rewrite on_rng_run.
  assert (x1 ≠ []) as Hx1.
  { intros ->. by apply Permutation_nil_r in Hperm. }
  assert (Forall (λ w, Z.of_nat (length w) > size) x1) as Hlong1
    by by rewrite <- Hperm.
  rewrite (attempt_too_long x1 size s1 Hsize Hx1 Hlong1). cbn [fst snd].
  apply (IH _ s1 x1); [apply lookup_insert_eq|done..].
Qed.

(** X23: With a generator whose draws are in range, when every word of a
    pool that is not empty is longer than the side of the grid, every
    attempt is skipped and [generate_puzzle] returns [None]. *)
Theorem generate_puzzle_words_too_long (p : positive)
    (st : gmap positive (list (list N))) (s : rng) pool
    size min_words min_letters max_attempts :
  0 <= size → st !! p = Some pool → pool ≠ [] →
  Forall (λ w, Z.of_nat (length w) > size) pool →
  (generate_puzzle randbelow p size min_words min_letters max_attempts (st, s)).2
  = Ok None.
Proof.
  intros Hsize Hp Hpool Hlong. unfold generate_puzzle.
  destruct (attempts_too_long (Z.to_nat max_attempts) p size min_words min_letters
              Hsize st s pool Hp Hpool Hlong) as (st' & s' & ->).
  done.
Qed.
End unusable_pool.

(** ** One round of the driver *)

Section driver_facts.
Context {rng : Type} (randbelow : rng → Z → rng * Z).

Lemma formatted_puzzle (p : positive) (st st' : gmap positive (list (list N)))
    (s s' : rng) pool size min_words min_letters max_attempts g placed :
  0 <= size → st !! p = Some pool →
  generate_puzzle randbelow p size min_words min_letters max_attempts (st, s)
  = ((st', s'), Ok (Some (g, placed))) →
  ∃ words,
    format_puzzle g placed size = Ok (g, words) ∧
    wf_grid g size ∧ NoDup (text <$> words) ∧
    ∀ w, w ∈ words →
         text w ∈ pool ∧ is_run g w ∧ 2 <= Z.of_nat (length (text w)).
Proof.
  intros Hsize Hp Hrun.
  destruct (generate_puzzle_inv randbelow p st st' s s' size min_words min_letters
              max_attempts g placed Hsize Hrun) as (Hwf & _ & _).
  destruct (generate_puzzle_placed_inv randbelow p st st' s s' pool size min_words
              min_letters max_attempts g placed Hsize Hp Hrun)
    as (ws & rest & _ & _ & Hnd & Hpool & _).
  destruct (clean_placed_words_spec g placed size Hwf)
    as (words & Hclean & Hmem & _ & Hsub).
  exists words. unfold format_puzzle. rewrite Hclean. split; [done|].
  split; [done|]. split.
  - eapply sublist_NoDup; [exact Hnd|]. by apply fmap_sublist.
  - intros w Hw. apply Hmem in Hw as (Hw & Hrunw & Hlen).
    split; [|done]. by apply (proj1 (Forall_forall _ _) Hpool w Hw).
Qed.

(** X24: One round of the driver loop, on the pool [pool] of the module:
    when it ends with a puzzle, the grid has [size] rows of [size] cells,
    the words of the output are words of the pool with different texts,
    each one a maximal run of two letters or more of the grid at its
    recorded position, and every list that the store held before the round
    is unchanged. *)
Theorem generate_day_output (p : positive) (st st' : gmap positive (list (list N)))
    (s s' : rng) pool size min_words min_letters attempts g words :
  0 <= size → st !! p = Some pool →
  generate_day randbelow p size min_words min_letters attempts (st, s)
  = ((st', s'), Ok (Some (g, words))) →
  wf_grid g size ∧ NoDup (text <$> words) ∧
  (∀ w, w ∈ words →
        text w ∈ pool ∧ is_run g w ∧ 2 <= Z.of_nat (length (text w))) ∧
  (∀ l x, st !! l = Some x → st' !! l = Some x).
Proof.
  intros Hsize Hp Hrun.
  assert (∀ l x, st !! l = Some x → st' !! l = Some x) as Hframe.
  { intros l x Hl.
    pose proof (generate_day_frame randbelow p st s size min_words min_letters
                  attempts l x Hl) as H.
    by rewrite Hrun in H. }
  cut (wf_grid g size ∧ NoDup (text <$> words) ∧
       (∀ w, w ∈ words →
             text w ∈ pool ∧ is_run g w ∧ 2 <= Z.of_nat (length (text w)))).
  { tauto. }
  clear Hframe. revert Hrun.
  unfold generate_day, mbind, stateful_bind, copy_list. rewrite Hp.
  set (l' := fresh (dom st)).
  destruct (generate_puzzle randbelow l' size min_words min_letters attempts
              (<[l' := pool]> st, s)) as [[st1 s1] res1] eqn:Hrun1.
  destruct res1 as [[[g1 placed1]|]| |]; [| |done..].
  - destruct (formatted_puzzle l' _ st1 s s1 pool size min_words min_letters
                attempts g1 placed1 Hsize (lookup_insert_eq _ _ _) Hrun1)
      as (words1 & Hfmt & Hout).
    unfold pure. rewrite Hfmt. by intros [= <- <- <- <-].
  - destruct (generate_puzzle_frame randbelow l' (<[l' := pool]> st) s pool size
                min_words min_letters attempts (lookup_insert_eq _ _ _))
      as (pool1 & s1' & res1' & Hperm & Hrun1').
    rewrite Hrun1 in Hrun1'. injection Hrun1' as -> <- _.
    destruct (generate_puzzle randbelow l' size (3 `max` (min_words - 3))
                (12 `max` (min_letters - 10)) (attempts * 2)
                (<[l' := pool1]> (<[l' := pool]> st), s1))
      as [[st2 s2] res2] eqn:Hrun2.
    destruct res2 as [[[g2 placed2]|]| |]; [|done..].
    destruct (formatted_puzzle l' _ st2 s1 s2 pool1 size _ _ _ g2 placed2 Hsize
                (lookup_insert_eq _ _ _) Hrun2) as (words2 & Hfmt & Hwf & Hnd & Hout).
    unfold pure. rewrite Hfmt. intros [= <- <- <- <-].
    split; [done|]. split; [done|]. intros w Hw.
    destruct (Hout w Hw) as (Hpool & Hrest). split; [|done]. by rewrite Hperm.
Qed.
End driver_facts.

(** ** Building a puzzle from a plan *)

Lemma first_ghost_forallb (runs : list (list N)) (ws : gset (list N)) :
  (first_ghost runs ws).1 = forallb (λ run, bool_decide (run ∈ ws)) runs.
Proof.
  induction runs as [|run runs IH]; [done|]. cbn [first_ghost forallb].
  destruct (decide (run ∈ ws)) as [Hin|Hout].
  - rewrite bool_decide_eq_false_2 by (by intros ?).
    by rewrite (bool_decide_eq_true_2 (run ∈ ws)).
  - rewrite bool_decide_eq_true_2 by done.
    by rewrite (bool_decide_eq_false_2 (run ∈ ws)).
Qed.

Lemma check_no_ghosts_spec (g : list (list N)) (ws : gset (list N)) :
  wf_grid g GRID_SIZE →
  ∃ res, check_no_ghosts g ws = Ok res ∧ (res.1 = true ↔ no_ghosts g ws).
Proof.
  intros Hwf.
  destruct (is_valid_after_placement_spec g ws GRID_SIZE Hwf) as (b & Hb & Hiff).
  revert Hb. unfold is_valid_after_placement, check_no_ghosts, find_all_runs_7.
  destruct (find_all_runs g GRID_SIZE) as [runs| |]; cbn; [|done..].
  intros [= <-]. eexists. split; [done|]. by rewrite first_ghost_forallb.
Qed.

Lemma try_place_from_wf (word : list N) : ∀ (g g' : list (list N)) i row col d size,
  wf_grid g size → try_place_from g i word row col d size = Ok (Some g') →
  wf_grid g' size.
Proof.
  induction word as [|ch rest IH]; intros g g' i row col d size Hwf Hrun.
  - cbn in Hrun. by injection Hrun as <-.
  - apply try_place_from_inv in Hrun as (jr & jc & gr & old & Hgr & _ & _ & Hrun).
    eapply IH; [|exact Hrun]. by apply wf_grid_insert.
Qed.

Lemma make_grid_no_run size (p : list N * Z * Z * direction) :
  0 <= size → ¬ is_run (make_grid size) p.
Proof.
  intros Hsize. destruct p as [[[w r] c] d]. intros (Hne & Hcells & _).
  destruct w as [|x w]; [done|].
  destruct (Hcells 0%nat x eq_refl) as [Hcell Hx].
  destruct (decide (inside size (cell_row r d (Z.of_nat 0)) (cell_col c d (Z.of_nat 0))))
    as [Hin|Hout].
  - rewrite (make_grid_cell _ _ _ Hin) in Hcell. congruence.
  - rewrite (wf_cell_outside _ size _ _ (wf_make_grid size Hsize) Hout) in Hcell.
    done.
Qed.

(** X25: On a grid of 7 rows of 7 cells, at a row and a column that are not
    negative, [try_add_word] returns without raising, and returns the grid
    [g'] exactly when the word stays inside the grid, meets no different
    letter, [g'] is the grid with the word written, and no maximal run of
    two letters or more of [g'] has a text outside [word_set] and the word;
    otherwise it returns [None]. *)
Theorem try_add_word_accepts_iff (g : list (list N))
    (words : list (list N * Z * Z * direction)) (ws : gset (list N))
    (word : list N) row col d :
  wf_grid g GRID_SIZE → 0 <= row → 0 <= col →
  ∃ res,
    try_add_word g words ws word row col d = Ok res ∧
    ∀ g', res = Some g' ↔
          fits GRID_SIZE word row col d ∧ no_conflict g word row col d ∧
          wf_grid g' GRID_SIZE ∧ overlay g word row col d g' ∧
          no_ghosts g' (ws ∪ {[ word ]}).
Proof.
  intros Hwf Hrow Hcol. unfold try_add_word.
  change (place_word g word row col d) with (try_place g word row col d GRID_SIZE).
  destruct (try_place_spec g word row col d GRID_SIZE Hwf Hrow Hcol)
    as [(Hfits & Hnc & g1 & -> & Hwf1 & Hov1)|[Hno ->]]; cbn [mbind result_bind].
  - destruct (check_no_ghosts_spec g1 (ws ∪ {[ word ]}) Hwf1) as (res & -> & Hok).
    cbn [mbind result_bind]. destruct res.1 eqn:Hres.
    + exists (Some g1). split; [done|]. intros g'. split.
      * intros [= <-]. split_and!; try done. by apply Hok.
      * intros (_ & _ & Hwf' & Hov' & _). f_equal.
        by apply (overlay_unique g g1 g' word row col d GRID_SIZE).
    + exists None. split; [done|]. intros g'. split; [done|].
      intros (_ & _ & Hwf' & Hov' & Hghosts).
      assert (g1 = g') as -> by by apply (overlay_unique g g1 g' word row col d GRID_SIZE).
      apply Hok in Hghosts. congruence.
  - exists None. split; [done|]. intros g'. split; [done|]. tauto.
Qed.

Lemma try_add_word_accepts_iff_witness :
  ∃ res,
    try_add_word grid_mal [] {[ lit "MAL" ]} (lit "AJO") 3 3 vertical = Ok res ∧
    ∀ g', res = Some g' ↔
          fits GRID_SIZE (lit "AJO") 3 3 vertical ∧
          no_conflict grid_mal (lit "AJO") 3 3 vertical ∧
          wf_grid g' GRID_SIZE ∧ overlay grid_mal (lit "AJO") 3 3 vertical g' ∧
          no_ghosts g' ({[ lit "MAL" ]} ∪ {[ lit "AJO" ]}).
Proof.
  apply (try_add_word_accepts_iff grid_mal [] {[ lit "MAL" ]} (lit "AJO") 3 3 vertical
           wf_grid_mal); lia.
Defined.

Lemma try_layout_loop_sound (plan : list (list N * Z * Z * direction)) :
  ∀ (g g' : list (list N)) (words words' : list (list N * Z * Z * direction))
    (ws : gset (list N)) (g0 : list (list N)),
  try_layout_loop plan g words ws = Ok (Some (g', words')) →
  wf_grid g GRID_SIZE → (∀ t, t ∈ ws ↔ t ∈ text <$> words) →
  successive GRID_SIZE g0 words g → no_ghosts g ws →
  words' = words ++ plan ∧ successive GRID_SIZE g0 words' g' ∧
  wf_grid g' GRID_SIZE ∧
  ∀ p, is_run g' p → 2 <= Z.of_nat (length (text p)) → text p ∈ text <$> words'.
Proof.
  induction plan as [|[[[word row] col] d] plan IH];
    intros g g' words words' ws g0 Hrun Hwf Hws Hsucc Hghosts; cbn [try_layout_loop] in Hrun.
  { injection Hrun as <- <-. rewrite app_nil_r. split_and!; try done.
    intros p Hp Hlen. apply Hws. by apply Hghosts. }
  change (place_word g word row col d) with (try_place g word row col d GRID_SIZE)
    in Hrun.
  destruct (try_place g word row col d GRID_SIZE) as [[g1|]| |] eqn:Hplace;
    cbn [mbind result_bind] in Hrun; [|done..].
  assert (wf_grid g1 GRID_SIZE) as Hwf1 by by eapply try_place_from_wf.
  destruct (check_no_ghosts_spec g1 (ws ∪ {[ word ]}) Hwf1) as (res & Hres & Hok).
  rewrite Hres in Hrun. cbn [mbind result_bind] in Hrun.
  destruct res.1 eqn:Hres1; [|done].
  apply (IH _ _ _ _ _ g0) in Hrun as (-> & Hsucc' & Hwf' & Hruns).
  - split_and!; [by rewrite <- app_assoc|done..].
  - done.
  - intros t. rewrite elem_of_union, elem_of_singleton, Hws, fmap_app, elem_of_app.
    cbn. by rewrite list_elem_of_singleton.
  - by eapply successive_snoc.
  - by apply Hok.
Qed.

(** X26: What [try_layout] returns when it does not return [None]: the
    words are the entries of the plan, in their order; the grid is the one
    that [place_word] builds from the empty 7x7 grid when the entries are
    placed one after the other, each being accepted; it has 7 rows of 7
    cells; every maximal run of two letters or more of it spells a word of
    the plan; and the entries are connected through shared cells. *)
Theorem try_layout_sound (plan words : list (list N * Z * Z * direction))
    (g : list (list N)) :
  try_layout plan = Ok (Some (g, words)) →
  words = plan ∧
  successive GRID_SIZE (make_grid GRID_SIZE) plan g ∧
  wf_grid g GRID_SIZE ∧
  (∀ p, is_run g p → 2 <= Z.of_nat (length (text p)) → text p ∈ text <$> plan) ∧
  connected plan.
Proof.
  unfold try_layout.
  destruct (try_layout_loop plan (make_grid GRID_SIZE) [] ∅)
    as [[[g1 words1]|]| |] eqn:Hloop; cbn [mbind result_bind]; [|done..].
  apply (try_layout_loop_sound plan _ _ _ _ _ (make_grid GRID_SIZE)) in Hloop
    as (-> & Hsucc & Hwf & Hruns).
  - destruct (check_connectivity_spec ([] ++ plan)) as (b & -> & Hconn).
    cbn [mbind result_bind]. destruct b; [|done]. intros [= <- <-].
    cbn [app] in *. split_and!; try done. by apply Hconn.
  - by apply wf_make_grid.
  - intros t. cbn. split; [set_solver|]. intros Ht. by apply elem_of_nil in Ht.
  - constructor.
  - intros p Hp. by apply make_grid_no_run in Hp.
Qed.

Lemma try_layout_sound_witness :
  ∃ g,
    try_layout plan_mal = Ok (Some (g, plan_mal)) ∧
    plan_mal = plan_mal ∧
    successive GRID_SIZE (make_grid GRID_SIZE) plan_mal g ∧
    wf_grid g GRID_SIZE ∧
    (∀ p, is_run g p → 2 <= Z.of_nat (length (text p)) →
          text p ∈ text <$> plan_mal) ∧
    connected plan_mal.
Proof.
  eexists. split; [vm_compute; reflexivity|].
  apply (try_layout_sound plan_mal plan_mal). vm_compute. reflexivity.
Defined.

Lemma try_layout_loop_returns (plan : list (list N * Z * Z * direction)) :
  ∀ (g : list (list N)) (words : list (list N * Z * Z * direction))
    (ws : gset (list N)),
  wf_grid g GRID_SIZE → Forall (λ p, 0 <= p.1.1.2 ∧ 0 <= p.1.2) plan →
  ∃ out, try_layout_loop plan g words ws = Ok out.
Proof.
  induction plan as [|[[[word row] col] d] plan IH]; intros g words ws Hwf Hpos;
    cbn [try_layout_loop].
  { by eexists. }
  apply Forall_cons in Hpos as [[Hrow Hcol] Hpos]. cbn in Hrow, Hcol.
  change (place_word g word row col d) with (try_place g word row col d GRID_SIZE).
  destruct (try_place_spec g word row col d GRID_SIZE Hwf Hrow Hcol)
    as [(_ & _ & g1 & -> & Hwf1 & _)|[_ ->]]; cbn [mbind result_bind];
    [|by eexists].
  destruct (check_no_ghosts_spec g1 (ws ∪ {[ word ]}) Hwf1) as (res & -> & _).
  cbn [mbind result_bind]. destruct res.1; [by apply IH|by eexists].
Qed.

(** X27: On a plan whose entries are all anchored at a row and a column
    that are not negative, [try_layout] returns a layout or [None]: it
    raises no exception, whatever the words and however far they run off
    the grid. *)
Theorem try_layout_returns (plan : list (list N * Z * Z * direction)) :
  Forall (λ p, 0 <= p.1.1.2 ∧ 0 <= p.1.2) plan →
  ∃ out, try_layout plan = Ok out.
Proof.
  intros Hpos. unfold try_layout.
  destruct (try_layout_loop_returns plan (make_grid GRID_SIZE) [] ∅)
    as ([[g words]|] & ->); [by apply wf_make_grid|done| |by eexists].
  cbn [mbind result_bind].
  destruct (check_connectivity_spec words) as (b & -> & _).
  cbn [mbind result_bind]. destruct b; by eexists.
Qed.

Lemma try_layout_returns_witness :
  ∃ out, try_layout [(lit "MAL", 3, 5, horizontal)] = Ok out.
Proof.
  apply (try_layout_returns [(lit "MAL", 3, 5, horizontal)]).
  repeat constructor; cbn; lia.
Defined.

Lemma build_puzzle_loop_agrees (plan : list (list N * Z * Z * direction)) :
  ∀ (i : nat) (g : list (list N)) (words : list (list N * Z * Z * direction))
    (ws : gset (list N)),
  match try_layout_loop plan g words ws with
  | Ok (Some out) => build_puzzle_loop plan i g words ws = Ok (inr out)
  | Ok None => ∃ e, build_puzzle_loop plan i g words ws = Ok (inl e)
  | Raise e => build_puzzle_loop plan i g words ws = Raise e
  | OutOfFuel => build_puzzle_loop plan i g words ws = OutOfFuel
  end.
Proof.
  induction plan as [|[[[word row] col] d] plan IH]; intros i g words ws;
    cbn [try_layout_loop build_puzzle_loop]; [done|].
  unfold try_add_word.
  destruct (place_word g word row col d) as [[g1|]| |]; cbn [mbind result_bind];
    [|by eexists|done..].
  unfold check_no_ghosts.
  destruct (find_all_runs_7 g1) as [runs| |]; cbn [mbind result_bind]; [|done..].
  destruct (first_ghost runs (ws ∪ {[ word ]})).1; cbn [mbind result_bind].
  - apply IH.
  - by eexists.
Qed.

(** X28: [build_puzzle] and [try_layout] agree: [build_puzzle] returns
    [(grid, words)] exactly when [try_layout] returns it, raises
    [ValueError] exactly when [try_layout] returns [None], and an exception
    of [try_layout] is the exception of [build_puzzle]. *)
Theorem build_puzzle_agrees_with_try_layout
    (plan : list (list N * Z * Z * direction)) :
  match try_layout plan with
  | Ok (Some out) => build_puzzle plan = Ok (inr out)
  | Ok None => ∃ e, build_puzzle plan = Ok (inl e)
  | Raise e => build_puzzle plan = Raise e
  | OutOfFuel => build_puzzle plan = OutOfFuel
  end.
Proof.
  unfold try_layout, build_puzzle.
  pose proof (build_puzzle_loop_agrees plan 0 (make_grid GRID_SIZE) [] ∅) as Hloop.
  destruct (try_layout_loop plan (make_grid GRID_SIZE) [] ∅)
    as [[[g words]|]| |]; cbn [mbind result_bind].
  - rewrite Hloop. cbn [mbind result_bind].
    destruct (check_connectivity words) as [[]| |]; cbn [mbind result_bind];
      [done|by eexists|done..].
  - destruct Hloop as [e ->]. by eexists.
  - by rewrite Hloop.
  - by rewrite Hloop.
Qed.

(** ** The properties of the search on the pool of four words *)

Lemma generate_puzzle_meets_thresholds_witness :
  Z.of_nat (length placed_ab) >= 4 ∧ count_letters grid_ab >= 6 ∧
  check_connectivity placed_ab = Ok true.
Proof.
  exact (generate_puzzle_meets_thresholds replay 1%positive store_ab store_ab
           draws_ab [] 5 4 6 1 grid_ab placed_ab generate_puzzle_ab).
Defined.

Lemma generate_puzzle_runs_spell_placed_words_witness :
  wf_grid grid_ab 5 ∧
  ((2 ≤ length placed_ab)%nat →
   ∀ q, is_run grid_ab q → 2 <= Z.of_nat (length (text q)) →
        text q ∈ text <$> placed_ab).
Proof.
  apply (generate_puzzle_runs_spell_placed_words replay 1%positive store_ab store_ab
           draws_ab [] 5 4 6 1 grid_ab placed_ab); [lia|apply generate_puzzle_ab].
Defined.

Lemma generate_puzzle_grid_of_placed_words_witness :
  successive 5 (make_grid 5) placed_ab grid_ab ∧
  (∃ first others,
     placed_ab = (first, 5 `div` 2,
                  Z.max 0 ((5 - Z.of_nat (length first)) `div` 2), horizontal)
                 :: others) ∧
  Forall (λ q, 0 <= q.1.1.2 ∧ 0 <= q.1.2) placed_ab.
Proof.
  apply (generate_puzzle_grid_of_placed_words replay 1%positive store_ab store_ab
           draws_ab [] 5 4 6 1 grid_ab placed_ab);
    [lia|apply generate_puzzle_ab].
Defined.

Lemma generate_puzzle_places_pool_words_once_witness :
  NoDup (text <$> placed_ab) ∧ ∀ w, w ∈ text <$> placed_ab → w ∈ pool_ab.
Proof.
  apply (generate_puzzle_places_pool_words_once replay 1%positive store_ab store_ab
           draws_ab [] pool_ab 5 4 6 1 grid_ab placed_ab);
    [lia|reflexivity|apply generate_puzzle_ab].
Defined.

Lemma generate_puzzle_shows_placed_words_witness :
  cell grid_ab (cell_row 3 horizontal (Z.of_nat 2)) (cell_col 1 horizontal (Z.of_nat 2))
  = Some (chr "C").
Proof.
  apply (generate_puzzle_shows_placed_words replay 1%positive store_ab store_ab
           draws_ab [] 5 4 6 1 grid_ab placed_ab
           ltac:(lia) generate_puzzle_ab (lit "BAC") 3 1 horizontal 2%nat
           (chr "C"));
    [apply (list_elem_of_lookup_2 _ 3%nat); reflexivity|reflexivity|discriminate].
Defined.

Lemma generate_puzzle_returns_witness :
  ∃ st' s' out,
    generate_puzzle draw_zero 1%positive 5 4 6 3 (store_ab, ()) = ((st', s'), Ok out).
Proof.
  apply (generate_puzzle_returns draw_zero draw_zero_in_range 1%positive store_ab
           () pool_ab 5 4 6 3); [lia|reflexivity|discriminate].
Defined.

Lemma generate_puzzle_empty_pool_witness :
  generate_puzzle replay 1%positive 5 4 6 1
    ({[ 1%positive := [] ]} : gmap positive (list (list N)), [2; 1])
  = (({[ 1%positive := [] ]}, [2; 1]), Raise IndexError).
Proof.
  apply (generate_puzzle_empty_pool replay 1%positive {[ 1%positive := [] ]} [2; 1]
           5 4 6 1); [reflexivity|lia].
Defined.

Lemma generate_puzzle_words_too_long_witness :
  (generate_puzzle draw_zero 1%positive 2 1 1 3
     ({[ 1%positive := [lit "MAL"; lit "AJO"] ]} : gmap positive (list (list N)), ())).2
  = Ok None.
Proof.
  apply (generate_puzzle_words_too_long draw_zero draw_zero_in_range 1%positive
           {[ 1%positive := [lit "MAL"; lit "AJO"] ]} () [lit "MAL"; lit "AJO"]
           2 1 1 3); [lia|reflexivity|discriminate|].
  repeat constructor; cbn; lia.
Defined.

Lemma generate_day_output_witness :
  ∃ st' s' g words,
    generate_day replay 1%positive 5 4 6 1 (store_ab, draws_ab)
    = ((st', s'), Ok (Some (g, words))) ∧
    wf_grid g 5 ∧ NoDup (text <$> words) ∧
    (∀ w, w ∈ words →
          text w ∈ pool_ab ∧ is_run g w ∧ 2 <= Z.of_nat (length (text w))) ∧
    (∀ l x, store_ab !! l = Some x → st' !! l = Some x).
Proof.
  eexists _, _, _, _. split; [vm_compute; reflexivity|].
  eapply (generate_day_output replay 1%positive store_ab _ draws_ab _ pool_ab
            5 4 6 1); [lia|reflexivity|vm_compute; reflexivity].
Defined.

(** ** The candidates, each once *)

Lemma for_each_collect_NoDup {A B} (l : list A)
    (body : A → list B → result (list B)) (P : A → B → Prop) :
  NoDup l →
  (∀ x x' y, P x y → P x' y → x = x') →
  (∀ x acc, x ∈ l →
     ∃ ys, body x acc = Ok (acc ++ ys) ∧ NoDup ys ∧ ∀ y, y ∈ ys ↔ P x y) →
  ∀ acc, ∃ ys,
    for_each l body acc = Ok (acc ++ ys) ∧ NoDup ys ∧
    ∀ y, y ∈ ys ↔ ∃ x, x ∈ l ∧ P x y.
Proof.
  intros Hnd Hfun. induction l as [|x l IH]; intros Hbody acc; cbn [for_each].
  { exists []. rewrite app_nil_r. split; [done|]. split; [constructor|].
    intros y. split; [by intros ?%elem_of_nil|]. intros (x & Hx & _).
    by apply elem_of_nil in Hx. }
  apply NoDup_cons in Hnd as [Hx Hnd].
  destruct (Hbody x acc) as (ys0 & -> & Hnd0 & Hmem0); [by left|].
  cbn [mbind result_bind].
  destruct (IH Hnd) with (acc := acc ++ ys0) as (ys1 & -> & Hnd1 & Hmem1).
  { intros x' acc' Hx'. apply Hbody. by right. }
  exists (ys0 ++ ys1). rewrite app_assoc. split; [done|]. split.
  - apply NoDup_app. split; [done|]. split; [|done].
    intros y Hy0 Hy1. apply Hmem0 in Hy0. apply Hmem1 in Hy1 as (x' & Hx' & Hy1).
    rewrite (Hfun x x' y Hy0 Hy1) in Hx. done.
  - intros y. rewrite elem_of_app, Hmem0, Hmem1. split.
    + intros [Hy|(x' & Hx' & Hy)]; [exists x; split; [by left|done]|].
      exists x'. split; [by right|done].
    + intros (x' & [->|Hx']%elem_of_cons & Hy); [by left|]. right. by exists x'.
Qed.

Lemma try_candidate_at_most_one (g : list (list N)) (word : list N)
    (new_ws : gset (list N)) size d r c
    (acc res : list (Z * Z * direction * list (list N))) :
  try_candidate g word new_ws size d r c acc = Ok res →
  res = acc ∨ ∃ g', res = acc ++ [(r, c, d, g')].
Proof.
  unfold try_candidate.
  destruct (try_place g word r c d size) as [[g1|]| |]; cbn [mbind result_bind];
    [|by intros [= <-]; left|done..].
  destruct (if bool_decide (count_letters g > 0)
            then word_shares_cell g word r c d size ≫= λ shares : bool, Ok (negb shares)
            else Ok false) as [[]| |]; cbn [mbind result_bind];
    [by intros [= <-]; left| |done..].
  destruct (is_valid_after_placement g1 new_ws size) as [[]| |];
    cbn [mbind result_bind]; [|by intros [= <-]; left|done..].
  intros [= <-]. right. by exists g1.
Qed.

Lemma find_all_placements_NoDup (g : list (list N)) (word : list N)
    (ws : gset (list N)) size :
  wf_grid g size →
  ∃ found, find_all_placements g word ws size = Ok found ∧ NoDup found.
Proof.
  intros Hwf. unfold find_all_placements. cbn zeta.
  set (legal_at := λ d r c (y : Z * Z * direction * list (list N)),
         ∃ g', y = (r, c, d, g') ∧ legal g word ws size (r, c, d, g')).
  assert (Hcell : ∀ d r c acc, 0 <= r → 0 <= c →
            ∃ ys, try_candidate g word (ws ∪ {[ word ]}) size d r c acc
                  = Ok (acc ++ ys) ∧ NoDup ys ∧ ∀ y, y ∈ ys ↔ legal_at d r c y).
  { intros d r c acc Hr Hc.
    destruct (try_candidate_spec g word ws size d r c acc Hwf Hr Hc)
      as (ys & Hrun & Hmem).
    exists ys. split; [done|]. split; [|done].
    apply try_candidate_at_most_one in Hrun as [Hrun|[g' Hrun]].
    - rewrite <- (app_nil_r acc) in Hrun at 2. apply app_inv_head in Hrun as ->.
      constructor.
    - apply app_inv_head in Hrun as ->. apply NoDup_singleton. }
  assert (Hrow : ∀ d r n acc, 0 <= r →
            ∃ ys, for_each (range n) (λ c placements,
                    try_candidate g word (ws ∪ {[ word ]}) size d r c placements) acc
                  = Ok (acc ++ ys) ∧ NoDup ys ∧
                  ∀ y, y ∈ ys ↔ ∃ c, c ∈ range n ∧ legal_at d r c y).
  { intros d r n acc Hr.
    apply (for_each_collect_NoDup (range n) _ (legal_at d r)).
    - apply NoDup_seqZ.
    - intros c c' y (g1 & -> & _) (g2 & [= ->] & _). done.
    - intros c acc' [Hc _]%elem_of_seqZ. by apply Hcell. }
  assert (Hdir : ∀ d m n acc,
            ∃ ys, for_each (range m) (λ r placements,
                    for_each (range n) (λ c placements,
                      try_candidate g word (ws ∪ {[ word ]}) size d r c placements)
                      placements) acc
                  = Ok (acc ++ ys) ∧ NoDup ys ∧
                  ∀ y, y ∈ ys ↔
                    ∃ r, r ∈ range m ∧ ∃ c, c ∈ range n ∧ legal_at d r c y).
  { intros d m n acc.
    apply (for_each_collect_NoDup (range m) _
             (λ r y, ∃ c, c ∈ range n ∧ legal_at d r c y)).
    - apply NoDup_seqZ.
    - intros r r' y (c1 & _ & g1 & -> & _) (c2 & _ & g2 & [= ->] & _). done.
    - intros r acc' [Hr _]%elem_of_seqZ. by apply Hrow. }
  destruct (for_each_collect_NoDup [horizontal; vertical]
    (λ d placements,
       for_each
         (range (size - (match d with vertical => Z.of_nat (length word)
                                    | horizontal => 1 end) + 1))
         (λ r placements,
            for_each
              (range (size - (match d with horizontal => Z.of_nat (length word)
                                         | vertical => 1 end) + 1))
              (λ c placements,
                 try_candidate g word (ws ∪ {[ word ]}) size d r c placements)
              placements)
         placements)
    (λ d y, ∃ r, r ∈ range (size - (match d with vertical => Z.of_nat (length word)
                                              | horizontal => 1 end) + 1) ∧
            ∃ c, c ∈ range (size - (match d with horizontal => Z.of_nat (length word)
                                              | vertical => 1 end) + 1) ∧
            legal_at d r c y))
    with (acc := @nil (Z * Z * direction * list (list N)))
    as (found & Hrun & Hnd & _).
  - apply NoDup_cons. split; [|apply NoDup_singleton].
    by intros [=]%list_elem_of_singleton.
  - intros d d' y (r1 & _ & c1 & _ & g1 & -> & _) (r2 & _ & c2 & _ & g2 & [= ->] & _).
    done.
  - intros d acc _. apply Hdir.
  - exists found. split; [exact Hrun|done].
Qed.

(** X29: [find_all_placements] lists every candidate once: on a grid of
    [size] rows of [size] cells, the list it returns has no tuple twice and
    no two tuples for the same position and direction. *)
Theorem find_all_placements_lists_once (g : list (list N)) (word : list N)
    (ws : gset (list N)) size :
  wf_grid g size →
  ∃ found,
    find_all_placements g word ws size = Ok found ∧
    NoDup found ∧
    NoDup ((λ y : Z * Z * direction * list (list N), (y.1.1.1, y.1.1.2, y.1.2))
             <$> found).
Proof.
  intros Hwf.
  destruct (find_all_placements_NoDup g word ws size Hwf) as (found & Hrun & Hnd).
  destruct (find_all_placements_spec g word ws size Hwf) as (found' & Hrun' & Hmem).
  assert (found' = found) as -> by congruence.
  exists found. split; [done|]. split; [done|].
  apply (NoDup_fmap_2_strong _ found); [|done].
  intros [[[r1 c1] d1] g1] [[[r2 c2] d2] g2] H1 H2 [= -> -> ->].
  apply Hmem in H1 as (_ & _ & _ & _ & _ & Hwf1 & Hov1 & _).
  apply Hmem in H2 as (_ & _ & _ & _ & _ & Hwf2 & Hov2 & _).
  f_equal. by apply (overlay_unique g g1 g2 word r2 c2 d2 size).
Qed.

Lemma find_all_placements_lists_once_witness :
  ∃ found,
    find_all_placements grid_mal (lit "AJO") {[ lit "MAL" ]} 7 = Ok found ∧
    NoDup found ∧
    NoDup ((λ y : Z * Z * direction * list (list N), (y.1.1.1, y.1.1.2, y.1.2))
             <$> found).
Proof.
  apply (find_all_placements_lists_once grid_mal (lit "AJO") {[ lit "MAL" ]} 7
           wf_grid_mal).
Defined.
